(** * Color-managed image I/O and job orchestration of [tools/batch_style.py]

    A shallow embedding of the functions of [batch_style.py] and the
    properties of its specification.  The Python code talks to the outside
    world (Pillow, tifffile, torch, the file system, the style-transfer
    object); those collaborators are gathered in a record [env] of oracles,
    and every function of the module becomes a computation that reads the
    oracles, logs each external call it makes, and ends either normally or
    with a Python exception. *)

From Stdlib Require Import ZArith QArith Qround Qabs Qpower Lia Lqa String Ascii.
From Stdlib.Strings Require Import Byte.
From stdpp Require Import gmap strings list.

Local Open Scope Z_scope.

(** ** Python exceptions *)

(** The exception classes that the module and its collaborators can raise.
    [PyCMSError] is the class with which [ImageCms.profileToProfile] reports
    a failed conversion; it derives from [Exception], not from [OSError]. *)
Inductive exn_class :=
  | OSError | FileNotFoundError | PermissionError | UnidentifiedImageError
  | ValueError | TypeError | ZeroDivisionError | OverflowError
  | IndexError | RuntimeError | PyCMSError | KeyboardInterrupt.

(** [sys.exit(n)] raises [SystemExit(n)]; no handler of the module catches
    it, so it ends the process with status [n]. *)
Inductive exn :=
  | Exn (cls : exn_class) (msg : string)
  | SystemExit (code : Z).

Definition class_name (c : exn_class) : string :=
  match c with
  | OSError => "OSError"
  | FileNotFoundError => "FileNotFoundError"
  | PermissionError => "PermissionError"
  | UnidentifiedImageError => "UnidentifiedImageError"
  | ValueError => "ValueError"
  | TypeError => "TypeError"
  | ZeroDivisionError => "ZeroDivisionError"
  | OverflowError => "OverflowError"
  | IndexError => "IndexError"
  | RuntimeError => "RuntimeError"
  | PyCMSError => "PyCMSError"
  | KeyboardInterrupt => "KeyboardInterrupt"
  end.

(** [isinstance(err, OSError)]: the class itself and its subclasses. *)
Definition subclass_of_OSError (c : exn_class) : bool :=
  match c with
  | OSError | FileNotFoundError | PermissionError | UnidentifiedImageError => true
  | _ => false
  end.

Definition is_OSError (e : exn) : bool :=
  match e with
  | Exn c _ => subclass_of_OSError c
  | SystemExit _ => false
  end.

Definition is_ValueError (e : exn) : bool :=
  match e with
  | Exn ValueError _ => true
  | _ => false
  end.

Definition is_KeyboardInterrupt (e : exn) : bool :=
  match e with
  | Exn KeyboardInterrupt _ => true
  | _ => false
  end.

(** The result of a call: a value, or a raised exception. *)
Inductive result (A : Type) :=
  | Ok (a : A)
  | Raise (e : exn).
Arguments Ok {A} a.
Arguments Raise {A} e.

(** ** Data *)

Definition bytes := list byte.

#[global] Instance byte_eq_dec : EqDecision byte := Byte.byte_eq_dec.

(** A Pillow image: its mode (['RGB'], ['CMYK'], ['L'], ...), its size
    [(width, height)], its pixel data and its [info] dictionary; the only
    [info] entry the module reads is ['icc_profile']. *)
Record pil_image := {
  mode : string;
  size : Z * Z;
  pixels : list Z;
  info : gmap string bytes
}.

(** A numpy array: shape and flat data. *)
Record ndarray := {
  shape : list Z;
  data : list Z
}.

(** What [save_image] can be handed: the two representations it tells apart
    with [isinstance], and any other Python object (named by its type). *)
Inductive image_repr :=
  | PilImage (im : pil_image)
  | NdArray (a : ndarray)
  | OtherObject (type_name : string).

(** Keyword arguments of [Image.save]. *)
Inductive kwarg :=
  | KwBytes (b : bytes)
  | KwInt (n : Z).

(** An entry of tifffile's [extratags]:
    [(code, dtype, count, value, writeonce)]. *)
Inductive tiff_datatype := BYTE | ASCII | SHORT | LONG.

Record tiff_tag := {
  tag_code : string;
  tag_dtype : tiff_datatype;
  tag_count : nat;
  tag_value : bytes;
  tag_writeonce : bool
}.

(** A [torch.device]: its type (['cpu'], ['cuda']) and optional index. *)
Record device := {
  dev_type : string;
  dev_index : option nat
}.

(** [torch.cuda.get_device_properties]. *)
Record gpu_props := {
  props_name : string;
  props_major : Z;
  props_minor : Z;
  total_memory : Z
}.

(** ** The outside world *)

Record env := {
  (** [PIL.Image.open(path)] *)
  Image_open : string -> result pil_image;
  (** [image.convert(mode)] *)
  Image_convert : pil_image -> string -> result pil_image;
  (** [ImageCms.profileToProfile(image, src, dst, outputMode=mode)] *)
  profileToProfile : pil_image -> bytes -> bytes -> string -> result pil_image;
  (** [Path(path).read_bytes()] *)
  read_bytes : string -> result bytes;
  (** [image.save(path, **kwargs)] *)
  Image_save : pil_image -> string -> gmap string kwarg -> result unit;
  (** the block [with TiffWriter(path) as writer: writer.save(...)]:
      opening the writer and saving with it; either can fail *)
  TiffWriter_save : string -> ndarray -> string -> Z * Z -> list tiff_tag -> result unit;
  (** [torch.cuda.is_available()] *)
  cuda_is_available : bool;
  (** [torch.get_num_threads()] *)
  get_num_threads : Z;
  (** [torch.cuda.get_device_properties(device)] *)
  get_device_properties : device -> result gpu_props;
  (** [torch.tensor(0).to(device)] *)
  tensor_to : device -> result unit;
  (** [StyleTransfer(devices=devices, pooling=pooling)] *)
  StyleTransfer_init : list device -> string -> result unit;
  (** [st.stylize(content_img, style_imgs, end_scale=end_scale)] *)
  st_stylize : pil_image -> list pil_image -> Z -> result unit;
  (** [st.get_image(image_type)]; [None] when no result exists *)
  st_get_image : string -> result (option image_repr)
}.

(** The informational lines [stylize] prints; their wording is not part of
    the model, the reported values are. *)
Inductive report :=
  | UsingDevices (ds : list device)
  | CpuThreads (n : Z)
  | GpuType (i : nat) (name : string) (major minor : Z)
  | GpuRam (i : nat) (total : Z).

(** One entry per external call or output, in program order. *)
Inductive event :=
  | EvOpen (path : string)
  | EvConvert (im : pil_image) (m : string)
  | EvProfileToProfile (im : pil_image) (src dst : bytes) (outputMode : string)
  | EvReadBytes (path : string)
  | EvImageSave (im : pil_image) (path : string) (kwargs : gmap string kwarg)
  | EvTiffSave (path : string) (a : ndarray) (photometric : string)
      (resolution : Z * Z) (extratags : list tiff_tag)
  | EvStderr (line : string)
  | EvStdout (line : string)
  | EvReport (r : report)
  | EvTqdmWrite (line : string)
  | EvGetDeviceProperties (d : device)
  | EvTensorTo (d : device)
  | EvManualSeed (seed : Z)
  | EvStyleTransferInit (ds : list device) (pooling : string)
  | EvStylize (content : pil_image) (styles : list pil_image) (end_scale : Z)
  | EvGetImage (image_type : string).

Definition trace := list event.

(** ** Computations *)

(** A computation reads the oracles and yields its outcome together with
    the log of what it did. *)
Definition M (A : Type) : Type := env -> result A * trace.

Definition ret {A} (a : A) : M A := fun _ => (Ok a, []).

Definition raise {A} (e : exn) : M A := fun _ => (Raise e, []).

Definition bind {A B} (m : M A) (f : A -> M B) : M B :=
  fun E =>
    match m E with
    | (Ok a, t1) =>
        match f a E with
        | (r, t2) => (r, t1 ++ t2)
        end
    | (Raise e, t1) => (Raise e, t1)
    end.

(** [try: body  except <classes matched by catches>: handler]. *)
Definition try_except {A} (body : M A) (catches : exn -> bool)
    (handler : exn -> M A) : M A :=
  fun E =>
    match body E with
    | (Ok a, t1) => (Ok a, t1)
    | (Raise e, t1) =>
        if catches e then
          match handler e E with
          | (r, t2) => (r, t1 ++ t2)
          end
        else (Raise e, t1)
    end.

(** An external call: logged, then answered by the oracle. *)
Definition call {A} (ev : event) (oracle : env -> result A) : M A :=
  fun E => (oracle E, [ev]).

Definition emit (ev : event) : M unit := fun _ => (Ok tt, [ev]).

Definition run {A} (m : M A) (E : env) : result A * trace := m E.

Declare Scope py_scope.
Delimit Scope py_scope with py.
Notation "x <- m ;; k" := (bind m (fun x => k))
  (at level 100, m at next level, right associativity) : py_scope.
Notation "m ;;; k" := (bind m (fun _ => k))
  (at level 100, right associativity) : py_scope.
Local Open Scope py_scope.

(** ** The module *)

Definition sys_exit {A} (code : Z) : M A := raise (SystemExit code).

Definition exn_str (e : exn) : string :=
  match e with
  | Exn _ msg => msg
  | SystemExit _ => ""
  end.

Definition exn_type_name (e : exn) : string :=
  match e with
  | Exn c _ => class_name c
  | SystemExit _ => "SystemExit"
  end.

Definition ESC : string := String (ascii_of_nat 27) "".

(** ['\033[31m{}:\033[0m {}'.format(type(err).__name__, err)] *)
Definition error_line (err : exn) : string :=
  ESC +:+ "[31m" +:+ exn_type_name err +:+ ":" +:+ ESC +:+ "[0m " +:+ exn_str err.

Definition print_error (err : exn) : M unit := emit (EvStderr (error_line err)).

Section Color_management.

(** [srgb_profile]: the bytes of ['sRGB Profile.icc'], read once when the
    module is imported. *)
Variable srgb_profile : bytes.

Definition prof_to_prof (image : pil_image) (src_prof dst_prof : bytes)
    (outputMode : string) : M pil_image :=
  call (EvProfileToProfile image src_prof dst_prof outputMode)
       (fun E => profileToProfile E image src_prof dst_prof outputMode).

Definition convert (image : pil_image) (m : string) : M pil_image :=
  call (EvConvert image m) (fun E => Image_convert E image m).

(** The body of the [try] block of [load_image]. *)
Definition load_image_body (path : string) (proof_prof : option string)
    : M pil_image :=
  let dst_prof := srgb_profile in
  image <- call (EvOpen path) (fun E => Image_open E path) ;;
  p <- match info image !! "icc_profile" with
       | Some icc => ret (icc, image)
       | None => image' <- convert image "RGB" ;; ret (srgb_profile, image')
       end ;;
  let '(src_prof, image) := p in
  match proof_prof with
  | None =>
      if decide (src_prof = dst_prof) then convert image "RGB"
      else prof_to_prof image src_prof dst_prof "RGB"
  | Some proof_path =>
      proof_prof <- call (EvReadBytes proof_path)
                         (fun E => read_bytes E proof_path) ;;
      cmyk <- prof_to_prof image src_prof proof_prof "CMYK" ;;
      prof_to_prof cmyk proof_prof dst_prof "RGB"
  end.

Definition load_image (path : string) (proof_prof : option string)
    : M pil_image :=
  try_except (load_image_body path proof_prof) is_OSError
    (fun err => print_error err ;;; sys_exit 1).

End Color_management.

(** ** Python floats

    [get_safe_scale] computes with Python floats, that is IEEE 754 binary64
    numbers.  A float is kept as sign, mantissa and exponent.  Division,
    conversion from an integer and multiplication round their exact
    result, a rational number, to the nearest float, ties to even.  The
    power is another matter: CPython hands it to the C library, whose [pow]
    is not bound to round correctly, so that function is an oracle. *)

Module Float64.

Definition emin : Z := -1074.

Inductive float :=
  | Fin (neg : bool) (m e : Z)    (**r [(-1)^neg * m * 2^e] *)
  | Inf (neg : bool).

Definition pow2 (k : Z) : Q := Qpower 2 k.

(** The magnitude [m * 2^e] as a rational. *)
Definition mag (m e : Z) : Q := (inject_Z m * pow2 e)%Q.

(** [floor (log2 x)] of a positive rational. *)
Definition Qlog2 (x : Q) : Z :=
  let k := Z.log2 (Qnum x) - Z.log2 (Zpos (Qden x)) in
  if Qle_bool (pow2 k) x then k else k - 1.

(** Exponent of the last place of the floats of [x]'s binade; the
    subnormal range shares the exponent [emin]. *)
Definition ulp_exp (x : Q) : Z := Z.max emin (Qlog2 x - 52).

(** Nearest integer, ties to even. *)
Definition rne (x : Q) : Z :=
  let f := Qfloor x in
  match Qcompare (x - inject_Z f) (1 # 2) with
  | Lt => f
  | Gt => f + 1
  | Eq => if Z.even f then f else f + 1
  end.

(** Mantissa and exponent of the float nearest to [x >= 0]. *)
Definition round_mag (x : Q) : Z * Z :=
  if Qle_bool x 0 then (0, emin)
  else
    let e := ulp_exp x in
    let m := rne (x / pow2 e) in
    if m =? 2 ^ 53 then (2 ^ 52, e + 1) else (m, e).

(** The value of the float nearest to [x]. *)
Definition rounded (x : Q) : Q := mag (fst (round_mag x)) (snd (round_mag x)).

(** A rounded magnitude of [2^1024] or more has no finite float. *)
Definition overflows (me : Z * Z) : bool :=
  Qle_bool (pow2 1024) (mag (fst me) (snd me)).

Definition is_neg (z : Z) : bool := z <? 0.

(** [a / b] on Python ints: the correctly rounded quotient. *)
Definition truediv (a b : Z) : result float :=
  if b =? 0 then Raise (Exn ZeroDivisionError "division by zero")
  else
    let me := round_mag (Qabs (inject_Z a / inject_Z b)) in
    if overflows me
    then Raise (Exn OverflowError "integer division result too large for a float")
    else Ok (Fin (xorb (is_neg a) (is_neg b)) (fst me) (snd me)).

(** [float(n)] as done by the arithmetic operators on a mixed pair. *)
Definition of_int (n : Z) : result float :=
  let me := round_mag (inject_Z (Z.abs n)) in
  if overflows me
  then Raise (Exn OverflowError "int too large to convert to float")
  else Ok (Fin (is_neg n) (fst me) (snd me)).

(** The float nearest to the square root of [m * 2^e], for [m > 0]. *)
Definition sqrt_mag (m e : Z) : Z * Z :=
  let lg := (Z.log2 m + e) / 2 in
  let E := lg - 52 in
  let N := m * 2 ^ (e - 2 * E) in
  let q := Z.sqrt N in
  let r := if q <? N - q * q then q + 1 else q in
  if r =? 2 ^ 53 then (2 ^ 52, E + 1) else (r, E).

(** A Python number as [pow] can return it: a float, or a complex number
    (whose value [get_safe_scale] never gets to use). *)
Inductive number :=
  | PyFloat (x : float)
  | PyComplex.

(** The exponent [1/2]: the float 0.5. *)
Definition half : float := Fin false (2 ^ 52) (-53).

Definition one : float := Fin false (2 ^ 52) (-52).

(** The C library's [pow] on doubles.  What it returns is the platform's
    affair: it is an oracle, of which each theorem says what it needs.
    By Annex F of the C standard it returns a number, finite or infinite,
    on a finite positive base. *)
Definition libm := float -> float -> float.

(** [pow(x, 1/2)] as CPython's [float_pow] computes it.  Zero of either
    sign gives [0.0]; a negative base gives a complex number; the base
    [1.0] gives [1.0]; these cases CPython answers itself.  Any other finite
    base goes to the C library, whose infinite result is reported as an
    overflow. *)
Definition pow_half (libm_pow : libm) (x : float) : result number :=
  match x with
  | Fin neg m e =>
      if m =? 0 then Ok (PyFloat (Fin false 0 emin))
      else if neg then Ok PyComplex
      else if Qeq_bool (mag m e) 1 then Ok (PyFloat one)
      else
        match libm_pow x half with
        | Fin neg' m' e' => Ok (PyFloat (Fin neg' m' e'))
        | Inf _ =>
            Raise (Exn OverflowError "(34, 'Numerical result out of range')")
        end
  | Inf _ => Ok (PyFloat (Inf false))
  end.

(** A [pow] that is accurate to one unit in the last place at the exponent
    [1/2], as glibc's is: on a finite double [x > 0] it returns a normal
    double [c], and the square root of [x] lies strictly between the two
    doubles next to [c], [c - 2^e'] and [c + 2^e']. *)
Definition within_one_ulp (libm_pow : libm) : Prop :=
  forall m e, 0 < m < 2 ^ 53 -> emin <= e ->
    exists m' e',
      libm_pow (Fin false m e) half = Fin false m' e' /\
      2 ^ 52 <= m' < 2 ^ 53 /\ emin <= e' /\
      (mag (m' - 1) e' * mag (m' - 1) e' < mag m e)%Q /\
      (mag m e < mag (m' + 1) e' * mag (m' + 1) e')%Q.

(** A [pow] that rounds the square root correctly, for examples; it is
    only ever asked for the exponent [1/2], and does not look at it. *)
Definition pow_rounded : libm :=
  fun x _ =>
    match x with
    | Fin _ m e => let me := sqrt_mag m e in Fin false (fst me) (snd me)
    | Inf _ => Inf false
    end.

(** [x * y] on two floats. *)
Definition mul (x y : float) : float :=
  match x, y with
  | Fin n1 m1 e1, Fin n2 m2 e2 =>
      let me := round_mag (mag m1 e1 * mag m2 e2) in
      if overflows me then Inf (xorb n1 n2)
      else Fin (xorb n1 n2) (fst me) (snd me)
  | Inf n1, Inf n2 => Inf (xorb n1 n2)
  | Inf n1, Fin n2 _ _ => Inf (xorb n1 n2)
  | Fin n1 _ _, Inf n2 => Inf (xorb n1 n2)
  end.

(** [x * n] with [n] a Python int: [n] is converted first. *)
Definition mul_int (x : number) (n : Z) : result number :=
  match of_int n with
  | Raise e => Raise e
  | Ok y =>
      match x with
      | PyFloat x => Ok (PyFloat (mul x y))
      | PyComplex => Ok PyComplex
      end
  end.

(** [int(x)]: truncation towards zero. *)
Definition to_int (x : number) : result Z :=
  match x with
  | PyFloat (Fin neg m e) =>
      let q := Qfloor (mag m e) in
      Ok (if neg then - q else q)
  | PyFloat (Inf _) =>
      Raise (Exn OverflowError "cannot convert float infinity to integer")
  | PyComplex =>
      Raise (Exn TypeError "int() argument must be a string, a bytes-like object or a real number, not 'complex'")
  end.

End Float64.

Section Platform.

Variable libm_pow : Float64.libm.

(** [get_safe_scale(w, h, dim)]:
    [int(pow(w / h if w > h else h / w, 1/2) * dim)]. *)
Definition get_safe_scale (w h dim : Z) : result Z :=
  match (if w >? h then Float64.truediv w h else Float64.truediv h w) with
  | Raise e => Raise e
  | Ok ratio =>
      match Float64.pow_half libm_pow ratio with
      | Raise e => Raise e
      | Ok c =>
          match Float64.mul_int c dim with
          | Raise e => Raise e
          | Ok p => Float64.to_int p
          end
      end
  end.

(** The first factor of [get_safe_scale],
    [pow(w / h if w > h else h / w, 1/2)]. *)
Definition aspect_factor (w h : Z) : result Float64.number :=
  match (if w >? h then Float64.truediv w h else Float64.truediv h w) with
  | Raise e => Raise e
  | Ok ratio => Float64.pow_half libm_pow ratio
  end.

End Platform.

(** The rest of [get_safe_scale]: [int(c * dim)]. *)
Definition scale_by (c : Float64.number) (dim : Z) : result Z :=
  match Float64.mul_int c dim with
  | Raise e => Raise e
  | Ok p => Float64.to_int p
  end.

(** The specification's formula, [floor (sqrt (max(w,h) / min(w,h)) * dim)],
    in exact arithmetic: for positive arguments it is the integer square
    root of [floor (max * dim^2 / min)]. *)
Definition safe_scale_exact (w h dim : Z) : Z :=
  Z.sqrt (Z.max w h * (dim * dim) / Z.min w h).

(** ** Paths *)

(** [str.lower] on the ASCII letters. *)
Definition lower_ascii (c : ascii) : ascii :=
  let n := nat_of_ascii c in
  if ((65 <=? n) && (n <=? 90))%nat then ascii_of_nat (n + 32) else c.

Fixpoint lower (s : string) : string :=
  match s with
  | EmptyString => EmptyString
  | String c r => String (lower_ascii c) (lower r)
  end.

(** A component counts for [Path.name] unless it is empty or a lone dot. *)
Definition keeps (component : string) : bool :=
  negb (String.eqb component "") && negb (String.eqb component ".").

(** [Path(path).name]: the last component that counts; [cur] is the
    component being read, [last] the last complete one. *)
Fixpoint path_name_from (s cur last : string) : string :=
  match s with
  | EmptyString => if keeps cur then cur else last
  | String c r =>
      if Ascii.eqb c "/"
      then path_name_from r "" (if keeps cur then cur else last)
      else path_name_from r (cur +:+ String c "") last
  end.

Definition path_name (path : string) : string := path_name_from path "" "".

(** The part of [s] from its last dot on, if it has a dot. *)
Fixpoint from_last_dot (s : string) : option string :=
  match s with
  | EmptyString => None
  | String c r =>
      match from_last_dot r with
      | Some t => Some t
      | None => if Ascii.eqb c "." then Some s else None
      end
  end.

(** [Path(path).suffix]: with [i = name.rfind('.')], the text [name[i:]]
    when [0 < i < len(name) - 1], and the empty string otherwise. *)
Definition path_suffix (path : string) : string :=
  match path_name path with
  | EmptyString => ""
  | String _ r =>
      match from_last_dot r with
      | Some t => if (1 <? String.length t)%nat then t else ""
      | None => ""
      end
  end.

(** The components of a path that [Path] keeps: the pieces between
    slashes, but for the empty ones and the lone dots. *)
Fixpoint path_parts_from (s cur : string) : list string :=
  match s with
  | EmptyString => if keeps cur then [cur] else []
  | String c r =>
      if Ascii.eqb c "/"
      then (if keeps cur then [cur] else []) ++ path_parts_from r ""
      else path_parts_from r (cur +:+ String c "")
  end.

Definition path_parts (path : string) : list string := path_parts_from path "".

Fixpoint leading_slashes (s : string) : nat :=
  match s with
  | String c r => if Ascii.eqb c "/" then S (leading_slashes r) else O
  | EmptyString => O
  end.

(** The root of a POSIX path: one slash when the path starts with slashes,
    two when it starts with exactly two. *)
Definition path_root (path : string) : string :=
  match leading_slashes path with
  | O => ""
  | 2%nat => "//"
  | _ => "/"
  end.

(** ['/'.join(parts)] *)
Fixpoint join_slash (parts : list string) : string :=
  match parts with
  | [] => ""
  | [p] => p
  | p :: rest => p +:+ "/" +:+ join_slash rest
  end.

(** [str(Path(path))]: the root and the components, joined with single
    slashes; the path with neither is written [.]. *)
Definition path_str (path : string) : string :=
  match path_root path +:+ join_slash (path_parts path) with
  | EmptyString => "."
  | s => s
  end.

Definition jpeg_suffixes : gset string := {[ ".jpg"; ".jpeg" ]}.
Definition tiff_suffixes : gset string := {[ ".tif"; ".tiff" ]}.

(** ** Saving *)

Section Saving.

Variable srgb_profile : bytes.

(** The keyword arguments [save_pil] builds for [image.save]. *)
Definition save_pil_kwargs (path : string) : gmap string kwarg :=
  let kwargs : gmap string kwarg := {[ "icc_profile" := KwBytes srgb_profile ]} in
  if bool_decide (lower (path_suffix path) ∈ jpeg_suffixes) then
    <[ "subsampling" := KwInt 0 ]> (<[ "quality" := KwInt 95 ]> kwargs)
  else if String.eqb (lower (path_suffix path)) ".webp" then
    <[ "quality" := KwInt 95 ]> kwargs
  else kwargs.

Definition save_pil (path : string) (image : pil_image) : M unit :=
  try_except
    (let kwargs := save_pil_kwargs path in
     call (EvImageSave image path kwargs)
          (fun E => Image_save E image path kwargs))
    (fun e => is_OSError e || is_ValueError e)
    (fun err => print_error err ;;; sys_exit 1).

Definition icc_tag : tiff_tag :=
  {| tag_code := "InterColorProfile";
     tag_dtype := BYTE;
     tag_count := length srgb_profile;
     tag_value := srgb_profile;
     tag_writeonce := false |}.

Definition save_tiff (path : string) (image : ndarray) : M unit :=
  let tag := icc_tag in
  try_except
    (call (EvTiffSave path image "rgb" (72, 72) [tag])
          (fun E => TiffWriter_save E path image "rgb" (72, 72) [tag]))
    is_OSError
    (fun err => print_error err ;;; sys_exit 1).

Definition unsupported : exn :=
  Exn ValueError "Unsupported combination of image type and extension".

(** [path = Path(path)] keeps the file and its suffix, and is printed in
    its normal form [str(path)]; the encoders get the path object, which
    the model hands over as the string it was built from. *)
Definition save_image (path : string) (image : image_repr) : M unit :=
  emit (EvTqdmWrite ("Writing image to " +:+ path_str path +:+ ".")) ;;;
  match image with
  | PilImage im => save_pil path im
  | NdArray a =>
      if bool_decide (lower (path_suffix path) ∈ tiff_suffixes)
      then save_tiff path a
      else raise unsupported
  | OtherObject _ => raise unsupported
  end.

End Saving.

(** ** The job *)

Definition cuda0 : device := {| dev_type := "cuda"; dev_index := Some 0%nat |}.
Definition cpu : device := {| dev_type := "cpu"; dev_index := None |}.

(** [set(device.type for device in devices)] *)
Definition device_types (devices : list device) : gset string :=
  list_to_set (dev_type <$> devices).

(** The two checks [stylize] runs on its device list, and the line that
    follows them. *)
Definition validate_devices (devices : list device) : M unit :=
  (if bool_decide (base.size (device_types devices) ≠ 1%nat)
   then emit (EvStdout "Devices must all be the same type.") ;;; sys_exit 1
   else ret tt) ;;;
  (if negb ((1 <=? length devices)%nat && (length devices <=? 2)%nat)
   then emit (EvStdout "Only 1 or 2 devices are supported.") ;;; sys_exit 1
   else ret tt) ;;;
  emit (EvReport (UsingDevices devices)).

(** [for i, device in enumerate(devices)]: the two lines per GPU. *)
Fixpoint report_gpus (i : nat) (devices : list device) : M unit :=
  match devices with
  | [] => ret tt
  | d :: ds =>
      props <- call (EvGetDeviceProperties d)
                    (fun E => get_device_properties E d) ;;
      emit (EvReport (GpuType i (props_name props) (props_major props)
                              (props_minor props))) ;;;
      emit (EvReport (GpuRam i (total_memory props))) ;;;
      report_gpus (S i) ds
  end.

(** [for device in devices: torch.tensor(0).to(device)] *)
Fixpoint touch_devices (devices : list device) : M unit :=
  match devices with
  | [] => ret tt
  | d :: ds =>
      call (EvTensorTo d) (fun E => tensor_to E d) ;;;
      touch_devices ds
  end.

Definition report_devices (devices : list device) : M unit :=
  match devices with
  | [] => raise (Exn IndexError "list index out of range")
  | d0 :: _ =>
      (if String.eqb (dev_type d0) "cpu"
       then n <- (fun E => (Ok (get_num_threads E), [])) ;;
            emit (EvReport (CpuThreads n))
       else ret tt) ;;;
      (if String.eqb (dev_type d0) "cuda"
       then report_gpus 0 devices
       else ret tt)
  end.

(** [int(max(content_img.size[0], content_img.size[1]))] *)
Definition end_scale_of (content_img : pil_image) : Z :=
  Z.max (fst (size content_img)) (snd (size content_img)).

Section Job.

Variable srgb_profile : bytes.

(** [stylize(content_path, styles_path, save_dir)] *)
Definition stylize (content_path styles_path save_dir : string) : M unit :=
  content_img <- load_image srgb_profile content_path None ;;
  style_img <- load_image srgb_profile styles_path None ;;
  let style_imgs := [style_img] in
  let image_type := "pil" in
  available <- (fun E => (Ok (cuda_is_available E), [])) ;;
  let devices := [if available : bool then cuda0 else cpu] in
  validate_devices devices ;;;
  report_devices devices ;;;
  let end_scale := end_scale_of content_img in
  touch_devices devices ;;;
  emit (EvManualSeed 0) ;;;
  emit (EvStdout "Loading model...") ;;;
  call (EvStyleTransferInit devices "max")
       (fun E => StyleTransfer_init E devices "max") ;;;
  try_except
    (call (EvStylize content_img style_imgs end_scale)
          (fun E => st_stylize E content_img style_imgs end_scale))
    is_KeyboardInterrupt
    (fun _ => ret tt) ;;;
  output_image <- call (EvGetImage image_type)
                       (fun E => st_get_image E image_type) ;;
  match output_image with
  | Some im => save_image srgb_profile save_dir im
  | None => ret tt
  end.

(** The last two statements of [stylize]: fetch the result, save it if
    there is one. *)
Definition retrieve_and_save (save_dir : string) : M unit :=
  output_image <- call (EvGetImage "pil") (fun E => st_get_image E "pil") ;;
  match output_image with
  | Some im => save_image srgb_profile save_dir im
  | None => ret tt
  end.

(** The device [stylize] selects. *)
Definition selected_device (E : env) : device :=
  if cuda_is_available E then cuda0 else cpu.

(** The job gets as far as calling [st.stylize]: both images load, the
    device report goes through, and torch and the model initialise. *)
Definition reaches_stylize (E : env) (content_path styles_path : string)
    (content_img style_img : pil_image) : Prop :=
  fst (run (load_image srgb_profile content_path None) E) = Ok content_img /\
  fst (run (load_image srgb_profile styles_path None) E) = Ok style_img /\
  fst (run (report_devices [selected_device E]) E) = Ok tt /\
  tensor_to E (selected_device E) = Ok tt /\
  StyleTransfer_init E [selected_device E] "max" = Ok tt.

End Job.

(** The pairs [save_image] has no branch for. *)
Definition unsupported_combination (path : string) (image : image_repr) : Prop :=
  match image with
  | PilImage _ => False
  | NdArray _ => lower (path_suffix path) ∉ tiff_suffixes
  | OtherObject _ => True
  end.

(** [s] starts with [p]. *)
Fixpoint starts_with (p s : string) : bool :=
  match p, s with
  | EmptyString, _ => true
  | String a p', String b s' => Ascii.eqb a b && starts_with p' s'
  | String _ _, EmptyString => false
  end.

(** [needle in s] *)
Fixpoint contains (needle s : string) : bool :=
  starts_with needle s ||
  match s with
  | EmptyString => false
  | String _ s' => contains needle s'
  end.

(** ** Reading a log *)

(** The profile conversions of a log, in order. *)
Definition conversions (t : trace) : list (pil_image * bytes * bytes * string) :=
  omap (fun ev => match ev with
                  | EvProfileToProfile im s d m => Some (im, s, d, m)
                  | _ => None
                  end) t.

(** The lines written to the error stream. *)
Definition stderr_lines (t : trace) : list string :=
  omap (fun ev => match ev with EvStderr l => Some l | _ => None end) t.

(** The calls of [save_image]: each call announces itself once, first
    thing, with [tqdm.write]. *)
Definition save_calls (t : trace) : list string :=
  omap (fun ev => match ev with EvTqdmWrite l => Some l | _ => None end) t.

(** What was handed to an encoder. *)
Inductive written :=
  | ByPillow (im : pil_image) (path : string) (kwargs : gmap string kwarg)
  | ByTiffWriter (path : string) (a : ndarray) (photometric : string)
      (resolution : Z * Z) (extratags : list tiff_tag).

Definition writes (t : trace) : list written :=
  omap (fun ev => match ev with
                  | EvImageSave im p kw => Some (ByPillow im p kw)
                  | EvTiffSave p a ph res tags => Some (ByTiffWriter p a ph res tags)
                  | _ => None
                  end) t.

(** The calls of [st.stylize]. *)
Definition stylize_calls (t : trace) : list (pil_image * list pil_image * Z) :=
  omap (fun ev => match ev with
                  | EvStylize c s n => Some (c, s, n)
                  | _ => None
                  end) t.

(** A log with no save, no write and no call of the stylizer. *)
Definition quiet (t : trace) : Prop :=
  save_calls t = [] /\ writes t = [] /\ stylize_calls t = [].

(** ** Assumptions on Pillow *)

(** A successful [convert] or [profileToProfile] returns an image of the
    mode it was asked for. *)
Definition respects_modes (E : env) : Prop :=
  (forall im m r, Image_convert E im m = Ok r -> mode r = m) /\
  (forall im s d m r, profileToProfile E im s d m = Ok r -> mode r = m).

(** Neither of the two ever raises. *)
Definition pillow_succeeds (E : env) : Prop :=
  (forall im m, exists r, Image_convert E im m = Ok r) /\
  (forall im s d m, exists r, profileToProfile E im s d m = Ok r).

Section Loading.

Variable srgb_profile : bytes.

(** The source profile and the image that enter the conversions: the
    embedded profile with the image as opened, or the canonical profile
    with the image coerced to RGB. *)
Definition source_of (E : env) (img : pil_image) : result (bytes * pil_image) :=
  match info img !! "icc_profile" with
  | Some icc => Ok (icc, img)
  | None =>
      match Image_convert E img "RGB" with
      | Ok rgb => Ok (srgb_profile, rgb)
      | Raise e => Raise e
      end
  end.

(** The conversions a load without proofing is to make. *)
Definition expected_conversions (img : pil_image)
    : list (pil_image * bytes * bytes * string) :=
  match info img !! "icc_profile" with
  | Some icc =>
      if decide (icc = srgb_profile) then []
      else [(img, icc, srgb_profile, "RGB")]
  | None => []
  end.

(** The file carries an embedded profile that is not, byte for byte, the
    canonical one. *)
Definition has_foreign_profile (img : pil_image) : bool :=
  match info img !! "icc_profile" with
  | Some icc => bool_decide (icc <> srgb_profile)
  | None => false
  end.

(** The calls made before the profile decision: opening, and coercing an
    untagged image. *)
Definition opening (path : string) (img : pil_image) : trace :=
  EvOpen path ::
  match info img !! "icc_profile" with
  | Some _ => []
  | None => [EvConvert img "RGB"]
  end.

(** Some step of [load_image path proof_prof] raises [e]. *)
Inductive step_fails (E : env) (path : string) (proof_prof : option string)
    : exn -> Prop :=
  | open_fails e :
      Image_open E path = Raise e ->
      step_fails E path proof_prof e
  | coercion_fails img e :
      Image_open E path = Ok img ->
      source_of E img = Raise e ->
      step_fails E path proof_prof e
  | final_coercion_fails img im e :
      Image_open E path = Ok img ->
      source_of E img = Ok (srgb_profile, im) ->
      proof_prof = None ->
      Image_convert E im "RGB" = Raise e ->
      step_fails E path proof_prof e
  | conversion_fails img src im e :
      Image_open E path = Ok img ->
      source_of E img = Ok (src, im) ->
      proof_prof = None ->
      src <> srgb_profile ->
      profileToProfile E im src srgb_profile "RGB" = Raise e ->
      step_fails E path proof_prof e
  | proof_read_fails img src im proof_path e :
      Image_open E path = Ok img ->
      source_of E img = Ok (src, im) ->
      proof_prof = Some proof_path ->
      read_bytes E proof_path = Raise e ->
      step_fails E path proof_prof e
  | to_proof_fails img src im proof_path proof e :
      Image_open E path = Ok img ->
      source_of E img = Ok (src, im) ->
      proof_prof = Some proof_path ->
      read_bytes E proof_path = Ok proof ->
      profileToProfile E im src proof "CMYK" = Raise e ->
      step_fails E path proof_prof e
  | from_proof_fails img src im proof_path proof cmyk e :
      Image_open E path = Ok img ->
      source_of E img = Ok (src, im) ->
      proof_prof = Some proof_path ->
      read_bytes E proof_path = Ok proof ->
      profileToProfile E im src proof "CMYK" = Ok cmyk ->
      profileToProfile E cmyk proof srgb_profile "RGB" = Raise e ->
      step_fails E path proof_prof e.

End Loading.

(** Read literally, every error aborts the job: whatever exception a step raises,
    [load_image] prints it and exits with status 1. *)
Definition aborts_on_every_error (srgb_profile : bytes) : Prop :=
  forall E path proof_prof e,
    step_fails srgb_profile E path proof_prof e ->
    exists t,
      run (load_image srgb_profile path proof_prof) E =
      (Raise (SystemExit 1), t ++ [EvStderr (error_line e)]).

(** ** A small world for examples *)

Module Example.

Definition srgb : bytes := [x73; x52; x47; x42].
Definition adobe : bytes := [x41; x64; x6f; x62; x65].
Definition fogra : bytes := [x46; x4f; x47; x52; x41].

Definition image (m : string) (w h : Z) (icc : option bytes) : pil_image :=
  {| mode := m; size := (w, h); pixels := [10; 20; 30];
     info := match icc with
             | Some p => {[ "icc_profile" := p ]}
             | None => ∅
             end |}.

Definition with_mode (m : string) (im : pil_image) : pil_image :=
  {| mode := m; size := size im; pixels := pixels im; info := info im |}.

Definition files (path : string) : result pil_image :=
  if String.eqb path "tagged.jpg" then Ok (image "RGB" 2000 1000 (Some srgb))
  else if String.eqb path "adobe.jpg" then Ok (image "RGB" 640 480 (Some adobe))
  else if String.eqb path "plain.png" then Ok (image "RGBA" 300 300 None)
  else if String.eqb path "style.jpg" then Ok (image "RGB" 512 512 (Some srgb))
  else Raise (Exn FileNotFoundError ("No such file: " +:+ path)).

Definition profiles (path : string) : result bytes :=
  if String.eqb path "fogra39.icc" then Ok fogra
  else Raise (Exn FileNotFoundError ("No such file: " +:+ path)).

Definition out : pil_image := image "RGB" 2000 1000 None.

(** Everything works; [interrupt] makes [st.stylize] end with
    [KeyboardInterrupt], [produced] is what [st.get_image] returns. *)
Definition world (interrupt : bool) (produced : option image_repr) : env :=
  {| Image_open := files;
     Image_convert := fun im m => Ok (with_mode m im);
     profileToProfile := fun im _ _ m => Ok (with_mode m im);
     read_bytes := profiles;
     Image_save := fun _ _ _ => Ok tt;
     TiffWriter_save := fun _ _ _ _ _ => Ok tt;
     cuda_is_available := false;
     get_num_threads := 8;
     get_device_properties := fun _ =>
       Ok {| props_name := "gpu"; props_major := 8; props_minor := 6;
             total_memory := 2 ^ 34 |};
     tensor_to := fun _ => Ok tt;
     StyleTransfer_init := fun _ _ => Ok tt;
     st_stylize := fun _ _ _ =>
       if interrupt then Raise (Exn KeyboardInterrupt "") else Ok tt;
     st_get_image := fun _ => Ok produced |}.

(** The same world with a colour engine that rejects every transform,
    the way [ImageCms] reports it. *)
Definition cms_error : exn := Exn PyCMSError "cannot build transform".

Definition broken_cms : env :=
  {| Image_open := files;
     Image_convert := fun im m => Ok (with_mode m im);
     profileToProfile := fun _ _ _ _ => Raise cms_error;
     read_bytes := profiles;
     Image_save := fun _ _ _ => Ok tt;
     TiffWriter_save := fun _ _ _ _ _ => Ok tt;
     cuda_is_available := false;
     get_num_threads := 8;
     get_device_properties := fun _ => Raise (Exn RuntimeError "no gpu");
     tensor_to := fun _ => Ok tt;
     StyleTransfer_init := fun _ _ => Ok tt;
     st_stylize := fun _ _ _ => Ok tt;
     st_get_image := fun _ => Ok None |}.

End Example.

(** ** The batch *)

(** [os.path.join(a, b)] on POSIX paths. *)
Fixpoint ends_with_slash (s : string) : bool :=
  match s with
  | EmptyString => false
  | String c EmptyString => Ascii.eqb c "/"
  | String _ r => ends_with_slash r
  end.

Definition path_join (a b : string) : string :=
  if starts_with "/" b then b
  else if String.eqb a "" || ends_with_slash a then a +:+ b
  else a +:+ "/" +:+ b.

(** [s] has no slash, as the names [os.listdir] returns. *)
Fixpoint slash_free (s : string) : bool :=
  match s with
  | EmptyString => true
  | String c r => negb (Ascii.eqb c "/") && slash_free r
  end.

(** [for x in xs: body(x)] *)
Fixpoint for_each {A} (xs : list A) (body : A -> M unit) : M unit :=
  match xs with
  | [] => ret tt
  | x :: rest => body x ;;; for_each rest body
  end.

(** The log of the turns of a loop over [xs], each run to its end. *)
Definition turns {A} (body : A -> M unit) (E : env) (xs : list A) : trace :=
  flat_map (fun x => snd (run (body x) E)) xs.

Section Batch.

Variable srgb_profile : bytes.

Definition content_path : string := "/home/zjlab/xzz/datasets/Camera1".
Definition style_path : string := "/home/zjlab/xzz/datasets/style/vangoh.jpeg".
Definition save_dir : string := "/home/zjlab/xzz/datasets/Camera1_style".

(** One turn of the loop of the script, for the directory entry [i]. *)
Definition batch_item (i : string) : M unit :=
  let content_img := path_join content_path i in
  stylize srgb_profile content_img style_path (path_join save_dir i).

(** The loop of the script over the entries [os.listdir(content_path)]
    returned. *)
Definition batch (names : list string) : M unit :=
  for_each names batch_item.

(** The script: [listing] is the outcome of [os.listdir(content_path)]. *)
Definition main (listing : result (list string)) : M unit :=
  match listing with
  | Raise e => raise e
  | Ok names => batch names
  end.

End Batch.

(** ** Reading a log, continued *)

(** The fixed lines printed on the standard output; the informational
    lines are the [EvReport] entries. *)
Definition stdout_lines (t : trace) : list string :=
  omap (fun ev => match ev with EvStdout l => Some l | _ => None end) t.

(** The files opened as images, in order. *)
Definition opened (t : trace) : list string :=
  omap (fun ev => match ev with EvOpen p => Some p | _ => None end) t.

(** The calls of [st.get_image]. *)
Definition fetches (t : trace) : list string :=
  omap (fun ev => match ev with EvGetImage k => Some k | _ => None end) t.

(** Whatever the world, every entry of the log of [m] satisfies [P]. *)
Definition logs_only {A} (P : event -> Prop) (m : M A) : Prop :=
  forall E, Forall P (snd (run m E)).

(** An entry that, if it is a line on the standard output, is one of the
    [allowed] lines. *)
Definition prints_only (allowed : list string) (ev : event) : Prop :=
  forall l, ev = EvStdout l -> l ∈ allowed.

(** An entry that opens no image file. *)
Definition opens_nothing (ev : event) : Prop :=
  forall p, ev <> EvOpen p.

Section Job_parts.

Variable srgb_profile : bytes.

(** [stylize] from the device selection on, the two images loaded. *)
Definition stylize_loaded (content_img style_img : pil_image)
    (save_dir : string) : M unit :=
  let style_imgs := [style_img] in
  let image_type := "pil" in
  available <- (fun E => (Ok (cuda_is_available E), [])) ;;
  let devices := [if available : bool then cuda0 else cpu] in
  validate_devices devices ;;;
  report_devices devices ;;;
  let end_scale := end_scale_of content_img in
  touch_devices devices ;;;
  emit (EvManualSeed 0) ;;;
  emit (EvStdout "Loading model...") ;;;
  call (EvStyleTransferInit devices "max")
       (fun E => StyleTransfer_init E devices "max") ;;;
  try_except
    (call (EvStylize content_img style_imgs end_scale)
          (fun E => st_stylize E content_img style_imgs end_scale))
    is_KeyboardInterrupt
    (fun _ => ret tt) ;;;
  output_image <- call (EvGetImage image_type)
                       (fun E => st_get_image E image_type) ;;
  match output_image with
  | Some im => save_image srgb_profile save_dir im
  | None => ret tt
  end.

End Job_parts.

(** The log of the job between the loads and the call of the stylizer. *)
Definition setup_log (E : env) : trace :=
  EvReport (UsingDevices [selected_device E])
  :: snd (run (report_devices [selected_device E]) E)
  ++ [EvTensorTo (selected_device E); EvManualSeed 0;
      EvStdout "Loading model...";
      EvStyleTransferInit [selected_device E] "max"].

(** ** More worlds for examples *)

Module Worlds.

(** Every write fails with [e]. *)
Definition full_disk (e : exn) : env :=
  {| Image_open := Example.files;
     Image_convert := fun im m => Ok (Example.with_mode m im);
     profileToProfile := fun im _ _ m => Ok (Example.with_mode m im);
     read_bytes := Example.profiles;
     Image_save := fun _ _ _ => Raise e;
     TiffWriter_save := fun _ _ _ _ _ => Raise e;
     cuda_is_available := true;
     get_num_threads := 8;
     get_device_properties := fun _ =>
       Ok {| props_name := "gpu"; props_major := 8; props_minor := 6;
             total_memory := 2 ^ 34 |};
     tensor_to := fun _ => Ok tt;
     StyleTransfer_init := fun _ _ => Ok tt;
     st_stylize := fun _ _ _ => Ok tt;
     st_get_image := fun _ => Ok (Some (PilImage Example.out)) |}.

(** The stylizer ends with [e]. *)
Definition failing_stylizer (e : exn) : env :=
  {| Image_open := Example.files;
     Image_convert := fun im m => Ok (Example.with_mode m im);
     profileToProfile := fun im _ _ m => Ok (Example.with_mode m im);
     read_bytes := Example.profiles;
     Image_save := fun _ _ _ => Ok tt;
     TiffWriter_save := fun _ _ _ _ _ => Ok tt;
     cuda_is_available := false;
     get_num_threads := 8;
     get_device_properties := fun _ => Raise (Exn RuntimeError "no gpu");
     tensor_to := fun _ => Ok tt;
     StyleTransfer_init := fun _ _ => Ok tt;
     st_stylize := fun _ _ _ => Raise e;
     st_get_image := fun _ => Ok (Some (PilImage Example.out)) |}.

(** Every path holds an image, and everything works. *)
Definition studio : env :=
  {| Image_open := fun _ => Ok (Example.image "RGB" 640 480 (Some Example.srgb));
     Image_convert := fun im m => Ok (Example.with_mode m im);
     profileToProfile := fun im _ _ m => Ok (Example.with_mode m im);
     read_bytes := Example.profiles;
     Image_save := fun _ _ _ => Ok tt;
     TiffWriter_save := fun _ _ _ _ _ => Ok tt;
     cuda_is_available := false;
     get_num_threads := 8;
     get_device_properties := fun _ => Raise (Exn RuntimeError "no gpu");
     tensor_to := fun _ => Ok tt;
     StyleTransfer_init := fun _ _ => Ok tt;
     st_stylize := fun _ _ _ => Ok tt;
     st_get_image := fun _ => Ok (Some (PilImage Example.out)) |}.

(** The same, but for one file that cannot be read. *)
Definition unreadable (bad : string) : env :=
  {| Image_open := fun p =>
       if String.eqb p bad
       then Raise (Exn PermissionError ("Permission denied: " +:+ p))
       else Ok (Example.image "RGB" 640 480 (Some Example.srgb));
     Image_convert := fun im m => Ok (Example.with_mode m im);
     profileToProfile := fun im _ _ m => Ok (Example.with_mode m im);
     read_bytes := Example.profiles;
     Image_save := fun _ _ _ => Ok tt;
     TiffWriter_save := fun _ _ _ _ _ => Ok tt;
     cuda_is_available := false;
     get_num_threads := 8;
     get_device_properties := fun _ => Raise (Exn RuntimeError "no gpu");
     tensor_to := fun _ => Ok tt;
     StyleTransfer_init := fun _ _ => Ok tt;
     st_stylize := fun _ _ _ => Ok tt;
     st_get_image := fun _ => Ok (Some (PilImage Example.out)) |}.

(** The stylizer is interrupted with a result at hand, and every write
    fails with [e]. *)
Definition interrupted_full_disk (e : exn) : env :=
  {| Image_open := Example.files;
     Image_convert := fun im m => Ok (Example.with_mode m im);
     profileToProfile := fun im _ _ m => Ok (Example.with_mode m im);
     read_bytes := Example.profiles;
     Image_save := fun _ _ _ => Raise e;
     TiffWriter_save := fun _ _ _ _ _ => Raise e;
     cuda_is_available := false;
     get_num_threads := 8;
     get_device_properties := fun _ => Raise (Exn RuntimeError "no gpu");
     tensor_to := fun _ => Ok tt;
     StyleTransfer_init := fun _ _ => Ok tt;
     st_stylize := fun _ _ _ => Raise (Exn KeyboardInterrupt "");
     st_get_image := fun _ => Ok (Some (PilImage Example.out)) |}.

Definition array : ndarray := {| shape := [1; 1; 3]; data := [0; 0; 0] |}.

Definition disk_full : exn := Exn OSError "No space left on device".

End Worlds.

(** * Properties *)

(** ** Running computations *)

Lemma run_try_ok {A} (body : M A) catches handler E a t :
  run body E = (Ok a, t) ->
  run (try_except body catches handler) E = (Ok a, t).
Proof.
  unfold run, try_except. by intros ->.
Qed.

(** ** Loading *)

Section Loading_properties.

Variable srgb_profile : bytes.

(** [load_image_body], call by call. *)
Lemma load_image_body_run E path proof_prof :
  run (load_image_body srgb_profile path proof_prof) E =
  match Image_open E path with
  | Raise e => (Raise e, [EvOpen path])
  | Ok img =>
      match source_of srgb_profile E img with
      | Raise e => (Raise e, opening path img)
      | Ok (src, im) =>
          match proof_prof with
          | None =>
              if decide (src = srgb_profile)
              then (Image_convert E im "RGB",
                    opening path img ++ [EvConvert im "RGB"])
              else (profileToProfile E im src srgb_profile "RGB",
                    opening path img
                    ++ [EvProfileToProfile im src srgb_profile "RGB"])
          | Some p =>
              match read_bytes E p with
              | Raise e => (Raise e, opening path img ++ [EvReadBytes p])
              | Ok proof =>
                  match profileToProfile E im src proof "CMYK" with
                  | Raise e =>
                      (Raise e,
                       opening path img
                       ++ [EvReadBytes p; EvProfileToProfile im src proof "CMYK"])
                  | Ok cmyk =>
                      (profileToProfile E cmyk proof srgb_profile "RGB",
                       opening path img
                       ++ [EvReadBytes p;
                           EvProfileToProfile im src proof "CMYK";
                           EvProfileToProfile cmyk proof srgb_profile "RGB"])
                  end
              end
          end
      end
  end.
Proof.
  unfold run, load_image_body, source_of, opening, bind, call, convert,
    prof_to_prof, ret.
  destruct (Image_open E path) as [img|e]; [|done].
  destruct (info img !! "icc_profile") as [icc|]; simpl.
  - destruct proof_prof as [p|].
    + destruct (read_bytes E p) as [proof|e]; [|done].
      destruct (profileToProfile E img icc proof "CMYK") as [cmyk|e]; [|done].
      by destruct (profileToProfile E cmyk proof srgb_profile "RGB").
    + by destruct (decide (icc = srgb_profile)).
  - destruct (Image_convert E img "RGB") as [rgb|e]; [|done]. simpl.
    destruct proof_prof as [p|].
    + destruct (read_bytes E p) as [proof|e]; [|done].
      destruct (profileToProfile E rgb srgb_profile proof "CMYK")
        as [cmyk|e]; [|done].
      by destruct (profileToProfile E cmyk proof srgb_profile "RGB").
    + by destruct (decide (srgb_profile = srgb_profile)).
Qed.

Lemma stderr_lines_app t1 t2 :
  stderr_lines (t1 ++ t2) = stderr_lines t1 ++ stderr_lines t2.
Proof. apply omap_app. Qed.

Lemma stderr_lines_opening path img : stderr_lines (opening path img) = [].
Proof. unfold opening. by destruct (info img !! "icc_profile"). Qed.

(** A load that returns is a body that returns. *)
Lemma load_image_ok E path proof_prof r t :
  run (load_image srgb_profile path proof_prof) E = (Ok r, t) ->
  run (load_image_body srgb_profile path proof_prof) E = (Ok r, t).
Proof.
  unfold load_image, run, try_except.
  destruct (load_image_body srgb_profile path proof_prof E) as [[a|e] t1];
    [done|].
  destruct (is_OSError e); [|done].
  unfold bind, print_error, emit, sys_exit, raise; simpl. done.
Qed.

(** How an exception of the body leaves [load_image]. *)
Lemma load_image_raise E path proof_prof e t :
  run (load_image_body srgb_profile path proof_prof) E = (Raise e, t) ->
  run (load_image srgb_profile path proof_prof) E =
  if is_OSError e
  then (Raise (SystemExit 1), t ++ [EvStderr (error_line e)])
  else (Raise e, t).
Proof.
  unfold load_image, run, try_except. intros ->.
  by destruct (is_OSError e).
Qed.

(** C1. Loading without a proofing profile, from a file that opens, with
    a Pillow that honours the requested mode: if Pillow's calls succeed
    the load returns; and whenever it returns, the image is in RGB mode
    and [profileToProfile] was called exactly once (source to canonical,
    output mode RGB) when the embedded profile differs from the canonical
    bytes, and not at all otherwise: with an identical embedded profile
    the result is the opened image coerced to RGB, and with no embedded
    profile it is the image coerced to RGB, taken as canonical. *)
Theorem load_image_without_proofing E path img :
  Image_open E path = Ok img ->
  respects_modes E ->
  (pillow_succeeds E ->
   exists r t, run (load_image srgb_profile path None) E = (Ok r, t)) /\
  (forall r t,
     run (load_image srgb_profile path None) E = (Ok r, t) ->
     mode r = "RGB" /\
     conversions t = expected_conversions srgb_profile img /\
     length (conversions t) =
       (if has_foreign_profile srgb_profile img then 1 else 0)%nat /\
     match info img !! "icc_profile" with
     | Some icc =>
         if decide (icc = srgb_profile)
         then Image_convert E img "RGB" = Ok r
         else profileToProfile E img icc srgb_profile "RGB" = Ok r
     | None =>
         exists rgb, Image_convert E img "RGB" = Ok rgb /\
                     Image_convert E rgb "RGB" = Ok r
     end).
Proof.
  intros Hopen [Hconv Hp2p]. split.
  - intros [Hc Hp]. unfold load_image.
    pose proof (load_image_body_run E path None) as Hrun.
    rewrite Hopen in Hrun. unfold source_of in Hrun.
    destruct (info img !! "icc_profile") as [icc|].
    + destruct (decide (icc = srgb_profile)).
      * destruct (Hc img "RGB") as [r Hr]. rewrite Hr in Hrun.
        eexists _, _. by apply run_try_ok.
      * destruct (Hp img icc srgb_profile "RGB") as [r Hr].
        rewrite Hr in Hrun. eexists _, _. by apply run_try_ok.
    + destruct (Hc img "RGB") as [rgb Hrgb]. rewrite Hrgb in Hrun.
      destruct (decide (srgb_profile = srgb_profile)); [|done].
      destruct (Hc rgb "RGB") as [r Hr]. rewrite Hr in Hrun.
      eexists _, _. by apply run_try_ok.
  - intros r t Hrun. apply load_image_ok in Hrun.
    rewrite load_image_body_run, Hopen in Hrun.
    unfold source_of, expected_conversions, has_foreign_profile, opening in *.
    destruct (info img !! "icc_profile") as [icc|] eqn:Hicc.
    + destruct (decide (icc = srgb_profile)) as [->|Hne].
      * injection Hrun as Hr <-. repeat split; eauto.
        by rewrite bool_decide_eq_false_2; [|intros ?].
      * injection Hrun as Hr <-. repeat split; eauto.
        by rewrite bool_decide_eq_true_2.
    + destruct (Image_convert E img "RGB") as [rgb|e] eqn:Hrgb; [|done].
      destruct (decide (srgb_profile = srgb_profile)); [|done].
      injection Hrun as Hr <-. repeat split; eauto.
Qed.

(** C2. Loading with a proofing profile, from a file that opens and a
    profile file that reads: if Pillow's calls succeed the load returns;
    and whenever it returns, [profileToProfile] was called exactly twice,
    first from the source profile to the proofing profile with output
    mode CMYK, then from the proofing profile to the canonical profile
    with output mode RGB, whatever the source profile is (the canonical
    one included). *)
Theorem load_image_with_proofing E path proof_path img proof :
  Image_open E path = Ok img ->
  read_bytes E proof_path = Ok proof ->
  (pillow_succeeds E ->
   exists r t,
     run (load_image srgb_profile path (Some proof_path)) E = (Ok r, t)) /\
  (forall r t,
     run (load_image srgb_profile path (Some proof_path)) E = (Ok r, t) ->
     exists src im cmyk,
       source_of srgb_profile E img = Ok (src, im) /\
       conversions t = [(im, src, proof, "CMYK");
                        (cmyk, proof, srgb_profile, "RGB")] /\
       length (conversions t) = 2%nat /\
       profileToProfile E im src proof "CMYK" = Ok cmyk /\
       profileToProfile E cmyk proof srgb_profile "RGB" = Ok r).
Proof.
  intros Hopen Hread.
  pose proof (load_image_body_run E path (Some proof_path)) as Hbody.
  rewrite Hopen, Hread in Hbody. split.
  - intros [Hc Hp]. unfold source_of in Hbody.
    assert (exists src im, match info img !! "icc_profile" with
                           | Some icc => Ok (icc, img)
                           | None =>
                               match Image_convert E img "RGB" with
                               | Ok rgb => Ok (srgb_profile, rgb)
                               | Raise e => Raise e
                               end
                           end = Ok (src, im)) as (src & im & Hsrc).
    { destruct (info img !! "icc_profile"); [eauto|].
      destruct (Hc img "RGB") as [rgb ->]. eauto. }
    rewrite Hsrc in Hbody.
    destruct (Hp im src proof "CMYK") as [cmyk Hcmyk].
    rewrite Hcmyk in Hbody.
    destruct (Hp cmyk proof srgb_profile "RGB") as [r Hr].
    rewrite Hr in Hbody. eexists _, _. by apply run_try_ok.
  - intros r t Hrun. apply load_image_ok in Hrun.
    rewrite Hbody in Hrun.
    destruct (source_of srgb_profile E img) as [[src im]|e]; [|done].
    destruct (profileToProfile E im src proof "CMYK") as [cmyk|e] eqn:Hcmyk;
      [|done].
    injection Hrun as Hr <-. exists src, im, cmyk.
    unfold opening. by destruct (info img !! "icc_profile").
Qed.

(** Exhibit the log of the goal and check that it is silent. *)
Ltac quiet_log :=
  eexists; split; [|reflexivity];
  rewrite ?stderr_lines_app, ?stderr_lines_opening; reflexivity.

(** Whatever step fails, the body ends with that exception, having
    written nothing to the error stream. *)
Lemma step_fails_body E path proof_prof e :
  step_fails srgb_profile E path proof_prof e ->
  exists t, stderr_lines t = [] /\
    run (load_image_body srgb_profile path proof_prof) E = (Raise e, t).
Proof.
  intros Hfail. rewrite load_image_body_run.
  destruct Hfail as [e Ho|img e Ho Hs|img im e Ho Hs -> Hc
    |img src im e Ho Hs -> Hne Hp|img src im p e Ho Hs -> Hr
    |img src im p proof e Ho Hs -> Hr Hp
    |img src im p proof cmyk e Ho Hs -> Hr Hp Hq]; rewrite Ho, ?Hs.
  - quiet_log.
  - quiet_log.
  - destruct (decide (srgb_profile = srgb_profile)); [|done]. rewrite Hc.
    quiet_log.
  - destruct (decide (src = srgb_profile)); [done|]. rewrite Hp. quiet_log.
  - rewrite Hr. quiet_log.
  - rewrite Hr, Hp. quiet_log.
  - rewrite Hr, Hp, Hq. quiet_log.
Qed.

(** C3, as the code has it. When a step of [load_image] (opening or
    decoding the file, coercing it to RGB, reading the proofing profile,
    a conversion) raises an [OSError] or one of its subclasses, the error
    is printed on the error stream, its class name highlighted, as the
    only line written there, and the process exits with status 1.  An
    exception of any other class is not handled by [load_image]: it
    leaves the function as raised and nothing is printed. *)
Theorem load_image_aborts_on_OSError E path proof_prof e :
  step_fails srgb_profile E path proof_prof e ->
  exists t, stderr_lines t = [] /\
    run (load_image srgb_profile path proof_prof) E =
    if is_OSError e
    then (Raise (SystemExit 1),
          t ++ [EvStderr (ESC +:+ "[31m" +:+ exn_type_name e +:+ ":"
                          +:+ ESC +:+ "[0m " +:+ exn_str e)])
    else (Raise e, t).
Proof.
  intros Hfail. destruct (step_fails_body _ _ _ _ Hfail) as (t & Hq & Hrun).
  exists t. split; [done|]. by apply load_image_raise.
Qed.

End Loading_properties.

(** A file tagged with the canonical profile, one tagged with another
    profile and an untagged one, loaded in a world where Pillow works. *)
Lemma load_image_without_proofing_witness :
  let E := Example.world false None in
  (exists r t, run (load_image Example.srgb "tagged.jpg" None) E = (Ok r, t)) /\
  (exists r t, run (load_image Example.srgb "adobe.jpg" None) E = (Ok r, t)) /\
  (exists r t, run (load_image Example.srgb "plain.png" None) E = (Ok r, t)).
Proof.
  assert (respects_modes (Example.world false None)) as Hm.
  { split; simpl; intros; by simplify_eq. }
  assert (pillow_succeeds (Example.world false None)) as Hs.
  { split; simpl; eauto. }
  repeat split.
  - apply (load_image_without_proofing Example.srgb (Example.world false None)
             "tagged.jpg" (Example.image "RGB" 2000 1000 (Some Example.srgb)));
      [reflexivity|exact Hm|exact Hs].
  - apply (load_image_without_proofing Example.srgb (Example.world false None)
             "adobe.jpg" (Example.image "RGB" 640 480 (Some Example.adobe)));
      [reflexivity|exact Hm|exact Hs].
  - apply (load_image_without_proofing Example.srgb (Example.world false None)
             "plain.png" (Example.image "RGBA" 300 300 None));
      [reflexivity|exact Hm|exact Hs].
Defined.

(** The canonically tagged file, soft-proofed. *)
Lemma load_image_with_proofing_witness :
  exists r t,
    run (load_image Example.srgb "tagged.jpg" (Some "fogra39.icc"))
        (Example.world false None) = (Ok r, t).
Proof.
  apply (load_image_with_proofing Example.srgb (Example.world false None)
           "tagged.jpg" "fogra39.icc"
           (Example.image "RGB" 2000 1000 (Some Example.srgb)) Example.fogra);
    [reflexivity|reflexivity|].
  split; simpl; eauto.
Defined.

(** A missing file: [FileNotFoundError] is printed and the process exits. *)
Lemma load_image_aborts_on_OSError_witness :
  exists t, stderr_lines t = [] /\
    run (load_image Example.srgb "missing.jpg" None) (Example.world false None)
    = (Raise (SystemExit 1),
       t ++ [EvStderr (error_line
               (Exn FileNotFoundError "No such file: missing.jpg"))]).
Proof.
  apply (load_image_aborts_on_OSError Example.srgb (Example.world false None)
           "missing.jpg" None
           (Exn FileNotFoundError "No such file: missing.jpg")).
  apply open_fails. reflexivity.
Defined.

(** C3 fails as stated: when the colour engine rejects the transform of a
    file tagged with a foreign profile, the [PyCMSError] leaves
    [load_image] as raised; nothing is printed and there is no exit. *)
Lemma conversion_error_escapes_load_image :
  step_fails Example.srgb Example.broken_cms "adobe.jpg" None Example.cms_error /\
  run (load_image Example.srgb "adobe.jpg" None) Example.broken_cms
  = (Raise (Exn PyCMSError "cannot build transform"),
     [EvOpen "adobe.jpg";
      EvProfileToProfile (Example.image "RGB" 640 480 (Some Example.adobe))
        Example.adobe Example.srgb "RGB"]) /\
  ~ aborts_on_every_error Example.srgb.
Proof.
  assert (step_fails Example.srgb Example.broken_cms "adobe.jpg" None
            Example.cms_error) as Hfail.
  { eapply conversion_fails with (src := Example.adobe); try reflexivity.
    by intros [=]. }
  split; [exact Hfail|]. split; [by vm_compute|].
  intros Hclaim. destruct (Hclaim _ _ _ _ Hfail) as [t Ht].
  vm_compute in Ht. by injection Ht.
Qed.

(** ** Saving *)

Section Saving_properties.

Variable srgb_profile : bytes.

Lemma elem_of_jpeg_suffixes (s : string) :
  s ∈ jpeg_suffixes <-> s = ".jpg" \/ s = ".jpeg".
Proof. unfold jpeg_suffixes. set_solver. Qed.

Lemma elem_of_tiff_suffixes (s : string) :
  s ∈ tiff_suffixes <-> s = ".tif" \/ s = ".tiff".
Proof. unfold tiff_suffixes. set_solver. Qed.

(** The keyword arguments, entry by entry. *)
Lemma save_pil_kwargs_lookup path :
  let ext := lower (path_suffix path) in
  let jpeg := String.eqb ext ".jpg" || String.eqb ext ".jpeg" in
  let webp := String.eqb ext ".webp" in
  let kwargs := save_pil_kwargs srgb_profile path in
  kwargs !! "icc_profile" = Some (KwBytes srgb_profile) /\
  kwargs !! "quality" = (if jpeg || webp then Some (KwInt 95) else None) /\
  kwargs !! "subsampling" = (if jpeg then Some (KwInt 0) else None) /\
  (forall k, k <> "icc_profile" -> k <> "quality" -> k <> "subsampling" ->
             kwargs !! k = None).
Proof.
  intros ext jpeg webp kwargs. subst kwargs jpeg webp.
  unfold save_pil_kwargs. fold ext.
  destruct (bool_decide (ext ∈ jpeg_suffixes)) eqn:Hj.
  - apply bool_decide_eq_true_1, elem_of_jpeg_suffixes in Hj.
    assert ((ext =? ".jpg")%string || (ext =? ".jpeg")%string = true) as ->.
    { destruct Hj as [-> | ->]; reflexivity. }
    simpl. repeat split; intros; by simplify_map_eq.
  - apply bool_decide_eq_false_1 in Hj. rewrite elem_of_jpeg_suffixes in Hj.
    assert ((ext =? ".jpg")%string || (ext =? ".jpeg")%string = false) as ->.
    { apply orb_false_intro; apply String.eqb_neq; intros ?; apply Hj; auto. }
    simpl. destruct (ext =? ".webp")%string;
      repeat split; intros; by simplify_map_eq.
Qed.

(** A decoded image goes to Pillow, once, with [save_pil]'s arguments. *)
Lemma save_image_pil_run E path im :
  exists r t,
    run (save_image srgb_profile path (PilImage im)) E = (r, t) /\
    save_calls t = ["Writing image to " +:+ path_str path +:+ "."] /\
    writes t = [ByPillow im path (save_pil_kwargs srgb_profile path)] /\
    (r = Ok tt \/ r = Raise (SystemExit 1) \/
     exists e, r = Raise e /\ Image_save E im path
                                (save_pil_kwargs srgb_profile path) = Raise e
               /\ is_OSError e = false /\ is_ValueError e = false).
Proof.
  unfold run, save_image, save_pil, bind, emit, try_except, call.
  destruct (Image_save E im path (save_pil_kwargs srgb_profile path))
    as [[]|e] eqn:Hs.
  - eexists _, _. split; [reflexivity|]. auto.
  - destruct (is_OSError e || is_ValueError e) eqn:Hc; simpl.
    + eexists _, _. split; [reflexivity|]. auto.
    + eexists _, _. split; [reflexivity|].
      apply orb_false_elim in Hc as [? ?]. repeat split; eauto 10.
Qed.

(** A numeric array bound for a TIFF file goes to the TIFF writer, once. *)
Lemma save_image_tiff_run E path a :
  lower (path_suffix path) ∈ tiff_suffixes ->
  exists r t,
    run (save_image srgb_profile path (NdArray a)) E = (r, t) /\
    save_calls t = ["Writing image to " +:+ path_str path +:+ "."] /\
    writes t = [ByTiffWriter path a "rgb" (72, 72) [icc_tag srgb_profile]].
Proof.
  intros Hext.
  unfold run, save_image, save_tiff, bind, emit, try_except, call.
  rewrite bool_decide_eq_true_2 by done.
  destruct (TiffWriter_save E path a "rgb" (72, 72) [icc_tag srgb_profile])
    as [[]|e] eqn:Hs.
  - by eexists _, _.
  - destruct (is_OSError e); simpl; by eexists _, _.
Qed.

(** C4. [save_image] looks only at the lower-cased suffix of the
    destination.  A decoded image is written by Pillow with the canonical
    profile as [icc_profile] in every case, with [quality] 95 and
    [subsampling] 0 (chroma 4:4:4) for [.jpg] and [.jpeg], with [quality]
    95 alone for [.webp], and with no other argument for any other suffix.
    A numeric array bound for [.tif] or [.tiff] is written by the TIFF
    writer with photometric ['rgb'], resolution [(72, 72)] and one extra tag
    [InterColorProfile] of type BYTE holding the canonical profile bytes. *)
Theorem save_image_dispatch E path :
  let ext := lower (path_suffix path) in
  let jpeg := String.eqb ext ".jpg" || String.eqb ext ".jpeg" in
  let webp := String.eqb ext ".webp" in
  let tiff := String.eqb ext ".tif" || String.eqb ext ".tiff" in
  (forall im, exists kwargs,
     writes (snd (run (save_image srgb_profile path (PilImage im)) E))
     = [ByPillow im path kwargs] /\
     kwargs !! "icc_profile" = Some (KwBytes srgb_profile) /\
     kwargs !! "quality" = (if jpeg || webp then Some (KwInt 95) else None) /\
     kwargs !! "subsampling" = (if jpeg then Some (KwInt 0) else None) /\
     (forall k, k <> "icc_profile" -> k <> "quality" -> k <> "subsampling" ->
                kwargs !! k = None)) /\
  (forall a,
     if tiff then
       writes (snd (run (save_image srgb_profile path (NdArray a)) E))
       = [ByTiffWriter path a "rgb" (72, 72)
            [{| tag_code := "InterColorProfile";
                tag_dtype := BYTE;
                tag_count := length srgb_profile;
                tag_value := srgb_profile;
                tag_writeonce := false |}]]
     else
       writes (snd (run (save_image srgb_profile path (NdArray a)) E)) = []).
Proof.
  intros ext jpeg webp tiff. split.
  - intros im. exists (save_pil_kwargs srgb_profile path).
    destruct (save_image_pil_run E path im) as (r & t & -> & _ & Hw & _).
    split; [exact Hw|]. apply save_pil_kwargs_lookup.
  - intros a. clear jpeg webp. subst tiff. destruct (_ || _) eqn:Ht.
    + destruct (save_image_tiff_run E path a) as (r & t & -> & _ & Hw).
      { apply elem_of_tiff_suffixes. fold ext.
        apply orb_true_elim in Ht as [Ht|Ht]; apply String.eqb_eq in Ht; auto. }
      exact Hw.
    + unfold run, save_image, bind, emit.
      rewrite bool_decide_eq_false_2; [done|].
      rewrite elem_of_tiff_suffixes. fold ext.
      apply orb_false_elim in Ht as [H1 H2].
      apply String.eqb_neq in H1, H2. tauto.
Qed.

(** C5, as the code has it. A numeric array whose destination suffix is not
    [.tif] or [.tiff], and an object that is neither a decoded image nor a
    numeric array, make [save_image] raise [ValueError] with one fixed
    message, after announcing the write (the destination printed as
    [str(Path(path))]) and before writing anything; the exception goes to
    the caller, nothing is printed on the error stream and there is no
    exit.  A decoded image never gets this error: it is handed to Pillow
    whatever the suffix, and no [ValueError] leaves [save_image].  An I/O
    failure is another matter: an [OSError] of either encoder is printed on
    the error stream and ends the process with status 1. *)
Theorem save_image_unsupported E path :
  let announced :=
    EvTqdmWrite ("Writing image to " +:+ path_str path +:+ ".") in
  (forall image,
     unsupported_combination path image ->
     run (save_image srgb_profile path image) E
     = (Raise (Exn ValueError "Unsupported combination of image type and extension"),
        [announced])) /\
  (forall im,
     writes (snd (run (save_image srgb_profile path (PilImage im)) E))
     = [ByPillow im path (save_pil_kwargs srgb_profile path)] /\
     forall msg,
       fst (run (save_image srgb_profile path (PilImage im)) E)
       <> Raise (Exn ValueError msg)) /\
  (forall e,
     is_OSError e = true ->
     (forall im,
        Image_save E im path (save_pil_kwargs srgb_profile path) = Raise e ->
        run (save_image srgb_profile path (PilImage im)) E
        = (Raise (SystemExit 1),
           [announced;
            EvImageSave im path (save_pil_kwargs srgb_profile path);
            EvStderr (error_line e)])) /\
     (forall a,
        lower (path_suffix path) ∈ tiff_suffixes ->
        TiffWriter_save E path a "rgb" (72, 72) [icc_tag srgb_profile] = Raise e ->
        run (save_image srgb_profile path (NdArray a)) E
        = (Raise (SystemExit 1),
           [announced;
            EvTiffSave path a "rgb" (72, 72) [icc_tag srgb_profile];
            EvStderr (error_line e)]))).
Proof.
  intros announced. split; [|split].
  - intros image. destruct image as [im|a|name]; simpl; [done| |done].
    intros Hext. unfold run, save_image, bind, emit.
    by rewrite bool_decide_eq_false_2.
  - intros im.
    destruct (save_image_pil_run E path im) as (r & t & Hrun & _ & Hw & Hr).
    rewrite Hrun. split; [exact Hw|]. intros msg. cbn [fst].
    destruct Hr as [-> | [-> | (e & -> & _ & _ & Hv)]]; [done..|].
    intros [= ->]. done.
  - intros e Hos. split.
    + intros im Hsave.
      unfold run, save_image, save_pil, bind, emit, try_except, call.
      rewrite Hsave, Hos. reflexivity.
    + intros a Hext Hsave.
      unfold run, save_image, save_tiff, bind, emit, try_except, call.
      rewrite bool_decide_eq_true_2 by done.
      rewrite Hsave, Hos. reflexivity.
Qed.

End Saving_properties.

(** A JPEG destination in capitals, a WebP one and a PNG one. *)
Lemma save_image_dispatch_examples :
  let E := Example.world false None in
  writes (snd (run (save_image Example.srgb "out/IMG.JPG"
                      (PilImage Example.out)) E))
  = [ByPillow Example.out "out/IMG.JPG"
       (<["subsampling" := KwInt 0]>
          (<["quality" := KwInt 95]> {["icc_profile" := KwBytes Example.srgb]}))] /\
  writes (snd (run (save_image Example.srgb "out/img.webp"
                      (PilImage Example.out)) E))
  = [ByPillow Example.out "out/img.webp"
       (<["quality" := KwInt 95]> {["icc_profile" := KwBytes Example.srgb]})] /\
  writes (snd (run (save_image Example.srgb "out/img.png"
                      (PilImage Example.out)) E))
  = [ByPillow Example.out "out/img.png" {["icc_profile" := KwBytes Example.srgb]}].
Proof. repeat split; by vm_compute. Qed.

(** A numeric array bound for a PNG file, the destination written with a
    leading [./]. *)
Lemma save_image_unsupported_witness :
  run (save_image Example.srgb "./out.png" (NdArray {| shape := [1; 1; 3]; data := [0; 0; 0] |}))
      (Example.world false None)
  = (Raise (Exn ValueError "Unsupported combination of image type and extension"),
     [EvTqdmWrite "Writing image to out.png."]).
Proof.
  destruct (save_image_unsupported Example.srgb (Example.world false None)
              "./out.png") as [Hraise _].
  apply (Hraise (NdArray {| shape := [1; 1; 3]; data := [0; 0; 0] |})).
  simpl. by vm_compute.
Defined.

(** C5 fails as stated: the message of the error is the same for an array
    bound for [out.png] and for a tensor bound for [out.bmp], and it names
    neither the suffix nor the kind of object. *)
Lemma unsupported_message_names_nothing :
  let E := Example.world false None in
  let msg := "Unsupported combination of image type and extension" in
  fst (run (save_image Example.srgb "out.png"
              (NdArray {| shape := [1; 1; 3]; data := [0; 0; 0] |})) E)
  = Raise (Exn ValueError msg) /\
  fst (run (save_image Example.srgb "out.bmp" (OtherObject "Tensor")) E)
  = Raise (Exn ValueError msg) /\
  contains ".png" msg = false /\ contains "png" msg = false /\
  contains "ndarray" msg = false /\ contains "array" msg = false /\
  contains ".bmp" msg = false /\ contains "Tensor" msg = false.
Proof. repeat split; by vm_compute. Qed.

(** ** Devices *)

(** All the devices of a list have one type. *)
Lemma one_type_iff (devices : list device) :
  base.size (device_types devices) = 1%nat <->
  devices <> [] /\
  forall d1 d2, d1 ∈ devices -> d2 ∈ devices -> dev_type d1 = dev_type d2.
Proof.
  unfold device_types. split.
  - intros Hsize. split.
    + intros ->. change (base.size (∅ : gset string) = 1%nat) in Hsize.
      by rewrite size_empty in Hsize.
    + intros d1 d2 H1 H2.
      apply (size_singleton_inv _ _ _ Hsize);
        apply elem_of_list_to_set, list_elem_of_fmap; eauto.
  - intros [Hne Hsame]. destruct devices as [|d ds]; [done|].
    assert (list_to_set (dev_type <$> d :: ds) = ({[ dev_type d ]} : gset string))
      as ->; [|apply size_singleton].
    apply set_eq. intros x.
    rewrite elem_of_list_to_set, list_elem_of_fmap, elem_of_singleton. split.
    + intros (d' & -> & Hd'). apply Hsame; [done|left].
    + intros ->. exists d. split; [done|left].
Qed.

(** [validate_devices], check by check. *)
Lemma validate_devices_run E devices :
  run (validate_devices devices) E =
  if bool_decide (base.size (device_types devices) ≠ 1%nat)
  then (Raise (SystemExit 1), [EvStdout "Devices must all be the same type."])
  else if negb ((1 <=? length devices)%nat && (length devices <=? 2)%nat)
  then (Raise (SystemExit 1), [EvStdout "Only 1 or 2 devices are supported."])
  else (Ok tt, [EvReport (UsingDevices devices)]).
Proof.
  unfold run, validate_devices, bind, emit, sys_exit, raise, ret.
  destruct (bool_decide _); [done|].
  by destruct (negb _).
Qed.

(** Two devices of different types, when not all types agree. *)
Lemma mixed_types_pair (devices : list device) :
  ~ (forall d1 d2, d1 ∈ devices -> d2 ∈ devices -> dev_type d1 = dev_type d2) ->
  exists d1 d2, d1 ∈ devices /\ d2 ∈ devices /\ dev_type d1 <> dev_type d2.
Proof.
  intros Hmixed.
  destruct (decide (Forall (fun d1 =>
              Forall (fun d2 => dev_type d1 = dev_type d2) devices) devices))
    as [Hall|Hnot].
  - exfalso. apply Hmixed. intros d1 d2 H1 H2.
    rewrite Forall_forall in Hall. specialize (Hall d1 H1).
    rewrite Forall_forall in Hall. by apply Hall.
  - apply not_Forall_Exists in Hnot; [|solve_decision].
    apply Exists_exists in Hnot as (d1 & H1 & Hnot). simpl in Hnot.
    apply not_Forall_Exists in Hnot; [|solve_decision].
    apply Exists_exists in Hnot as (d2 & H2 & Hne). eauto.
Qed.

(** C6. The validation of a device list ends the process (exit status 1)
    exactly when the list is empty, has more than two devices, or holds
    devices of more than one type; it lets through exactly the lists of one
    or two devices of one type; and it does one or the other. *)
Theorem validate_devices_rejects_exactly E (devices : list device) :
  let outcome := fst (run (validate_devices devices) E) in
  (outcome = Raise (SystemExit 1) <->
     length devices = 0%nat \/ (2 < length devices)%nat \/
     exists d1 d2, d1 ∈ devices /\ d2 ∈ devices /\ dev_type d1 <> dev_type d2) /\
  (outcome = Ok tt <->
     (1 <= length devices <= 2)%nat /\
     forall d1 d2, d1 ∈ devices -> d2 ∈ devices -> dev_type d1 = dev_type d2) /\
  (outcome = Ok tt \/ outcome = Raise (SystemExit 1)).
Proof.
  intros outcome. subst outcome. rewrite validate_devices_run.
  pose proof (one_type_iff devices) as Hone.
  destruct (bool_decide (base.size (device_types devices) ≠ 1%nat)) eqn:Hsize.
  - apply bool_decide_eq_true_1 in Hsize. simpl.
    assert (devices = [] \/
            ~ (forall d1 d2, d1 ∈ devices -> d2 ∈ devices ->
                             dev_type d1 = dev_type d2)) as Hwhy.
    { destruct devices as [|d ds]; [by left|right].
      intros Hsame. apply Hsize, Hone. by split. }
    split; [|split].
    + split; [|done]. intros _. destruct Hwhy as [-> | Hmixed]; [by left|].
      right; right. by apply mixed_types_pair.
    + split; [done|]. intros [[Hlen _] Hsame]. exfalso.
      apply Hsize, Hone. split; [|done]. intros ->. simpl in Hlen. lia.
    + by right.
  - apply bool_decide_eq_false_1 in Hsize.
    assert (base.size (device_types devices) = 1%nat) as Hsize'.
    { destruct (decide (base.size (device_types devices) = 1%nat)); tauto. }
    apply Hone in Hsize' as [Hne Hsame].
    assert (length devices <> 0%nat) as Hlen0.
    { by destruct devices. }
    destruct ((1 <=? length devices)%nat && (length devices <=? 2)%nat) eqn:Hlen;
      simpl.
    + apply andb_true_iff in Hlen as [H1 H2].
      apply Nat.leb_le in H1, H2.
      split; [|split].
      * split; [done|].
        intros [?|[?|(d1 & d2 & H1' & H2' & Hd)]]; [lia|lia|].
        by specialize (Hsame d1 d2 H1' H2').
      * split; [|done]. intros _. split; [lia|done].
      * by left.
    + apply andb_false_iff in Hlen.
      assert ((2 < length devices)%nat) as Hbig.
      { destruct Hlen as [H|H]; apply Nat.leb_gt in H; lia. }
      split; [|split].
      * split; [|done]. intros _. right; by left.
      * split; [done|]. intros [[? ?] _]. lia.
      * by right.
Qed.

(** No device, one, two of a kind, a mixed pair, three of a kind. *)
Lemma validate_devices_examples :
  let E := Example.world false None in
  fst (run (validate_devices []) E) = Raise (SystemExit 1) /\
  fst (run (validate_devices [cpu]) E) = Ok tt /\
  fst (run (validate_devices [cuda0; cuda0]) E) = Ok tt /\
  fst (run (validate_devices [cpu; cuda0]) E) = Raise (SystemExit 1) /\
  fst (run (validate_devices [cuda0; cuda0; cuda0]) E) = Raise (SystemExit 1).
Proof. repeat split; by vm_compute. Qed.

(** A single device always passes. *)
Lemma validate_devices_single E d :
  run (validate_devices [d]) E = (Ok tt, [EvReport (UsingDevices [d])]).
Proof.
  rewrite validate_devices_run.
  rewrite bool_decide_eq_false_2.
  - reflexivity.
  - intros Hsize. apply Hsize, one_type_iff. split; [done|].
    intros d1 d2 H1 H2. apply list_elem_of_singleton in H1, H2. by subst.
Qed.

(** ** The job *)

Section Job_properties.

Variable srgb_profile : bytes.

Lemma load_image_quiet E path proof_prof :
  quiet (snd (run (load_image srgb_profile path proof_prof) E)).
Proof.
  unfold quiet, load_image.
  pose proof (load_image_body_run srgb_profile E path proof_prof) as Hbody.
  unfold run, try_except in *. rewrite Hbody. clear Hbody.
  unfold opening, bind, print_error, emit, sys_exit, raise.
  destruct (Image_open E path) as [img|e]; [|by destruct (is_OSError e)].
  destruct (source_of srgb_profile E img) as [[src im]|e];
    [|destruct (is_OSError e); by destruct (info img !! "icc_profile")].
  destruct proof_prof as [p|].
  - destruct (read_bytes E p) as [proof|e];
      [|destruct (is_OSError e); by destruct (info img !! "icc_profile")].
    destruct (profileToProfile E im src proof "CMYK") as [cmyk|e];
      [|destruct (is_OSError e); by destruct (info img !! "icc_profile")].
    destruct (profileToProfile E cmyk proof srgb_profile "RGB") as [r|e];
      [|destruct (is_OSError e)]; by destruct (info img !! "icc_profile").
  - destruct (decide (src = srgb_profile)) as [Hsame|Hdiff].
    + destruct (Image_convert E im "RGB") as [r|e];
        [|destruct (is_OSError e)]; by destruct (info img !! "icc_profile").
    + destruct (profileToProfile E im src srgb_profile "RGB") as [r|e];
        [|destruct (is_OSError e)]; by destruct (info img !! "icc_profile").
Qed.

Lemma report_devices_quiet E :
  quiet (snd (run (report_devices [selected_device E]) E)).
Proof.
  unfold quiet, run, selected_device, report_devices.
  destruct (cuda_is_available E); simpl.
  - unfold bind, call, emit, ret.
    by destruct (get_device_properties E cuda0).
  - done.
Qed.

(** Every call of [save_image] announces itself once and never calls the
    stylizer. *)
Lemma save_image_announces E path image :
  save_calls (snd (run (save_image srgb_profile path image) E))
  = ["Writing image to " +:+ path_str path +:+ "."] /\
  stylize_calls (snd (run (save_image srgb_profile path image) E)) = [].
Proof.
  unfold run, save_image, save_pil, save_tiff, bind, emit, try_except, call,
    raise, print_error, sys_exit.
  destruct image as [im|a|name]; [| |done].
  - destruct (Image_save E im path _) as [[]|e]; [done|].
    by destruct (is_OSError e || is_ValueError e).
  - destruct (bool_decide _); [|done].
    destruct (TiffWriter_save E path a _ _ _) as [[]|e]; [done|].
    by destruct (is_OSError e).
Qed.

(** Up to the call of the stylizer, and what follows it. *)
Lemma stylize_run E content_path styles_path save_dir content_img style_img :
  reaches_stylize srgb_profile E content_path styles_path content_img style_img ->
  exists t0, quiet t0 /\
    let asked := EvStylize content_img [style_img] (end_scale_of content_img) in
    let rest := run (retrieve_and_save srgb_profile save_dir) E in
    run (stylize srgb_profile content_path styles_path save_dir) E =
    match st_stylize E content_img [style_img] (end_scale_of content_img) with
    | Ok _ => (fst rest, t0 ++ asked :: snd rest)
    | Raise e =>
        if is_KeyboardInterrupt e then (fst rest, t0 ++ asked :: snd rest)
        else (Raise e, t0 ++ [asked])
    end.
Proof.
  intros (Hc & Hs & Hr & Ht & Hi). unfold quiet.
  pose proof (load_image_quiet E content_path None) as (Qc1 & Qc2 & Qc3).
  pose proof (load_image_quiet E styles_path None) as (Qs1 & Qs2 & Qs3).
  pose proof (report_devices_quiet E) as (Qr1 & Qr2 & Qr3).
  pose proof (validate_devices_single E (selected_device E)) as Hv.
  unfold run, stylize, retrieve_and_save, bind in *.
  fold (selected_device E). rewrite Hv.
  destruct (load_image srgb_profile content_path None E) as [r1 t1].
  destruct (load_image srgb_profile styles_path None E) as [r2 t2].
  destruct (report_devices [selected_device E] E) as [r3 t3].
  simpl in Hc, Hs, Hr, Qc1, Qc2, Qc3, Qs1, Qs2, Qs3, Qr1, Qr2, Qr3. subst r1 r2 r3.
  exists (t1 ++ t2 ++ [EvReport (UsingDevices [selected_device E])] ++ t3
          ++ [EvTensorTo (selected_device E); EvManualSeed 0;
              EvStdout "Loading model...";
              EvStyleTransferInit [selected_device E] "max"]).
  split.
  { unfold save_calls, writes, stylize_calls in *.
    rewrite !omap_app, Qc1, Qc2, Qc3, Qs1, Qs2, Qs3, Qr1, Qr2, Qr3. done. }
  simpl. unfold touch_devices, bind, call, emit, ret, try_except.
  rewrite Ht, Hi. simpl.
  destruct (st_stylize E content_img [style_img] (end_scale_of content_img))
    as [[]|e]; [|destruct (is_KeyboardInterrupt e)];
    try (destruct (st_get_image E "pil") as [[out|]|e']; simpl;
         [destruct (save_image srgb_profile save_dir out E) as [r t]; simpl| |]);
    f_equal; repeat (rewrite <- app_assoc; simpl); reflexivity.
Qed.

(** Fetching the result and saving it, call by call. *)
Lemma retrieve_and_save_run E save_dir :
  run (retrieve_and_save srgb_profile save_dir) E =
  match st_get_image E "pil" with
  | Ok (Some out) =>
      (fst (run (save_image srgb_profile save_dir out) E),
       EvGetImage "pil" :: snd (run (save_image srgb_profile save_dir out) E))
  | Ok None => (Ok tt, [EvGetImage "pil"])
  | Raise e => (Raise e, [EvGetImage "pil"])
  end.
Proof.
  unfold run, retrieve_and_save, bind, call, ret.
  destruct (st_get_image E "pil") as [[out|]|e]; [|done..].
  by destruct (save_image srgb_profile save_dir out E).
Qed.

(** C7, as the code has it. The job has got as far as calling the
    stylizer, and the call ends with [KeyboardInterrupt]. Then the
    interrupt goes no further and the result is fetched next.  When there
    is none, the run ends normally without a call of [save_image] and
    without writing anything.  When there is one, [save_image] is called
    exactly once, with it, and the run ends as that call ends: normally
    when Pillow writes the image, with exit status 1 when Pillow fails with
    an [OSError] or a [ValueError], and with Pillow's exception otherwise.
    When fetching the result raises, the run ends with that exception and
    nothing is saved. *)
Theorem stylize_interrupted E content_path styles_path save_dir
    content_img style_img msg :
  reaches_stylize srgb_profile E content_path styles_path content_img style_img ->
  st_stylize E content_img [style_img] (end_scale_of content_img)
  = Raise (Exn KeyboardInterrupt msg) ->
  let result := run (stylize srgb_profile content_path styles_path save_dir) E in
  let asked := EvStylize content_img [style_img] (end_scale_of content_img) in
  match st_get_image E "pil" with
  | Ok None =>
      fst result = Ok tt /\
      save_calls (snd result) = [] /\
      writes (snd result) = [] /\
      exists t0, quiet t0 /\ snd result = t0 ++ [asked; EvGetImage "pil"]
  | Ok (Some out) =>
      let saving := run (save_image srgb_profile save_dir out) E in
      fst result = fst saving /\
      save_calls (snd result)
      = ["Writing image to " +:+ path_str save_dir +:+ "."] /\
      writes (snd result) = writes (snd saving) /\
      (exists t0, quiet t0 /\
         snd result = t0 ++ asked :: EvGetImage "pil" :: snd saving) /\
      (forall im,
         out = PilImage im ->
         writes (snd result)
         = [ByPillow im save_dir (save_pil_kwargs srgb_profile save_dir)] /\
         fst result =
         match Image_save E im save_dir (save_pil_kwargs srgb_profile save_dir) with
         | Ok _ => Ok tt
         | Raise e =>
             if is_OSError e || is_ValueError e then Raise (SystemExit 1)
             else Raise e
         end)
  | Raise e =>
      fst result = Raise e /\
      save_calls (snd result) = [] /\
      writes (snd result) = [] /\
      exists t0, quiet t0 /\ snd result = t0 ++ [asked; EvGetImage "pil"]
  end.
Proof.
  intros Hready Hint result asked.
  destruct (stylize_run E content_path styles_path save_dir _ _ Hready)
    as (t0 & (Q1 & Q2 & Q3) & Hrun).
  simpl in Hrun. rewrite Hint in Hrun. simpl in Hrun.
  rewrite retrieve_and_save_run in Hrun.
  subst result. rewrite Hrun. clear Hrun.
  assert (forall r : result unit,
            (r, t0 ++ [asked; EvGetImage "pil"]).1 = r /\
            save_calls (t0 ++ [asked; EvGetImage "pil"]) = [] /\
            writes (t0 ++ [asked; EvGetImage "pil"]) = [] /\
            exists t, quiet t /\
              t0 ++ [asked; EvGetImage "pil"] = t ++ [asked; EvGetImage "pil"])
    as Hnone.
  { intros r. split; [done|]. split.
    { unfold save_calls in *. by rewrite omap_app, Q1. }
    split.
    { unfold writes in *. by rewrite omap_app, Q2. }
    exists t0. by repeat split. }
  destruct (st_get_image E "pil") as [[out|]|e]; cbv zeta; cbn [fst snd];
    [|apply (Hnone (Ok tt))|apply (Hnone (Raise e))].
  pose proof (save_image_announces E save_dir out) as [Hs _].
  assert (writes (t0 ++ asked :: EvGetImage "pil"
                  :: snd (run (save_image srgb_profile save_dir out) E))
          = writes (snd (run (save_image srgb_profile save_dir out) E)))
    as Hw.
  { unfold writes. rewrite omap_app. fold (writes t0). by rewrite Q2. }
  split; [done|]. split.
  { unfold save_calls in *. rewrite omap_app, Q1. simpl. exact Hs. }
  split; [exact Hw|]. split.
  { exists t0. by repeat split. }
  intros im ->. unfold asked in Hw. rewrite Hw. clear Hw Hs.
  unfold run, save_image, save_pil, bind, emit, try_except, call.
  destruct (Image_save E im save_dir (save_pil_kwargs srgb_profile save_dir))
    as [[]|e]; [done|].
  by destruct (is_OSError e || is_ValueError e).
Qed.

(** C9. When the job gets as far as calling the stylizer, it calls it
    once, and with [end_scale] the larger of the width and the height of
    the content image: 2000 for a 2000 x 1000 image. *)
Theorem stylize_end_scale E content_path styles_path save_dir
    content_img style_img :
  reaches_stylize srgb_profile E content_path styles_path content_img style_img ->
  let t := snd (run (stylize srgb_profile content_path styles_path save_dir) E) in
  stylize_calls t
  = [(content_img, [style_img],
      Z.max (fst (size content_img)) (snd (size content_img)))] /\
  (size content_img = (2000, 1000) ->
   stylize_calls t = [(content_img, [style_img], 2000)]).
Proof.
  intros Hready t.
  assert (stylize_calls t
          = [(content_img, [style_img],
              Z.max (fst (size content_img)) (snd (size content_img)))]) as Hcalls.
  { destruct (stylize_run E content_path styles_path save_dir _ _ Hready)
      as (t0 & (Q1 & Q2 & Q3) & Hrun).
    simpl in Hrun. subst t. rewrite Hrun. clear Hrun.
    assert (stylize_calls
              (snd (run (retrieve_and_save srgb_profile save_dir) E)) = [])
      as Hrest.
    { rewrite retrieve_and_save_run.
      destruct (st_get_image E "pil") as [[out|]|e]; [|done..].
      simpl. apply save_image_announces. }
    unfold stylize_calls in *. unfold end_scale_of.
    destruct (st_stylize E content_img [style_img] _) as [[]|e];
      [|destruct (is_KeyboardInterrupt e)]; simpl;
      rewrite omap_app, Q3; simpl; first [reflexivity | f_equal; exact Hrest]. }
  split; [exact Hcalls|].
  intros Hsize. rewrite Hcalls, Hsize. reflexivity.
Qed.

End Job_properties.

(** An interrupted run with a partial result at hand, saved as a JPEG. *)
Lemma stylize_interrupted_witness :
  let E := Example.world true (Some (PilImage Example.out)) in
  let result := run (stylize Example.srgb "tagged.jpg" "style.jpg" "./out/res.jpg") E in
  fst result = Ok tt /\
  save_calls (snd result) = ["Writing image to out/res.jpg."] /\
  writes (snd result)
  = [ByPillow Example.out "./out/res.jpg"
       (save_pil_kwargs Example.srgb "./out/res.jpg")].
Proof.
  intros E result.
  assert (reaches_stylize Example.srgb E "tagged.jpg" "style.jpg"
            (Example.with_mode "RGB" (Example.image "RGB" 2000 1000 (Some Example.srgb)))
            (Example.with_mode "RGB" (Example.image "RGB" 512 512 (Some Example.srgb))))
    as Hready.
  { repeat split; reflexivity. }
  pose proof (stylize_interrupted Example.srgb E "tagged.jpg" "style.jpg"
                "./out/res.jpg" _ _ "" Hready eq_refl)
    as (_ & Hs & _ & _ & Hok).
  destruct (Hok Example.out eq_refl) as [Hw Hres].
  repeat split; assumption.
Defined.

(** C7 fails as stated: an interrupted run need not complete without
    raising.  With a partial result at hand and a full disk, the write
    fails, the error is printed and the run ends with exit status 1. *)
Lemma interrupted_run_can_exit :
  let E := Worlds.interrupted_full_disk Worlds.disk_full in
  let result := run (stylize Example.srgb "tagged.jpg" "style.jpg" "out/res.jpg") E in
  stylize_calls (snd result)
  = [(Example.with_mode "RGB" (Example.image "RGB" 2000 1000 (Some Example.srgb)),
      [Example.with_mode "RGB" (Example.image "RGB" 512 512 (Some Example.srgb))],
      2000)] /\
  st_stylize E
    (Example.with_mode "RGB" (Example.image "RGB" 2000 1000 (Some Example.srgb)))
    [Example.with_mode "RGB" (Example.image "RGB" 512 512 (Some Example.srgb))]
    2000
  = Raise (Exn KeyboardInterrupt "") /\
  fst result = Raise (SystemExit 1) /\
  save_calls (snd result) = ["Writing image to out/res.jpg."] /\
  stderr_lines (snd result) = [error_line Worlds.disk_full].
Proof. repeat split; by vm_compute. Qed.

(** An interrupted run with nothing to save. *)
Lemma stylize_interrupted_empty_example :
  let E := Example.world true None in
  let result := run (stylize Example.srgb "tagged.jpg" "style.jpg" "out/res.jpg") E in
  fst result = Ok tt /\ save_calls (snd result) = [] /\ writes (snd result) = [].
Proof. repeat split; by vm_compute. Qed.

(** The 2000 x 1000 content image. *)
Lemma stylize_end_scale_witness :
  stylize_calls
    (snd (run (stylize Example.srgb "tagged.jpg" "style.jpg" "out/res.jpg")
              (Example.world false (Some (PilImage Example.out)))))
  = [(Example.with_mode "RGB" (Example.image "RGB" 2000 1000 (Some Example.srgb)),
      [Example.with_mode "RGB" (Example.image "RGB" 512 512 (Some Example.srgb))],
      2000)].
Proof.
  apply (stylize_end_scale Example.srgb
           (Example.world false (Some (PilImage Example.out)))
           "tagged.jpg" "style.jpg" "out/res.jpg").
  - repeat split; reflexivity.
  - reflexivity.
Defined.

(** A PNG destination written in capitals is not a JPEG one; a JPEG one in
    capitals is. *)
Lemma save_image_dispatch_witness :
  exists kwargs,
    writes (snd (run (save_image Example.srgb "out/IMG.JPEG"
                        (PilImage Example.out)) (Example.world false None)))
    = [ByPillow Example.out "out/IMG.JPEG" kwargs] /\
    kwargs !! "icc_profile" = Some (KwBytes Example.srgb) /\
    kwargs !! "quality" = Some (KwInt 95) /\
    kwargs !! "subsampling" = Some (KwInt 0).
Proof.
  destruct (save_image_dispatch Example.srgb (Example.world false None)
              "out/IMG.JPEG") as [Hpil _].
  destruct (Hpil Example.out) as (kwargs & Hw & Hicc & Hq & Hs & _).
  exists kwargs. repeat split; assumption.
Defined.

(** ** The safe scale *)

(** The quotient of [a] by a nonzero [b] is a float or an overflow. *)
Lemma truediv_nonzero a b :
  b <> 0 ->
  (exists x, Float64.truediv a b = Ok x) \/
  (exists msg, Float64.truediv a b = Raise (Exn OverflowError msg)).
Proof.
  intros Hb. unfold Float64.truediv.
  destruct (b =? 0) eqn:Hz; [apply Z.eqb_eq in Hz; done|].
  destruct (Float64.overflows _); eauto.
Qed.

Lemma truediv_zero a : 
  Float64.truediv a 0 = Raise (Exn ZeroDivisionError "division by zero").
Proof. reflexivity. Qed.

(** After the division nothing divides: the rest of [get_safe_scale] ends
    with an integer, an overflow or a type error. *)
Lemma scale_of_ratio_no_zero_division libm_pow (x : Float64.float) dim msg :
  match Float64.pow_half libm_pow x with
  | Raise e => Raise e
  | Ok c =>
      match Float64.mul_int c dim with
      | Raise e => Raise e
      | Ok p => Float64.to_int p
      end
  end <> Raise (Exn ZeroDivisionError msg).
Proof.
  assert (forall c,
            match Float64.mul_int c dim with
            | Raise e => Raise e
            | Ok p => Float64.to_int p
            end <> Raise (Exn ZeroDivisionError msg)) as Hrest.
  { intros c. unfold Float64.mul_int, Float64.of_int.
    destruct (Float64.overflows _); [done|].
    destruct c as [y|]; [|done].
    unfold Float64.to_int.
    destruct (Float64.mul y _) as [neg m e|neg]; done. }
  unfold Float64.pow_half. destruct x as [neg m e|neg]; [|apply Hrest].
  destruct (m =? 0); [apply Hrest|].
  destruct neg; [apply Hrest|].
  destruct (Qeq_bool _ _); [apply Hrest|].
  destruct (libm_pow _ _); [apply Hrest|done].
Qed.

(** [get_safe_scale] divides by the smaller of [w] and [h]. *)
Lemma get_safe_scale_divisor libm_pow w h dim :
  get_safe_scale libm_pow w h dim =
  match Float64.truediv (Z.max w h) (Z.min w h) with
  | Raise e => Raise e
  | Ok ratio =>
      match Float64.pow_half libm_pow ratio with
      | Raise e => Raise e
      | Ok c =>
          match Float64.mul_int c dim with
          | Raise e => Raise e
          | Ok p => Float64.to_int p
          end
      end
  end.
Proof.
  unfold get_safe_scale. destruct (w >? h) eqn:Hwh.
  - apply Z.gtb_lt in Hwh. by rewrite Z.max_l, Z.min_r by lia.
  - rewrite Z.gtb_ltb in Hwh. apply Z.ltb_ge in Hwh.
    by rewrite Z.max_r, Z.min_l by lia.
Qed.

(** C10. [get_safe_scale] is partial on the integers: with [h = 0 < w], or
    with [w = 0 <= h], the division raises [ZeroDivisionError]; the
    function divides by zero exactly when the smaller of [w] and [h] is
    zero, so it returns a value only if the smaller one is nonzero.  This
    holds whatever the C library's [pow] returns. *)
Theorem get_safe_scale_zero_division libm_pow w h dim :
  ((h = 0 /\ w > 0) \/ (w = 0 /\ h >= w) ->
   get_safe_scale libm_pow w h dim
   = Raise (Exn ZeroDivisionError "division by zero")) /\
  ((exists msg,
      get_safe_scale libm_pow w h dim = Raise (Exn ZeroDivisionError msg))
   <-> Z.min w h = 0) /\
  (forall v, get_safe_scale libm_pow w h dim = Ok v -> Z.min w h <> 0).
Proof.
  assert (Z.min w h = 0 ->
          get_safe_scale libm_pow w h dim
          = Raise (Exn ZeroDivisionError "division by zero"))
    as Hzero.
  { intros Hmin. by rewrite get_safe_scale_divisor, Hmin, truediv_zero. }
  split; [|split].
  - intros [[-> Hw] | [-> Hh]]; apply Hzero; lia.
  - split; [|by eauto].
    intros [msg Hraise]. destruct (decide (Z.min w h = 0)) as [|Hmin]; [done|].
    exfalso. rewrite get_safe_scale_divisor in Hraise.
    destruct (truediv_nonzero (Z.max w h) (Z.min w h) Hmin)
      as [[x Hx] | [msg' Hx]]; rewrite Hx in Hraise; [|done].
    by apply scale_of_ratio_no_zero_division in Hraise.
  - intros v Hv Hmin. by rewrite (Hzero Hmin) in Hv.
Qed.

(** A 5 x 0 image. *)
Lemma get_safe_scale_zero_division_witness :
  get_safe_scale Float64.pow_rounded 5 0 512
  = Raise (Exn ZeroDivisionError "division by zero").
Proof.
  apply (get_safe_scale_zero_division Float64.pow_rounded 5 0 512).
  left. split; [reflexivity|lia].
Defined.

(** ** Rounding *)

Section Rounding.

Import Float64.
Local Open Scope Q_scope.

Lemma pow2_pos k : 0 < pow2 k.
Proof. apply Qpower_0_lt. reflexivity. Qed.

Lemma pow2_add a b : pow2 (a + b) == pow2 a * pow2 b.
Proof. apply Qpower_plus. discriminate. Qed.

Lemma pow2_sub a b : pow2 (a - b) == pow2 a / pow2 b.
Proof. apply Qpower_minus. discriminate. Qed.

Lemma pow2_le a b : (a <= b)%Z -> pow2 a <= pow2 b.
Proof. intros. apply Qpower_le_compat_l; [done|discriminate]. Qed.

Lemma pow2_lt a b : (a < b)%Z -> pow2 a < pow2 b.
Proof. intros. apply Qpower_lt_compat_l; [done|reflexivity]. Qed.

Lemma pow2_lt_inv a b : pow2 a < pow2 b -> (a < b)%Z.
Proof. intros. eapply Qpower_lt_compat_l_inv; [eassumption|reflexivity]. Qed.

Lemma pow2_Z k : (0 <= k)%Z -> inject_Z (2 ^ k) == pow2 k.
Proof. intros. by apply Zpower_Qpower. Qed.

(** Scaling by a power of two keeps the order. *)
Lemma scale_le x y e : x <= y -> x / pow2 e <= y / pow2 e.
Proof.
  intros Hxy. apply Qmult_le_compat_r; [exact Hxy|].
  apply Qinv_le_0_compat, Qlt_le_weak, pow2_pos.
Qed.

(** *** Nearest integer *)

Lemma rne_floor x : (Qfloor x <= rne x <= Qfloor x + 1)%Z.
Proof.
  unfold rne. destruct (Qcompare _ _); [destruct (Z.even _)| |]; lia.
Qed.

Lemma rne_Z z : rne (inject_Z z) = z.
Proof.
  unfold rne. rewrite Qfloor_Z.
  assert (inject_Z z - inject_Z z == 0) as -> by ring. reflexivity.
Qed.

#[local] Instance rne_comp : Proper (Qeq ==> eq) rne.
Proof.
  intros x y Hxy. unfold rne. rewrite (Qfloor_comp _ _ Hxy).
  assert (x - inject_Z (Qfloor y) == y - inject_Z (Qfloor y)) as Hfrac.
  { apply Qplus_comp; [exact Hxy|reflexivity]. }
  by rewrite (Qcompare_comp _ _ Hfrac _ _ (Qeq_refl (1 # 2))).
Qed.

Lemma rne_mono x y : x <= y -> (rne x <= rne y)%Z.
Proof.
  intros Hxy. pose proof (Qfloor_resp_le _ _ Hxy) as Hf.
  pose proof (rne_floor x). pose proof (rne_floor y).
  destruct (decide (Qfloor x = Qfloor y)) as [Heq|Hne]; [|lia].
  unfold rne. rewrite <- Heq.
  destruct (Qcompare_spec (x - inject_Z (Qfloor x)) (1 # 2)) as [Hx|Hx|Hx];
    destruct (Qcompare_spec (y - inject_Z (Qfloor x)) (1 # 2)) as [Hy|Hy|Hy];
    try lia; try (exfalso; lra); destruct (Z.even (Qfloor x)); lia.
Qed.

Lemma rne_nonneg x : 0 <= x -> (0 <= rne x)%Z.
Proof. intros Hx. rewrite <- (rne_Z 0). by apply rne_mono. Qed.

Lemma scale_nonneg x e : 0 <= x -> 0 <= x / pow2 e.
Proof.
  intros Hx. apply Qle_shift_div_l; [apply pow2_pos|].
  by rewrite Qmult_0_l.
Qed.

(** *** The binade of a rational *)

Lemma Qlog2_spec x : 0 < x -> pow2 (Qlog2 x) <= x < pow2 (Qlog2 x + 1).
Proof.
  intros Hx. destruct x as [n d]. unfold Qlog2. cbn [Qnum Qden].
  assert (0 < n)%Z as Hn.
  { unfold Qlt in Hx. simpl in Hx. lia. }
  set (ln := Z.log2 n). set (ld := Z.log2 (Zpos d)). set (k := (ln - ld)%Z).
  pose proof (Z.log2_spec n Hn) as [Hn1 Hn2].
  pose proof (Z.log2_spec (Zpos d) eq_refl) as [Hd1 Hd2].
  pose proof (Z.log2_nonneg n). pose proof (Z.log2_nonneg (Zpos d)).
  fold ln in Hn1, Hn2, H. fold ld in Hd1, Hd2, H0.
  rewrite Zle_Qle in Hn1, Hd1. rewrite Zlt_Qlt in Hn2, Hd2.
  rewrite pow2_Z in Hn1, Hn2, Hd1, Hd2 by lia.
  assert (n # d == inject_Z n / inject_Z (Zpos d)) as Hq by apply Qmake_Qdiv.
  set (x := n # d) in *. set (N := inject_Z n) in *.
  set (D := inject_Z (Zpos d)) in *.
  assert (0 < D) as HD.
  { pose proof (pow2_pos ld). lra. }
  assert (x * D == N) as HxD.
  { rewrite Hq. field. lra. }
  assert (pow2 (k - 1) < x) as Hlow.
  { apply (Qmult_lt_r _ _ D HD). rewrite HxD.
    apply Qlt_le_trans with (pow2 (k - 1) * pow2 (Z.succ ld)).
    - apply Qmult_lt_l; [apply pow2_pos|exact Hd2].
    - rewrite <- pow2_add. replace (k - 1 + Z.succ ld)%Z with ln by lia.
      exact Hn1. }
  assert (x < pow2 (k + 1)) as Hhigh.
  { apply (Qmult_lt_r _ _ D HD). rewrite HxD.
    apply Qlt_le_trans with (pow2 (k + 1) * pow2 ld).
    - rewrite <- pow2_add. replace (k + 1 + ld)%Z with (Z.succ ln) by lia.
      exact Hn2.
    - apply Qmult_le_l; [apply pow2_pos|exact Hd1]. }
  destruct (Qle_bool (pow2 k) x) eqn:Hk.
  - apply Qle_bool_iff in Hk. by split.
  - replace (k - 1 + 1)%Z with k by lia. split; [by apply Qlt_le_weak|].
    apply Qnot_le_lt. intros Hle. apply Qle_bool_iff in Hle. congruence.
Qed.

Lemma Qlog2_unique x k : pow2 k <= x < pow2 (k + 1) -> Qlog2 x = k.
Proof.
  intros [Hlo Hhi].
  assert (0 < x) as Hx.
  { pose proof (pow2_pos k). lra. }
  destruct (Qlog2_spec x Hx) as [Hlo' Hhi'].
  assert (Qlog2 x < k + 1)%Z.
  { apply pow2_lt_inv. lra. }
  assert (k < Qlog2 x + 1)%Z.
  { apply pow2_lt_inv. lra. }
  lia.
Qed.

Lemma Qlog2_comp x y : 0 < x -> x == y -> Qlog2 x = Qlog2 y.
Proof.
  intros Hx Hxy. symmetry. apply Qlog2_unique.
  destruct (Qlog2_spec x Hx). lra.
Qed.

Lemma Qlog2_mono x y : 0 < x -> x <= y -> (Qlog2 x <= Qlog2 y)%Z.
Proof.
  intros Hx Hxy.
  destruct (Qlog2_spec x Hx). destruct (Qlog2_spec y) as [? ?]; [lra|].
  assert (Qlog2 x < Qlog2 y + 1)%Z; [|lia].
  apply pow2_lt_inv. lra.
Qed.

Lemma Qlog2_pow2 k : Qlog2 (pow2 k) = k.
Proof.
  apply Qlog2_unique. split; [lra|]. apply pow2_lt. lia.
Qed.

Lemma ulp_exp_mono x y : 0 < x -> x <= y -> (ulp_exp x <= ulp_exp y)%Z.
Proof.
  intros Hx Hxy. unfold ulp_exp. pose proof (Qlog2_mono x y Hx Hxy). lia.
Qed.

(** *** The nearest float *)

Lemma Qle_bool_false x y : Qle_bool x y = false <-> y < x.
Proof.
  split.
  - intros Hb. apply Qnot_le_lt. intros Hle. apply Qle_bool_iff in Hle. congruence.
  - intros Hlt. destruct (Qle_bool x y) eqn:Hb; [|done].
    apply Qle_bool_iff in Hb. lra.
Qed.

Lemma round_mag_comp x y : x == y -> round_mag x = round_mag y.
Proof.
  intros Hxy. unfold round_mag.
  rewrite (Qleb_comp _ _ Hxy _ _ (Qeq_refl 0)).
  destruct (Qle_bool y 0) eqn:Hy; [done|].
  apply Qle_bool_false in Hy.
  assert (ulp_exp x = ulp_exp y) as ->.
  { unfold ulp_exp. rewrite (Qlog2_comp x y); [done|lra|done]. }
  assert (x / pow2 (ulp_exp y) == y / pow2 (ulp_exp y)) as Hs.
  { apply Qdiv_comp; [exact Hxy|reflexivity]. }
  by rewrite (rne_comp _ _ Hs).
Qed.

Lemma rounded_comp x y : x == y -> rounded x = rounded y.
Proof. intros Hxy. unfold rounded. by rewrite (round_mag_comp _ _ Hxy). Qed.

Lemma rounded_nonpos x : x <= 0 -> rounded x == 0.
Proof.
  intros Hx. unfold rounded, round_mag.
  apply Qle_bool_iff in Hx. rewrite Hx. unfold mag. simpl. ring.
Qed.

(** The value before any renormalisation of the mantissa. *)
Lemma rounded_pos x :
  0 < x ->
  rounded x == inject_Z (rne (x / pow2 (ulp_exp x))) * pow2 (ulp_exp x).
Proof.
  intros Hx. unfold rounded, round_mag.
  apply Qle_bool_false in Hx. rewrite Hx.
  destruct (rne (x / pow2 (ulp_exp x)) =? 2 ^ 53)%Z eqn:Hm; unfold mag; simpl fst; simpl snd.
  - apply Z.eqb_eq in Hm. rewrite Hm, pow2_add.
    change (inject_Z (2 ^ 52)) with (pow2 52).
    change (inject_Z (2 ^ 53)) with (pow2 53).
    change (pow2 53) with (pow2 52 * pow2 1). ring.
  - reflexivity.
Qed.

Lemma rounded_nonneg x : 0 <= rounded x.
Proof.
  destruct (Qlt_le_dec 0 x) as [Hx|Hx].
  - rewrite (rounded_pos x Hx).
    apply Qmult_le_0_compat; [|apply Qlt_le_weak, pow2_pos].
    change 0 with (inject_Z 0). rewrite <- Zle_Qle.
    apply rne_nonneg, scale_nonneg. lra.
  - rewrite (rounded_nonpos x Hx). lra.
Qed.

(** A power of two at or above the last place of [x] survives rounding on
    [x]'s grid. *)
Lemma rne_pow2_scaled e k :
  (e <= k)%Z -> inject_Z (rne (pow2 k / pow2 e)) * pow2 e == pow2 k.
Proof.
  intros Hek.
  assert (pow2 k / pow2 e == inject_Z (2 ^ (k - e))) as Hs.
  { rewrite pow2_Z by lia. by rewrite pow2_sub. }
  rewrite (rne_comp _ _ Hs), rne_Z, pow2_Z by lia.
  rewrite <- pow2_add. by replace (k - e + e)%Z with k by lia.
Qed.

(** Rounding keeps the order. *)
Lemma rounded_mono x y : x <= y -> rounded x <= rounded y.
Proof.
  intros Hxy. destruct (Qlt_le_dec 0 x) as [Hx|Hx].
  2:{ rewrite (rounded_nonpos x Hx). apply rounded_nonneg. }
  assert (0 < y) as Hy by lra.
  rewrite (rounded_pos x Hx), (rounded_pos y Hy).
  pose proof (ulp_exp_mono x y Hx Hxy) as He.
  destruct (decide (ulp_exp x = ulp_exp y)) as [Heq|Hne].
  - rewrite Heq. apply Qmult_le_compat_r; [|apply Qlt_le_weak, pow2_pos].
    rewrite <- Zle_Qle. apply rne_mono, scale_le, Hxy.
  - assert (ulp_exp x < ulp_exp y)%Z as Hlt by lia. clear He Hne.
    set (L := Qlog2 y).
    assert (ulp_exp y = L - 52)%Z as Hey.
    { unfold ulp_exp in *. fold L. lia. }
    assert (Qlog2 x + 1 <= L)%Z as HL.
    { unfold ulp_exp in *. fold L in Hlt. lia. }
    destruct (Qlog2_spec x Hx) as [_ Hx2].
    destruct (Qlog2_spec y Hy) as [Hy1 _]. fold L in Hy1.
    assert (x <= pow2 L) as HxL.
    { pose proof (pow2_le _ _ HL). lra. }
    apply Qle_trans with (pow2 L).
    + rewrite <- (rne_pow2_scaled (ulp_exp x) L) by lia.
      apply Qmult_le_compat_r; [|apply Qlt_le_weak, pow2_pos].
      rewrite <- Zle_Qle. apply rne_mono, scale_le, HxL.
    + rewrite <- (rne_pow2_scaled (ulp_exp y) L) at 1 by lia.
      apply Qmult_le_compat_r; [|apply Qlt_le_weak, pow2_pos].
      rewrite <- Zle_Qle. apply rne_mono, scale_le, Hy1.
Qed.

(** The binade of [m * 2^e]. *)
Lemma Qlog2_mag m e : (0 < m)%Z -> Qlog2 (mag m e) = (Z.log2 m + e)%Z.
Proof.
  intros Hm. apply Qlog2_unique. unfold mag.
  destruct (Z.log2_spec m Hm) as [H1 H2]. pose proof (Z.log2_nonneg m).
  rewrite Zle_Qle in H1. rewrite Zlt_Qlt in H2.
  rewrite pow2_Z in H1, H2 by lia.
  replace (Z.log2 m + e + 1)%Z with (Z.succ (Z.log2 m) + e)%Z by lia.
  rewrite !pow2_add. pose proof (pow2_pos e). split.
  - apply Qmult_le_compat_r; [done|lra].
  - apply Qmult_lt_r; done.
Qed.

(** A float is its own nearest float. *)
Lemma rounded_exact m e :
  (0 <= m < 2 ^ 53)%Z -> (emin <= e)%Z -> rounded (mag m e) == mag m e.
Proof.
  intros [Hm0 Hm] He.
  destruct (decide (m = 0%Z)) as [->|Hnz].
  { rewrite rounded_nonpos; unfold mag; [ring|]. rewrite Qmult_0_l. lra. }
  assert (0 < m)%Z as Hpos by lia.
  assert (0 < mag m e) as Hx.
  { unfold mag. apply Qmult_lt_0_compat; [|apply pow2_pos].
    change 0 with (inject_Z 0). by rewrite <- Zlt_Qlt. }
  rewrite (rounded_pos _ Hx).
  assert (ulp_exp (mag m e) <= e)%Z as Hulp.
  { unfold ulp_exp. rewrite (Qlog2_mag m e Hpos).
    assert (Z.log2 m < 53)%Z by (apply Z.log2_lt_pow2; lia). lia. }
  set (u := ulp_exp (mag m e)) in *.
  assert (mag m e / pow2 u == inject_Z (m * 2 ^ (e - u))) as Hs.
  { rewrite inject_Z_mult, pow2_Z by lia. unfold mag.
    rewrite pow2_sub. pose proof (pow2_pos u). field. lra. }
  rewrite (rne_comp _ _ Hs), rne_Z, inject_Z_mult, pow2_Z by lia.
  unfold mag. rewrite <- Qmult_assoc, <- pow2_add.
  by replace (e - u + u)%Z with e by lia.
Qed.

(** The mantissa of a result of rounding. *)
Lemma round_mag_mantissa x : (0 <= fst (round_mag x) < 2 ^ 53)%Z.
Proof.
  unfold round_mag. destruct (Qle_bool x 0) eqn:Hx; [simpl; lia|].
  apply Qle_bool_false in Hx.
  destruct (rne (x / pow2 (ulp_exp x)) =? 2 ^ 53)%Z eqn:Hm; [simpl; lia|].
  apply Z.eqb_neq in Hm. simpl.
  set (u := ulp_exp x) in *.
  assert (0 <= rne (x / pow2 u))%Z.
  { apply rne_nonneg, scale_nonneg. lra. }
  assert (rne (x / pow2 u) <= 2 ^ 53)%Z; [|lia].
  rewrite <- (rne_Z (2 ^ 53)). apply rne_mono.
  apply Qle_shift_div_r; [apply pow2_pos|].
  change (inject_Z (2 ^ 53)) with (pow2 53). rewrite <- pow2_add.
  destruct (Qlog2_spec x Hx) as [_ Hhi].
  assert (pow2 (Qlog2 x + 1) <= pow2 (53 + u)); [|lra].
  apply pow2_le. unfold u, ulp_exp. lia.
Qed.

(** No overflow below a float that is itself below [2^1024]. *)
Lemma no_overflow x m e :
  (0 <= m < 2 ^ 53)%Z -> (emin <= e)%Z ->
  x <= mag m e -> mag m e < pow2 1024 ->
  overflows (round_mag x) = false.
Proof.
  intros Hm He Hx Hb. unfold overflows. apply Qle_bool_false.
  fold (rounded x). pose proof (rounded_mono _ _ Hx) as Hr.
  rewrite (rounded_exact m e Hm He) in Hr. lra.
Qed.

(** The exponent of a result of rounding. *)
Lemma round_mag_exponent x : (emin <= snd (round_mag x))%Z.
Proof.
  unfold round_mag. destruct (Qle_bool x 0); [simpl; lia|].
  destruct (_ =? _)%Z; simpl; unfold ulp_exp; lia.
Qed.

Lemma mag_pos m e : (0 < m)%Z -> 0 < mag m e.
Proof.
  intros Hm. unfold mag. apply Qmult_lt_0_compat; [|apply pow2_pos].
  change 0 with (inject_Z 0). by rewrite <- Zlt_Qlt.
Qed.

Lemma mag_nonneg m e : (0 <= m)%Z -> 0 <= mag m e.
Proof.
  intros Hm. unfold mag. apply Qmult_le_0_compat.
  - change 0 with (inject_Z 0). by rewrite <- Zle_Qle.
  - apply Qlt_le_weak, pow2_pos.
Qed.

Lemma mag_pow2 k : mag 1 k == pow2 k.
Proof. unfold mag. change (inject_Z 1) with 1. ring. Qed.

Lemma mag_int n : mag n 0 == inject_Z n.
Proof. unfold mag. change (pow2 0) with 1. ring. Qed.

Lemma mag_le m n e : (m <= n)%Z -> mag m e <= mag n e.
Proof.
  intros Hmn. unfold mag.
  apply Qmult_le_compat_r; [|apply Qlt_le_weak, pow2_pos].
  by rewrite <- Zle_Qle.
Qed.

(** *** Squares *)

Lemma Qmult_le_nonneg_l c x y : 0 <= c -> x <= y -> c * x <= c * y.
Proof.
  intros Hc Hxy. rewrite (Qmult_comm c x), (Qmult_comm c y).
  by apply Qmult_le_compat_r.
Qed.

Lemma Qsquare_le a b : 0 <= a -> a <= b -> a * a <= b * b.
Proof.
  intros Ha Hab. apply Qle_trans with (a * b).
  - by apply Qmult_le_nonneg_l.
  - apply Qmult_le_compat_r; [done|lra].
Qed.

Lemma Qsquare_lt_inv a b : 0 <= b -> a * a < b * b -> a < b.
Proof.
  intros Hb Hlt. apply Qnot_le_lt. intros Hba.
  pose proof (Qsquare_le b a Hb Hba). lra.
Qed.

(** The square of a float. *)
Lemma mag_square m e : mag m e * mag m e == inject_Z (m * m) * pow2 (2 * e).
Proof.
  unfold mag. replace (2 * e)%Z with (e + e)%Z by lia.
  rewrite pow2_add, inject_Z_mult. ring.
Qed.

(** *** Square roots *)

(** [sqrt_mag] returns a normal float next to the square root: the root
    lies strictly between the float below it and the float above it. *)
Lemma sqrt_mag_within_one_ulp m e :
  (0 < m < 2 ^ 53)%Z -> (emin <= e)%Z ->
  let m' := fst (sqrt_mag m e) in
  let e' := snd (sqrt_mag m e) in
  (2 ^ 52 <= m' < 2 ^ 53)%Z /\ (emin <= e')%Z /\
  mag (m' - 1) e' * mag (m' - 1) e' < mag m e /\
  mag m e < mag (m' + 1) e' * mag (m' + 1) e'.
Proof.
  intros [Hm0 Hm] He. unfold sqrt_mag.
  set (lg := ((Z.log2 m + e) / 2)%Z).
  set (E := (lg - 52)%Z).
  set (t := (e - 2 * E)%Z).
  set (N := (m * 2 ^ t)%Z).
  set (q := Z.sqrt N).
  set (r := if (q <? N - q * q)%Z then (q + 1)%Z else q).
  assert (Z.log2 m < 53)%Z as Hlog by (apply Z.log2_lt_pow2; lia).
  pose proof (Z.log2_nonneg m) as Hlog0.
  assert (2 * lg <= Z.log2 m + e <= 2 * lg + 1)%Z as Hlg.
  { unfold lg. pose proof (Z.div_mod (Z.log2 m + e) 2 ltac:(lia)).
    pose proof (Z.mod_pos_bound (Z.log2 m + e) 2 ltac:(lia)). lia. }
  assert (0 <= t)%Z as Ht by (unfold t, E; lia).
  assert (104 <= Z.log2 m + t <= 105)%Z as Hmt by (unfold t, E; lia).
  destruct (Z.log2_spec m Hm0) as [Hlo Hhi].
  assert (2 ^ 104 <= N < 2 ^ 106)%Z as HN.
  { unfold N. split.
    - apply Z.le_trans with (2 ^ Z.log2 m * 2 ^ t)%Z.
      + rewrite <- Z.pow_add_r by lia. apply Z.pow_le_mono_r; lia.
      + apply Z.mul_le_mono_nonneg_r; [apply Z.pow_nonneg; lia|exact Hlo].
    - apply Z.lt_le_trans with (2 ^ Z.succ (Z.log2 m) * 2 ^ t)%Z.
      + apply Z.mul_lt_mono_pos_r; [apply Z.pow_pos_nonneg; lia|exact Hhi].
      + rewrite <- Z.pow_add_r by lia. apply Z.pow_le_mono_r; lia. }
  assert (2 ^ 52 <= q < 2 ^ 53)%Z as Hq.
  { split.
    - change (2 ^ 52)%Z with (Z.sqrt (2 ^ 104)). apply Z.sqrt_le_mono. lia.
    - apply Z.sqrt_lt_square; [lia|lia|].
      change (2 ^ 53 * 2 ^ 53)%Z with (2 ^ 106)%Z. lia. }
  pose proof (Z.sqrt_spec N ltac:(lia)) as Hsqrt. fold q in Hsqrt.
  unfold Z.succ in Hsqrt.
  assert (2 ^ 52 <= r <= 2 ^ 53 /\ (r - 1) * (r - 1) < N < (r + 1) * (r + 1))%Z
    as [Hr Hrn].
  { unfold r. destruct (Z.ltb_spec q (N - q * q)); split; nia. }
  assert (mag m e == inject_Z N * pow2 (2 * E)) as Hx.
  { unfold mag, N. rewrite inject_Z_mult, pow2_Z by lia.
    rewrite <- Qmult_assoc, <- pow2_add.
    by replace (t + 2 * E)%Z with e by (unfold t; lia). }
  assert (emin <= E)%Z as HE by (unfold E, emin in *; lia).
  assert (forall a b : Z, (a < b)%Z ->
            inject_Z a * pow2 (2 * E) < inject_Z b * pow2 (2 * E)) as Hscale.
  { intros a b Hab. apply Qmult_lt_compat_r; [apply pow2_pos|].
    by rewrite <- Zlt_Qlt. }
  destruct (Z.eqb_spec r (2 ^ 53)) as [Hr53|Hr53]; cbn [fst snd].
  - split; [lia|]. split; [lia|]. rewrite Hx.
    assert (forall k, mag k (E + 1) == mag (2 * k) E) as Hshift.
    { intros k. unfold mag. rewrite pow2_add, inject_Z_mult.
      change (pow2 1) with (inject_Z 2). ring. }
    rewrite !Hshift, !mag_square. split; apply Hscale; nia.
  - split; [lia|]. split; [lia|]. rewrite Hx, !mag_square.
    split; apply Hscale; nia.
Qed.

Lemma pow_rounded_within_one_ulp : within_one_ulp pow_rounded.
Proof.
  intros m e Hm He.
  exists (fst (sqrt_mag m e)), (snd (sqrt_mag m e)).
  split; [reflexivity|]. by apply sqrt_mag_within_one_ulp.
Qed.

(** *** What an accurate [pow] gives *)

(** With such a [pow], [pow_half] returns a normal float next to the square
    root, also where CPython answers itself. *)
Lemma pow_half_within_one_ulp libm_pow m e :
  within_one_ulp libm_pow -> (0 < m < 2 ^ 53)%Z -> (emin <= e)%Z ->
  exists m' e',
    pow_half libm_pow (Fin false m e) = Ok (PyFloat (Fin false m' e')) /\
    (2 ^ 52 <= m' < 2 ^ 53)%Z /\ (emin <= e')%Z /\
    mag (m' - 1) e' * mag (m' - 1) e' < mag m e /\
    mag m e < mag (m' + 1) e' * mag (m' + 1) e'.
Proof.
  intros Hacc Hm He. unfold pow_half.
  destruct (Z.eqb_spec m 0) as [|_]; [lia|].
  destruct (Qeq_bool (mag m e) 1) eqn:Hone.
  - apply Qeq_bool_iff in Hone. exists (2 ^ 52)%Z, (-52)%Z.
    split; [reflexivity|]. split; [lia|]. split; [done|].
    rewrite Hone. split; by vm_compute.
  - destruct (Hacc m e Hm He) as (m' & e' & -> & Hrest). eauto.
Qed.

(** The float next to the square root of a number of at most [2^53] is at
    most [2^28]. *)
Lemma within_one_ulp_bound m' e' x :
  (2 ^ 52 <= m')%Z ->
  mag (m' - 1) e' * mag (m' - 1) e' < x -> x <= pow2 53 ->
  mag m' e' <= pow2 28.
Proof.
  intros Hm Hlo Hx.
  assert (0 <= mag (m' - 1) e') as Hnonneg by (apply mag_nonneg; lia).
  assert (mag (m' - 1) e' < pow2 27) as Hlt.
  { apply Qsquare_lt_inv; [apply Qlt_le_weak, pow2_pos|].
    rewrite <- pow2_add. change (27 + 27)%Z with 54%Z.
    pose proof (pow2_lt 53 54 ltac:(lia)). lra. }
  apply Qle_trans with (mag (2 * (m' - 1)) e'); [apply mag_le; lia|].
  assert (mag (2 * (m' - 1)) e' == 2 * mag (m' - 1) e') as ->.
  { unfold mag. rewrite inject_Z_mult. change (inject_Z 2) with 2. ring. }
  change (pow2 28) with (2 * pow2 27). lra.
Qed.

(** The float next to the square root of a number that is at least 1 is at
    least 1. *)
Lemma within_one_ulp_at_least_one m' e' x :
  (2 ^ 52 <= m' < 2 ^ 53)%Z ->
  1 <= x -> x < mag (m' + 1) e' * mag (m' + 1) e' ->
  1 <= mag m' e'.
Proof.
  intros Hm Hx Hhi. destruct (Z.le_gt_cases (-52) e') as [He|He].
  - apply Qle_trans with (mag (2 ^ 52) e'); [|apply mag_le; lia].
    unfold mag. rewrite pow2_Z, <- pow2_add by lia.
    change 1 with (pow2 0). apply pow2_le. lia.
  - exfalso.
    assert (mag (m' + 1) e' <= 1) as Hle.
    { apply Qle_trans with (mag (2 ^ 53) e'); [apply mag_le; lia|].
      unfold mag. rewrite pow2_Z, <- pow2_add by lia.
      change 1 with (pow2 0). apply pow2_le. lia. }
    assert (0 <= mag (m' + 1) e') as Hnonneg by (apply mag_nonneg; lia).
    pose proof (Qsquare_le _ _ Hnonneg Hle). lra.
Qed.

(** *** The error of rounding *)

Lemma rne_error z :
  inject_Z (rne z) - (1 # 2) <= z /\ z <= inject_Z (rne z) + (1 # 2).
Proof.
  unfold rne. pose proof (Qfloor_le z) as Hlo. pose proof (Qlt_floor z) as Hhi.
  rewrite inject_Z_plus in Hhi. change (inject_Z 1) with 1 in Hhi.
  destruct (Qcompare_spec (z - inject_Z (Qfloor z)) (1 # 2));
    [destruct (Z.even (Qfloor z))| |];
    rewrite ?inject_Z_plus; change (inject_Z 1) with 1; lra.
Qed.

(** From 1 on, rounding changes a number by at most one part in [2^53]. *)
Lemma rounded_error y :
  1 <= y ->
  y * (1 - (1 # 9007199254740992)) <= rounded y /\
  rounded y <= y * (1 + (1 # 9007199254740992)).
Proof.
  intros Hy. assert (0 < y) as Hpos by lra.
  rewrite (rounded_pos y Hpos).
  destruct (Qlog2_spec y Hpos) as [Hlo _].
  assert (0 <= Qlog2 y)%Z as Hlog.
  { assert (0 < 1) as Hone by reflexivity.
    pose proof (Qlog2_mono 1 y Hone Hy) as Hmono.
    change 1 with (pow2 0) in Hmono. by rewrite Qlog2_pow2 in Hmono. }
  assert (ulp_exp y = Qlog2 y - 52)%Z as He by (unfold ulp_exp, emin; lia).
  set (e := ulp_exp y) in *. set (z := y / pow2 e).
  destruct (rne_error z) as [Hz1 Hz2].
  pose proof (pow2_pos e) as Hu.
  assert (y == z * pow2 e) as Hyz by (unfold z; field; lra).
  assert (pow2 e * 4503599627370496 <= y) as Hulp.
  { change 4503599627370496 with (pow2 52). rewrite <- pow2_add.
    by replace (e + 52)%Z with (Qlog2 y) by lia. }
  set (R := inject_Z (rne z)) in *. set (U := pow2 e) in *.
  split; nra.
Qed.

Lemma Qfloor_unique z x :
  inject_Z z <= x -> x < inject_Z (z + 1) -> Qfloor x = z.
Proof.
  intros Hlo Hhi.
  pose proof (Qfloor_le x) as H1. pose proof (Qlt_floor x) as H2.
  assert (z < Qfloor x + 1)%Z by (rewrite Zlt_Qlt; lra).
  assert (Qfloor x < z + 1)%Z by (rewrite Zlt_Qlt; lra).
  lia.
Qed.

End Rounding.

(** ** The safe scale in floating point *)

Section Safe_scale.

Import Float64.
Local Open Scope Q_scope.

Variable libm_pow : libm.

Lemma get_safe_scale_factor w h dim :
  get_safe_scale libm_pow w h dim =
  match aspect_factor libm_pow w h with
  | Raise e => Raise e
  | Ok c => scale_by c dim
  end.
Proof.
  unfold get_safe_scale, aspect_factor, scale_by.
  by destruct (if (w >? h)%Z then truediv w h else truediv h w).
Qed.

Lemma aspect_factor_divisor w h :
  aspect_factor libm_pow w h =
  match truediv (Z.max w h) (Z.min w h) with
  | Raise e => Raise e
  | Ok ratio => pow_half libm_pow ratio
  end.
Proof.
  unfold aspect_factor. destruct (w >? h)%Z eqn:Hwh.
  - apply Z.gtb_lt in Hwh. by rewrite Z.max_l, Z.min_r by lia.
  - rewrite Z.gtb_ltb in Hwh. apply Z.ltb_ge in Hwh.
    by rewrite Z.max_r, Z.min_l by lia.
Qed.

Lemma aspect_factor_sym w h :
  aspect_factor libm_pow w h = aspect_factor libm_pow h w.
Proof. by rewrite !aspect_factor_divisor, Z.max_comm, Z.min_comm. Qed.

(** A quotient is a float as rounding makes them. *)
Lemma truediv_float a b r :
  truediv a b = Ok r ->
  exists neg m e, r = Fin neg m e /\ (0 <= m < 2 ^ 53)%Z /\ (emin <= e)%Z.
Proof.
  unfold truediv. destruct (b =? 0)%Z; [done|].
  destruct (overflows _); [done|]. intros [= <-].
  eexists _, _, _. split; [reflexivity|]. split.
  - apply round_mag_mantissa.
  - apply round_mag_exponent.
Qed.

(** With an accurate [pow], the factor is a complex number or a float that
    is not negative. *)
Lemma aspect_factor_shape w h c :
  within_one_ulp libm_pow ->
  aspect_factor libm_pow w h = Ok c ->
  c = PyComplex \/
  exists m e, c = PyFloat (Fin false m e) /\ (0 <= m)%Z.
Proof.
  intros Hacc Hc. unfold aspect_factor in Hc.
  destruct (if (w >? h)%Z then truediv w h else truediv h w) as [r|err] eqn:Hr;
    [|done].
  assert (exists neg m e, r = Fin neg m e /\ (0 <= m < 2 ^ 53)%Z /\ (emin <= e)%Z)
    as (neg & m & e & -> & Hm & He).
  { destruct (w >? h)%Z; eapply truediv_float; eassumption. }
  destruct (decide (m = 0%Z)) as [->|Hnz].
  { injection Hc as <-. right. eexists _, _. split; [reflexivity|lia]. }
  destruct neg.
  - unfold pow_half in Hc. destruct (Z.eqb_spec m 0); [done|].
    injection Hc as <-. by left.
  - destruct (pow_half_within_one_ulp libm_pow m e Hacc ltac:(lia) He)
      as (m' & e' & Hp & Hm' & _).
    rewrite Hp in Hc. injection Hc as <-.
    right. eexists _, _. split; [reflexivity|lia].
Qed.

(** Scaling a float that is not negative by a positive [dim], when it
    returns. *)
Lemma scale_by_float m e dim v :
  (0 < dim)%Z ->
  scale_by (PyFloat (Fin false m e)) dim = Ok v ->
  v = Qfloor (rounded (mag m e * rounded (inject_Z dim))).
Proof.
  intros Hdim. unfold scale_by, mul_int, of_int.
  rewrite Z.abs_eq by lia.
  destruct (overflows (round_mag (inject_Z dim))); [done|].
  unfold mul. fold (rounded (inject_Z dim)).
  destruct (overflows _); [done|].
  assert (is_neg dim = false) as ->.
  { unfold is_neg. apply Z.ltb_ge. lia. }
  simpl. by intros [= <-].
Qed.

Lemma scale_by_complex dim v : scale_by PyComplex dim <> Ok v.
Proof.
  unfold scale_by, mul_int. by destruct (of_int dim).
Qed.

(** Integers up to [2^53] are floats. *)
Lemma rounded_int n :
  (0 <= n <= 2 ^ 53)%Z -> rounded (inject_Z n) == inject_Z n.
Proof.
  intros Hn. destruct (decide (n = 2 ^ 53)%Z) as [->|Hne].
  - assert (inject_Z (2 ^ 53) == mag 1 53) as Hm.
    { rewrite mag_pow2. by rewrite pow2_Z. }
    rewrite (rounded_comp _ _ Hm), Hm. apply rounded_exact; [lia|done].
  - rewrite <- (mag_int n) at 2. rewrite <- (rounded_exact n 0); [|lia|done].
    by rewrite (rounded_comp _ _ (Qeq_sym _ _ (mag_int n))).
Qed.

(** Scaling a float of at most [2^28] by a [dim] of at most [2^53]
    returns. *)
Lemma scale_by_returns m e dim :
  (0 <= m)%Z -> mag m e <= pow2 28 -> (0 < dim <= 2 ^ 53)%Z ->
  scale_by (PyFloat (Fin false m e)) dim
  = Ok (Qfloor (rounded (mag m e * rounded (inject_Z dim)))).
Proof.
  intros Hm Hc Hdim. unfold scale_by, mul_int, of_int.
  rewrite Z.abs_eq by lia.
  assert (inject_Z dim <= mag 1 53) as Hd.
  { rewrite mag_pow2, <- pow2_Z by lia. rewrite <- Zle_Qle. lia. }
  assert (forall k, (k < 1024)%Z -> mag 1 k < pow2 1024) as Hsmall.
  { intros k Hk. rewrite mag_pow2. by apply pow2_lt. }
  rewrite (no_overflow _ 1 53); [|lia|done|exact Hd|by apply Hsmall].
  unfold mul. fold (rounded (inject_Z dim)).
  rewrite (no_overflow _ 1 81); [|lia|done| |by apply Hsmall].
  - assert (is_neg dim = false) as ->.
    { unfold is_neg. apply Z.ltb_ge. lia. }
    reflexivity.
  - rewrite mag_pow2. change (pow2 81) with (pow2 28 * pow2 53).
    pose proof (mag_nonneg m e Hm).
    pose proof (rounded_nonneg (inject_Z dim)).
    assert (rounded (inject_Z dim) <= pow2 53) as Hrd.
    { rewrite rounded_int by lia. by rewrite <- mag_pow2. }
    apply Qle_trans with (pow2 28 * rounded (inject_Z dim)).
    + by apply Qmult_le_compat_r.
    + apply Qmult_le_l; [apply pow2_pos|done].
Qed.

(** The quotient of a nonzero integer by itself is [1.0], and its power is
    [1.0] whatever the C library does: CPython does not ask it. *)
Lemma aspect_factor_square w :
  w <> 0%Z -> aspect_factor libm_pow w w = Ok (PyFloat one).
Proof.
  intros Hw. unfold aspect_factor.
  rewrite Z.gtb_ltb, Z.ltb_irrefl. unfold truediv.
  destruct (w =? 0)%Z eqn:Hz; [apply Z.eqb_eq in Hz; done|].
  assert (Qabs (inject_Z w / inject_Z w) == 1) as Hone.
  { assert (inject_Z w / inject_Z w == 1) as ->; [|reflexivity].
    field. intros Heq. apply Hw, inject_Z_injective, Heq. }
  rewrite (round_mag_comp _ _ Hone).
  assert (round_mag 1 = (2 ^ 52, -52)%Z) as -> by (by vm_compute).
  assert (overflows (2 ^ 52, -52)%Z = false) as -> by (by vm_compute).
  assert (xorb (is_neg w) (is_neg w) = false) as -> by (by destruct (is_neg w)).
  by vm_compute.
Qed.

(** With an accurate [pow], on images whose sides are at most [2^53] the
    factor is a normal float next to the square root of the rounded
    quotient of the sides; it lies between 1 and [2^28]. *)
Lemma aspect_factor_accurate w h :
  within_one_ulp libm_pow ->
  (0 < w <= 2 ^ 53)%Z -> (0 < h <= 2 ^ 53)%Z ->
  let x := inject_Z (Z.max w h) / inject_Z (Z.min w h) in
  exists m e, aspect_factor libm_pow w h = Ok (PyFloat (Fin false m e)) /\
              (2 ^ 52 <= m < 2 ^ 53)%Z /\ (emin <= e)%Z /\
              1 <= x /\
              mag (m - 1) e * mag (m - 1) e < rounded x /\
              rounded x < mag (m + 1) e * mag (m + 1) e /\
              1 <= mag m e /\ mag m e <= pow2 28.
Proof.
  intros Hacc Hw Hh. rewrite aspect_factor_divisor.
  set (a := Z.max w h). set (b := Z.min w h).
  assert (0 < b <= a)%Z as Hba by (unfold a, b; lia).
  assert (a <= 2 ^ 53)%Z as Ha by (unfold a; lia).
  clearbody a b. intros x. unfold truediv.
  destruct (b =? 0)%Z eqn:Hz; [apply Z.eqb_eq in Hz; lia|].
  assert (0 < inject_Z b) as Hb.
  { change 0 with (inject_Z 0). rewrite <- Zlt_Qlt. lia. }
  assert (0 <= x) as Hnonneg.
  { apply Qle_shift_div_l; [exact Hb|]. rewrite Qmult_0_l.
    change 0 with (inject_Z 0). rewrite <- Zle_Qle. lia. }
  assert (Qabs x == x) as Habs by (by apply Qabs_pos).
  fold x. rewrite (round_mag_comp _ _ Habs).
  assert (x <= mag 1 53) as Hx.
  { apply Qle_shift_div_r; [exact Hb|].
    rewrite mag_pow2, <- pow2_Z, <- inject_Z_mult, <- Zle_Qle by lia. nia. }
  assert (1 <= x) as Hx1.
  { apply Qle_shift_div_l; [exact Hb|].
    rewrite Qmult_1_l, <- Zle_Qle. lia. }
  rewrite (no_overflow x 1 53); [|lia|done|exact Hx|].
  2:{ rewrite mag_pow2. by apply pow2_lt. }
  assert (is_neg a = false) as ->.
  { unfold is_neg. apply Z.ltb_ge. lia. }
  assert (is_neg b = false) as ->.
  { unfold is_neg. apply Z.ltb_ge. lia. }
  simpl xorb.
  pose proof (round_mag_mantissa x) as Hm.
  pose proof (round_mag_exponent x) as He.
  assert (rounded x <= pow2 53) as Hle.
  { rewrite <- mag_pow2.
    rewrite <- (rounded_exact 1 53); [|lia|done]. by apply rounded_mono. }
  assert (1 <= rounded x) as Hge.
  { rewrite <- (mag_int 1) at 1.
    rewrite <- (rounded_exact 1 0); [|lia|done]. apply rounded_mono.
    by rewrite mag_int. }
  unfold rounded in *.
  destruct (round_mag x) as [m0 e0]. simpl fst in *. simpl snd in *.
  assert (m0 <> 0%Z) as Hm0.
  { intros ->. unfold mag in Hge. change (inject_Z 0) with 0 in Hge.
    rewrite Qmult_0_l in Hge. by apply Hge. }
  destruct (pow_half_within_one_ulp libm_pow m0 e0 Hacc ltac:(lia) He)
    as (m' & e' & -> & Hm' & He' & Hlo & Hhi).
  exists m', e'. split; [reflexivity|]. do 5 (split; [done|]). split.
  - by apply (within_one_ulp_at_least_one m' e' (mag m0 e0)).
  - by apply (within_one_ulp_bound m' e' (mag m0 e0)); [lia|..].
Qed.

Lemma aspect_factor_range w h :
  within_one_ulp libm_pow ->
  (0 < w <= 2 ^ 53)%Z -> (0 < h <= 2 ^ 53)%Z ->
  exists m e, aspect_factor libm_pow w h = Ok (PyFloat (Fin false m e)) /\
              (0 <= m)%Z /\ 1 <= mag m e /\ mag m e <= pow2 28.
Proof.
  intros Hacc Hw Hh.
  destruct (aspect_factor_accurate w h Hacc Hw Hh)
    as (m & e & Hc & Hm & _ & _ & _ & _ & H1 & H28).
  exists m, e. repeat split; [done|lia|done..].
Qed.

(** With an accurate [pow], [get_safe_scale] returns on sides and [dim] of
    at most [2^53]. *)
Lemma get_safe_scale_returns w h dim :
  within_one_ulp libm_pow ->
  (0 < w <= 2 ^ 53)%Z -> (0 < h <= 2 ^ 53)%Z -> (0 < dim <= 2 ^ 53)%Z ->
  exists v, get_safe_scale libm_pow w h dim = Ok v.
Proof.
  intros Hacc Hw Hh Hdim.
  destruct (aspect_factor_range w h Hacc Hw Hh) as (m & e & Hc & Hm & _ & Hb).
  rewrite get_safe_scale_factor, Hc, scale_by_returns by done. eauto.
Qed.

(** A square image gets [dim] itself, for [dim] up to [2^53]. *)
Lemma get_safe_scale_square w dim :
  (0 < w)%Z -> (0 < dim <= 2 ^ 53)%Z ->
  get_safe_scale libm_pow w w dim = Ok dim.
Proof.
  intros Hw Hdim.
  rewrite get_safe_scale_factor, aspect_factor_square by lia.
  unfold one. rewrite scale_by_returns; [|lia| |done].
  2:{ assert (mag (2 ^ 52) (-52) == pow2 0) as -> by (by vm_compute).
      apply pow2_le. lia. }
  f_equal.
  assert (mag (2 ^ 52) (-52) * rounded (inject_Z dim) == inject_Z dim) as Hv.
  { assert (mag (2 ^ 52) (-52) == 1) as -> by (by vm_compute).
    rewrite rounded_int by lia. ring. }
  rewrite (rounded_comp _ _ Hv).
  rewrite (Qfloor_comp _ _ (rounded_int dim ltac:(lia))). apply Qfloor_Z.
Qed.

(** With an accurate [pow], the result does not decrease when [dim]
    grows. *)
Lemma get_safe_scale_mono w h d1 d2 v1 v2 :
  within_one_ulp libm_pow ->
  (0 < d1 <= d2)%Z ->
  get_safe_scale libm_pow w h d1 = Ok v1 ->
  get_safe_scale libm_pow w h d2 = Ok v2 ->
  (v1 <= v2)%Z.
Proof.
  intros Hacc Hd. rewrite !get_safe_scale_factor.
  destruct (aspect_factor libm_pow w h) as [c|err] eqn:Hc; [|done].
  destruct (aspect_factor_shape w h c Hacc Hc) as [->|(m & e & -> & Hm)].
  { intros H1. by apply scale_by_complex in H1. }
  intros H1 H2.
  apply scale_by_float in H1; [|lia]. apply scale_by_float in H2; [|lia].
  subst v1 v2. apply Qfloor_resp_le, rounded_mono.
  apply Qmult_le_nonneg_l.
  - by apply mag_nonneg.
  - apply rounded_mono. rewrite <- Zle_Qle. lia.
Qed.

(** A float and the floats next to it, by the unit of its last place. *)
Lemma mag_neighbours m e :
  mag (m - 1) e == mag m e - mag 1 e /\ mag (m + 1) e == mag m e + mag 1 e.
Proof.
  unfold mag. unfold Z.sub. rewrite !inject_Z_plus.
  change (inject_Z (- (1))) with (- (1)). change (inject_Z 1) with 1.
  split; ring.
Qed.

(** With an accurate [pow], the specification's example: a 1000 x 500
    image with [dim = 512] gets 724. *)
Lemma get_safe_scale_two_to_one :
  within_one_ulp libm_pow ->
  get_safe_scale libm_pow 1000 500 512 = Ok 724%Z.
Proof.
  intros Hacc. rewrite get_safe_scale_factor. unfold aspect_factor.
  assert ((1000 >? 500)%Z = true) as -> by done.
  assert (truediv 1000 500 = Ok (Fin false (2 ^ 52) (-51))) as ->
    by (by vm_compute).
  destruct (pow_half_within_one_ulp libm_pow (2 ^ 52) (-51) Hacc)
    as (m' & e' & -> & Hm' & He' & Hlo & Hhi); [lia|done|].
  assert (mag (2 ^ 52) (-51) == 2) as Htwo by (by vm_compute).
  rewrite Htwo in Hlo, Hhi.
  rewrite scale_by_returns; [|lia| |lia].
  2:{ apply (within_one_ulp_bound m' e' 2); [lia|done|by vm_compute]. }
  f_equal.
  assert (mag m' e' * rounded (inject_Z 512) == mag m' (e' + 9)) as Hp.
  { rewrite rounded_int by lia. unfold mag. rewrite pow2_add.
    change (inject_Z 512) with (pow2 9). ring. }
  rewrite (rounded_comp _ _ Hp).
  rewrite (Qfloor_comp _ _ (rounded_exact m' (e' + 9) ltac:(lia) ltac:(lia))).
  destruct (mag_neighbours m' e') as [Hbelow Habove].
  rewrite Hbelow in Hlo. rewrite Habove in Hhi.
  assert (mag (2 ^ 52) e' <= mag m' e') as Hu by (apply mag_le; lia).
  assert (mag (2 ^ 52) e' == 4503599627370496 * mag 1 e') as Hu'.
  { unfold mag. change (inject_Z (2 ^ 52)) with 4503599627370496.
    change (inject_Z 1) with 1. ring. }
  rewrite Hu' in Hu.
  assert (mag m' (e' + 9) == 512 * mag m' e') as ->.
  { unfold mag. rewrite pow2_add. change (pow2 9) with 512. ring. }
  pose proof (mag_pos 1 e' ltac:(lia)) as Hupos.
  set (c := mag m' e') in *. set (u := mag 1 e') in *.
  apply Qfloor_unique.
  - change (inject_Z 724) with 724. apply Qnot_lt_le. intros Hc.
    set (k := (724 # 512) * (1 + (1 # 4503599627370496))).
    assert (0 <= c + u) as H0 by lra.
    assert (c + u <= k) as Hk by (unfold k; lra).
    pose proof (Qsquare_le _ _ H0 Hk) as Hsq.
    assert (k * k < 2) as Hk2 by (by vm_compute).
    lra.
  - change (inject_Z (724 + 1)) with 725. apply Qnot_le_lt. intros Hc.
    set (k := (725 # 512) * (1 - (1 # 4503599627370496))).
    assert (0 <= k) as H0 by (by vm_compute).
    assert (k <= c - u) as Hk by (unfold k; lra).
    pose proof (Qsquare_le _ _ H0 Hk) as Hsq.
    assert (2 < k * k) as Hk2 by (by vm_compute).
    lra.
Qed.

End Safe_scale.

(** The exact formula: the largest [v] with [v <= sqrt (max / min) * dim]. *)
Lemma safe_scale_exact_spec w h dim :
  0 < w -> 0 < h ->
  let v := safe_scale_exact w h dim in
  0 <= v /\
  v * v * Z.min w h <= Z.max w h * (dim * dim) < (v + 1) * (v + 1) * Z.min w h.
Proof.
  intros Hw Hh v. subst v. unfold safe_scale_exact.
  set (a := Z.max w h). set (b := Z.min w h).
  assert (0 < b) as Hb by (unfold b; lia).
  assert (0 <= a) as Ha by (unfold a; lia).
  set (n := a * (dim * dim)).
  assert (0 <= n) as Hn by (unfold n; nia).
  pose proof (Z.div_mod n b ltac:(lia)) as Hdiv.
  pose proof (Z.mod_pos_bound n b Hb) as Hmod.
  assert (0 <= n / b) as Hq by (apply Z.div_pos; lia).
  pose proof (Z.sqrt_spec (n / b) Hq) as Hsqrt.
  pose proof (Z.sqrt_nonneg (n / b)) as Hv.
  set (q := n / b) in *. set (v := Z.sqrt q) in *.
  unfold Z.succ in Hsqrt. split; [done|]. nia.
Qed.

(** ** How far the floats are from the exact formula *)

Section Near_exact.

Import Float64.
Local Open Scope Q_scope.

(** A number [p] that approximates [c * d], where [c] is next to the square
    root of an approximation [r] of [x], is within 1 of the integer part
    [s] of the square root of [x * d^2], as long as [s] is below [2^50]. *)
Lemma near_square_root (x r c u d p S : Q) :
  let eps := 1 # 9007199254740992 in
  x * (1 - eps) <= r -> r <= x * (1 + eps) ->
  0 < u -> u * 4503599627370496 <= c ->
  (c - u) * (c - u) < r -> r < (c + u) * (c + u) ->
  0 < d ->
  c * d * (1 - eps) <= p -> p <= c * d * (1 + eps) ->
  0 <= S -> S + 1 <= 1125899906842624 ->
  S * S <= x * (d * d) -> x * (d * d) < (S + 1) * (S + 1) ->
  S - 1 <= p /\ p < S + 2.
Proof.
  intros eps Hr1 Hr2 Hu Huc Hlo Hhi Hd Hp1 Hp2 HS0 HS Hx1 Hx2. subst eps.
  assert (0 <= c) as Hc by nra.
  assert (0 <= c * d) as Hcd by nra.
  assert (0 <= p) as Hp by nra.
  assert (0 < d * d) as Hdd by nra.
  assert (0 <= c * c) as Hcc by nra.
  split.
  - destruct (Qlt_le_dec p (S - 1)) as [Hlt|]; [exfalso|done].
    assert (1 <= S) as HS1 by lra.
    assert (p * p < (S - 1) * (S - 1)) as Hpp by nra.
    assert (c * c * (d * d)
            * ((1 - (1 # 9007199254740992)) * (1 - (1 # 9007199254740992)))
            <= p * p) as B1.
    { assert (0 <= c * d * (1 - (1 # 9007199254740992))) by nra. nra. }
    assert (r < c * c
                * ((1 + (2 # 9007199254740992)) * (1 + (2 # 9007199254740992))))
      as B2.
    { assert (c + u <= c * (1 + (2 # 9007199254740992))) as Hcu by lra.
      assert (0 <= c + u) as Hcu0 by lra.
      pose proof (Qsquare_le _ _ Hcu0 Hcu). nra. }
    set (K1 := (1 - (1 # 9007199254740992)) * (1 - (1 # 9007199254740992))) in *.
    set (K2 := (1 + (2 # 9007199254740992)) * (1 + (2 # 9007199254740992))) in *.
    assert (0 < K1) as HK1 by (by vm_compute).
    assert (0 < K2) as HK2 by (by vm_compute).
    assert (r * (d * d) * K1 < c * c * K2 * (d * d) * K1) as B3.
    { apply Qmult_lt_compat_r; [exact HK1|].
      apply Qmult_lt_compat_r; [exact Hdd|exact B2]. }
    assert (x * (1 - (1 # 9007199254740992)) * (d * d) * K1
            <= r * (d * d) * K1) as B4.
    { apply Qmult_le_compat_r; [|lra].
      apply Qmult_le_compat_r; [exact Hr1|lra]. }
    assert (S * S * ((1 - (1 # 9007199254740992)) * K1)
            <= x * (d * d) * ((1 - (1 # 9007199254740992)) * K1)) as B5.
    { apply Qmult_le_compat_r; [exact Hx1|]. unfold K1. by vm_compute. }
    assert (c * c * (d * d) * K1 * K2 <= p * p * K2) as B6.
    { apply Qmult_le_compat_r; [exact B1|lra]. }
    assert (p * p * K2 <= (S - 1) * (S - 1) * K2) as B7.
    { apply Qmult_le_compat_r; [lra|lra]. }
    assert (S * S * ((1 - (1 # 9007199254740992)) * K1)
            < (S - 1) * (S - 1) * K2) as B8 by lra.
    unfold K1, K2 in B8. clear -B8 HS1 HS.
    assert (0 <= S * S) by nra.
    assert (S * (S * (1 # 1125899906842624)) <= S * 1) by nra.
    nra.
  - apply Qnot_le_lt. intros Hge.
    assert ((S + 2) * (S + 2) <= p * p) as Hpp by nra.
    assert (p * p <= c * c * (d * d)
            * ((1 + (1 # 9007199254740992)) * (1 + (1 # 9007199254740992))))
      as A1.
    { assert (0 <= c * d * (1 + (1 # 9007199254740992))) by nra. nra. }
    assert (c * c
            * ((1 - (2 # 9007199254740992)) * (1 - (2 # 9007199254740992))) < r)
      as A2.
    { assert (c * (1 - (2 # 9007199254740992)) <= c - u) as Hcu by lra.
      assert (0 <= c * (1 - (2 # 9007199254740992))) as Hcu0 by nra.
      pose proof (Qsquare_le _ _ Hcu0 Hcu). nra. }
    set (K1 := (1 + (1 # 9007199254740992)) * (1 + (1 # 9007199254740992))) in *.
    set (K2 := (1 - (2 # 9007199254740992)) * (1 - (2 # 9007199254740992))) in *.
    assert (0 < K1) as HK1 by (by vm_compute).
    assert (0 < K2) as HK2 by (by vm_compute).
    assert (c * c * K2 * (d * d) * K1 < r * (d * d) * K1) as A3.
    { apply Qmult_lt_compat_r; [exact HK1|].
      apply Qmult_lt_compat_r; [exact Hdd|exact A2]. }
    assert (r * (d * d) * K1
            <= x * (1 + (1 # 9007199254740992)) * (d * d) * K1) as A4.
    { apply Qmult_le_compat_r; [|lra].
      apply Qmult_le_compat_r; [exact Hr2|lra]. }
    assert (x * (d * d) * ((1 + (1 # 9007199254740992)) * K1)
            <= (S + 1) * (S + 1) * ((1 + (1 # 9007199254740992)) * K1)) as A5.
    { apply Qmult_le_compat_r; [lra|]. unfold K1. by vm_compute. }
    assert (p * p * K2 <= c * c * (d * d) * K1 * K2) as A6.
    { apply Qmult_le_compat_r; [exact A1|lra]. }
    assert ((S + 2) * (S + 2) * K2 <= p * p * K2) as A7.
    { apply Qmult_le_compat_r; [exact Hpp|lra]. }
    assert ((S + 2) * (S + 2) * K2
            < (S + 1) * (S + 1) * ((1 + (1 # 9007199254740992)) * K1)) as A8
      by lra.
    unfold K1, K2 in A8. clear -A8 HS0 HS.
    assert (0 <= (S + 1) * (S + 1)) by nra.
    assert ((S + 1) * ((S + 1) * (1 # 1125899906842624)) <= (S + 1) * 1) by nra.
    nra.
Qed.

Variable libm_pow : libm.

(** With an accurate [pow], and as long as the exact value is below
    [2^50], [get_safe_scale] is the exact value, one less or one more. *)
Lemma get_safe_scale_near_exact w h dim :
  within_one_ulp libm_pow ->
  (0 < w <= 2 ^ 53)%Z -> (0 < h <= 2 ^ 53)%Z -> (0 < dim <= 2 ^ 53)%Z ->
  (safe_scale_exact w h dim < 2 ^ 50)%Z ->
  exists v, get_safe_scale libm_pow w h dim = Ok v /\
            (safe_scale_exact w h dim - 1 <= v <= safe_scale_exact w h dim + 1)%Z.
Proof.
  intros Hacc Hw Hh Hdim Hs.
  destruct (aspect_factor_accurate libm_pow w h Hacc Hw Hh)
    as (m & e & Hc & Hm & He & Hx1 & Hlo & Hhi & Hc1 & Hc28).
  rewrite get_safe_scale_factor, Hc, scale_by_returns by (first [lia|done]).
  eexists. split; [reflexivity|].
  destruct (safe_scale_exact_spec w h dim ltac:(lia) ltac:(lia))
    as [Hs0 [Hs1 Hs2]].
  set (s := safe_scale_exact w h dim) in *.
  set (a := Z.max w h) in *. set (b := Z.min w h) in *.
  assert (0 < b)%Z as Hb by (unfold b; lia). clearbody a b s.
  set (x := inject_Z a / inject_Z b) in *.
  set (c := mag m e) in *.
  pose proof (rounded_int dim ltac:(lia)) as Hd.
  assert (1 <= inject_Z dim) as Hd1.
  { change 1 with (inject_Z 1). rewrite <- Zle_Qle. lia. }
  assert (0 < inject_Z b) as HB.
  { change 0 with (inject_Z 0). by rewrite <- Zlt_Qlt. }
  assert (1 <= c * rounded (inject_Z dim)) as Hcd by (rewrite Hd; nra).
  destruct (rounded_error _ Hcd) as [Hq1 Hq2].
  set (p := rounded (c * rounded (inject_Z dim))) in *.
  rewrite Hd in Hq1, Hq2.
  destruct (rounded_error x Hx1) as [Hr1 Hr2].
  destruct (mag_neighbours m e) as [Hbelow Habove]. fold c in Hbelow, Habove.
  rewrite Hbelow in Hlo. rewrite Habove in Hhi.
  pose proof (mag_pos 1 e ltac:(lia)) as Hu.
  assert (mag 1 e * 4503599627370496 <= c) as Huc.
  { apply Qle_trans with (mag (2 ^ 52) e); [|apply mag_le; lia].
    unfold mag. change (inject_Z (2 ^ 52)) with 4503599627370496.
    change (inject_Z 1) with 1. lra. }
  assert (x * (inject_Z dim * inject_Z dim) * inject_Z b
          == inject_Z (a * (dim * dim))) as Hxd.
  { rewrite !inject_Z_mult. unfold x. field. lra. }
  assert (inject_Z s - 1 <= p /\ p < inject_Z s + 2) as [Hp1 Hp2].
  { apply (near_square_root x (rounded x) c (mag 1 e) (inject_Z dim) p
             (inject_Z s)); try assumption.
    - lra.
    - change 0 with (inject_Z 0). by rewrite <- Zle_Qle.
    - assert (inject_Z s + 1 == inject_Z (s + 1)) as ->.
      { rewrite inject_Z_plus. reflexivity. }
      change 1125899906842624 with (inject_Z (2 ^ 50)).
      rewrite <- Zle_Qle. lia.
    - apply (Qmult_le_r _ _ (inject_Z b) HB). rewrite Hxd.
      rewrite <- !inject_Z_mult, <- Zle_Qle. lia.
    - apply (Qmult_lt_r _ _ (inject_Z b) HB). rewrite Hxd.
      assert (inject_Z s + 1 == inject_Z (s + 1)) as ->.
      { rewrite inject_Z_plus. reflexivity. }
      rewrite <- !inject_Z_mult, <- Zlt_Qlt. lia. }
  pose proof (Qfloor_le p) as Hfl. pose proof (Qlt_floor p) as Hfu.
  split.
  - assert (s - 1 < Qfloor p + 1)%Z; [|lia].
    rewrite Zlt_Qlt. unfold Z.sub. rewrite inject_Z_plus.
    change (inject_Z (- (1))) with (- (1)). lra.
  - assert (Qfloor p < s + 2)%Z; [|lia].
    rewrite Zlt_Qlt, inject_Z_plus. change (inject_Z 2) with 2. lra.
Qed.

End Near_exact.

(** [get_safe_scale] where the C library is asked, given what it answers. *)
Lemma get_safe_scale_at libm_pow w h dim mr er mc ec :
  (if w >? h then Float64.truediv w h else Float64.truediv h w)
  = Ok (Float64.Fin false mr er) ->
  (mr =? 0) = false ->
  Qeq_bool (Float64.mag mr er) 1 = false ->
  libm_pow (Float64.Fin false mr er) Float64.half = Float64.Fin false mc ec ->
  get_safe_scale libm_pow w h dim
  = scale_by (Float64.PyFloat (Float64.Fin false mc ec)) dim.
Proof.
  intros Hdiv Hnz Hone Hpow. unfold get_safe_scale, scale_by.
  rewrite Hdiv. unfold Float64.pow_half. by rewrite Hnz, Hone, Hpow.
Qed.

(** C8, as the code has it. [get_safe_scale(w, h, dim)] is computed in
    binary64 floats from the quotient of the larger side by the smaller:
    it is the truncation of the float product of [pow(max / min, 1/2)] and
    [dim], with [pow] as the C library computes it.  It is symmetric in [w]
    and [h] on all integers, and for a square image it returns [dim]
    exactly, [dim] up to [2^53]; both whatever the C library does.  With a
    [pow] that is accurate to one unit in the last place: for sides and
    [dim] between 1 and [2^53] it returns a value, which is the exact
    value, one less or one more as long as the exact value is below [2^50];
    it does not decrease when [dim] grows; and
    [get_safe_scale(1000, 500, 512)] is 724. *)
Theorem get_safe_scale_in_floats (libm_pow : Float64.libm) :
  (forall w h dim,
     get_safe_scale libm_pow w h dim =
     match Float64.truediv (Z.max w h) (Z.min w h) with
     | Raise e => Raise e
     | Ok ratio =>
         match Float64.pow_half libm_pow ratio with
         | Raise e => Raise e
         | Ok c => scale_by c dim
         end
     end) /\
  (forall w h dim,
     get_safe_scale libm_pow w h dim = get_safe_scale libm_pow h w dim) /\
  (forall w dim,
     0 < w -> 0 < dim <= 2 ^ 53 -> get_safe_scale libm_pow w w dim = Ok dim) /\
  (Float64.within_one_ulp libm_pow ->
   (forall w h dim,
      0 < w <= 2 ^ 53 -> 0 < h <= 2 ^ 53 -> 0 < dim <= 2 ^ 53 ->
      exists v,
        get_safe_scale libm_pow w h dim = Ok v /\
        (safe_scale_exact w h dim < 2 ^ 50 ->
         safe_scale_exact w h dim - 1 <= v <= safe_scale_exact w h dim + 1)) /\
   (forall w h d1 d2 v1 v2,
      0 < d1 <= d2 ->
      get_safe_scale libm_pow w h d1 = Ok v1 ->
      get_safe_scale libm_pow w h d2 = Ok v2 ->
      v1 <= v2) /\
   get_safe_scale libm_pow 1000 500 512 = Ok 724).
Proof.
  split; [|split; [|split]].
  - intros w h dim. apply get_safe_scale_divisor.
  - intros w h dim.
    by rewrite !get_safe_scale_factor, (aspect_factor_sym libm_pow w h).
  - apply get_safe_scale_square.
  - intros Hacc. split; [|split].
    + intros w h dim Hw Hh Hdim.
      destruct (get_safe_scale_returns libm_pow w h dim Hacc Hw Hh Hdim)
        as [v Hv].
      exists v. split; [exact Hv|]. intros Hs.
      destruct (get_safe_scale_near_exact libm_pow w h dim Hacc Hw Hh Hdim Hs)
        as (v' & Hv' & Hnear).
      rewrite Hv in Hv'. by injection Hv' as <-.
    + intros w h d1 d2 v1 v2. by apply get_safe_scale_mono.
    + by apply get_safe_scale_two_to_one.
Qed.

(** With a [pow] that rounds correctly: a 7 x 7 image keeps [dim]; a
    1920 x 1080 one, whose exact scale for 512 is 682, gets a scale within
    1 of it; and a 1000 x 500 one gets 724. *)
Lemma get_safe_scale_in_floats_witness :
  get_safe_scale Float64.pow_rounded 7 7 300 = Ok 300 /\
  (exists v, get_safe_scale Float64.pow_rounded 1920 1080 512 = Ok v /\
             681 <= v <= 683) /\
  get_safe_scale Float64.pow_rounded 1000 500 512 = Ok 724.
Proof.
  destruct (get_safe_scale_in_floats Float64.pow_rounded)
    as (_ & _ & Hsq & Hacc).
  destruct (Hacc pow_rounded_within_one_ulp) as (Hret & _ & Hex).
  split; [|split].
  - apply (Hsq 7 300); lia.
  - destruct (Hret 1920 1080 512) as (v & Hv & Hnear); [lia..|].
    exists v. split; [exact Hv|]. apply Hnear. by vm_compute.
  - exact Hex.
Defined.

(** C8 fails as stated. A square image with [dim = 2^53 + 1] gets [2^53],
    since [float(2^53 + 1)] is [2^53], the same as with [dim = 2^53]:
    neither the exact value nor [dim]; this whatever the C library does.
    A 49 x 25 image with [dim = 45] gets 62 where the exact formula gives
    63, when [pow(1.96, 0.5)] is [1.4] (the float [0x1.6666666666666p+0]),
    which is what glibc returns and what correct rounding gives.  And a
    side of [2^1024] has no float quotient at all. *)
Lemma get_safe_scale_is_not_the_exact_floor :
  (forall libm_pow, get_safe_scale libm_pow 1 1 (2 ^ 53 + 1) = Ok (2 ^ 53)) /\
  safe_scale_exact 1 1 (2 ^ 53 + 1) = 2 ^ 53 + 1 /\
  (forall libm_pow, get_safe_scale libm_pow 1 1 (2 ^ 53) = Ok (2 ^ 53)) /\
  (forall libm_pow,
     libm_pow (Float64.Fin false 8827055269646172 (-52)) Float64.half
     = Float64.Fin false 6305039478318694 (-52) ->
     get_safe_scale libm_pow 49 25 45 = Ok 62) /\
  Float64.pow_rounded (Float64.Fin false 8827055269646172 (-52)) Float64.half
  = Float64.Fin false 6305039478318694 (-52) /\
  safe_scale_exact 49 25 45 = 63 /\
  63 * 63 * 25 <= 49 * (45 * 45) < 64 * 64 * 25 /\
  (forall libm_pow,
     get_safe_scale libm_pow (2 ^ 1024) 1 1
     = Raise (Exn OverflowError "integer division result too large for a float")).
Proof.
  split; [intros; by vm_compute|]. split; [by vm_compute|].
  split; [intros; by vm_compute|]. split.
  { intros libm_pow Hpow.
    rewrite (get_safe_scale_at libm_pow 49 25 45 _ _ _ _
               ltac:(by vm_compute) eq_refl ltac:(by vm_compute) Hpow).
    by vm_compute. }
  split; [by vm_compute|]. split; [by vm_compute|]. split; [lia|].
  intros; by vm_compute.
Qed.

(** Where glibc's [pow] (2.36, x86-64) is one unit off the correctly
    rounded square root, the result can differ with it; the exact values
    are 103, 485 and 14707219. *)
Lemma get_safe_scale_follows_the_library :
  (forall libm_pow,
     libm_pow (Float64.Fin false 6460071450347971 (-50)) Float64.half
     = Float64.Fin false 5393846065339082 (-51) ->
     get_safe_scale libm_pow 10609 1849 43 = Ok 102) /\
  get_safe_scale Float64.pow_rounded 10609 1849 43 = Ok 103 /\
  (forall libm_pow,
     libm_pow (Float64.Fin false 6620995139676406 (-46)) Float64.half
     = Float64.Fin false 5460614548186727 (-49) ->
     get_safe_scale libm_pow 9409 100 50 = Ok 485) /\
  get_safe_scale Float64.pow_rounded 9409 100 50 = Ok 484 /\
  (forall libm_pow,
     libm_pow (Float64.Fin false 8988434256293615 (-49)) Float64.half
     = Float64.Fin false 8997811863701988 (-51) ->
     get_safe_scale libm_pow 479 30 3680641 = Ok 14707219) /\
  get_safe_scale Float64.pow_rounded 479 30 3680641 = Ok 14707220.
Proof.
  split.
  { intros libm_pow Hpow.
    rewrite (get_safe_scale_at libm_pow 10609 1849 43 _ _ _ _
               ltac:(by vm_compute) eq_refl ltac:(by vm_compute) Hpow).
    by vm_compute. }
  split; [by vm_compute|]. split.
  { intros libm_pow Hpow.
    rewrite (get_safe_scale_at libm_pow 9409 100 50 _ _ _ _
               ltac:(by vm_compute) eq_refl ltac:(by vm_compute) Hpow).
    by vm_compute. }
  split; [by vm_compute|]. split.
  { intros libm_pow Hpow.
    rewrite (get_safe_scale_at libm_pow 479 30 3680641 _ _ _ _
               ltac:(by vm_compute) eq_refl ltac:(by vm_compute) Hpow).
    by vm_compute. }
  by vm_compute.
Qed.

(** * Further properties *)

(** ** Loading, continued *)

Section Loading_outcomes.

Variable srgb_profile : bytes.

(** The body of [load_image] never writes to the error stream. *)
Lemma load_image_body_silent E path proof_prof :
  stderr_lines (snd (run (load_image_body srgb_profile path proof_prof) E)) = [].
Proof.
  rewrite load_image_body_run.
  destruct (Image_open E path) as [img|e]; [|done].
  destruct (source_of srgb_profile E img) as [[src im]|e];
    [|apply stderr_lines_opening].
  destruct proof_prof as [p|].
  - destruct (read_bytes E p) as [proof|e];
      [destruct (profileToProfile E im src proof "CMYK") as [cmyk|e]|];
      cbn [snd]; by rewrite stderr_lines_app, stderr_lines_opening.
  - destruct (decide (src = srgb_profile)); cbn [snd];
      by rewrite stderr_lines_app, stderr_lines_opening.
Qed.

(** X1. [load_image] never lets an [OSError] reach its caller. It ends in one
    of three ways: with an image and a silent error stream; with exit
    status 1 and exactly one line on the error stream, the one of the
    [OSError] its body raised; or with an exception that is not an
    [OSError], raised by a collaborator, and a silent error stream. *)
Theorem load_image_outcomes E path proof_prof :
  let r := fst (run (load_image srgb_profile path proof_prof) E) in
  let t := snd (run (load_image srgb_profile path proof_prof) E) in
  let body := fst (run (load_image_body srgb_profile path proof_prof) E) in
  (forall e, r = Raise e -> is_OSError e = false) /\
  ((exists img, r = Ok img /\ body = Ok img /\ stderr_lines t = []) \/
   (exists e, is_OSError e = true /\ body = Raise e /\
              r = Raise (SystemExit 1) /\ stderr_lines t = [error_line e]) \/
   (exists e, is_OSError e = false /\ body = Raise e /\
              r = Raise e /\ stderr_lines t = [])).
Proof.
  intros r t body. subst r t body.
  pose proof (load_image_body_silent E path proof_prof) as Hsilent.
  destruct (run (load_image_body srgb_profile path proof_prof) E)
    as [[img|e] tb] eqn:Hbody; simpl in Hsilent.
  - unfold load_image. rewrite (run_try_ok _ _ _ _ _ _ Hbody).
    cbn [fst snd]. split; [done|].
    left. by exists img.
  - rewrite (load_image_raise _ _ _ _ _ _ Hbody).
    destruct (is_OSError e) eqn:Hos; cbn [fst snd].
    + split; [by intros ? [= <-]|]. right; left. exists e.
      by rewrite stderr_lines_app, Hsilent.
    + split; [by intros ? [= <-]|]. right; right. by exists e.
Qed.

End Loading_outcomes.

(** ** Saving, continued *)

Section Saving_outcomes.

Variable srgb_profile : bytes.


(** X3. An [OSError] of either encoder ends the process: after the
    announcement (the destination as [str(Path(path))] writes it) the write
    was tried once, the error is the one line on the error stream, the
    exit status is 1. *)
Theorem save_image_OSError_exits E path e :
  is_OSError e = true ->
  (forall im,
     Image_save E im path (save_pil_kwargs srgb_profile path) = Raise e ->
     run (save_image srgb_profile path (PilImage im)) E
     = (Raise (SystemExit 1),
        [EvTqdmWrite ("Writing image to " +:+ path_str path +:+ ".");
         EvImageSave im path (save_pil_kwargs srgb_profile path);
         EvStderr (error_line e)])) /\
  (forall a,
     lower (path_suffix path) ∈ tiff_suffixes ->
     TiffWriter_save E path a "rgb" (72, 72) [icc_tag srgb_profile] = Raise e ->
     run (save_image srgb_profile path (NdArray a)) E
     = (Raise (SystemExit 1),
        [EvTqdmWrite ("Writing image to " +:+ path_str path +:+ ".");
         EvTiffSave path a "rgb" (72, 72) [icc_tag srgb_profile];
         EvStderr (error_line e)])).
Proof.
  intros Hos. split.
  - intros im Hsave.
    unfold run, save_image, save_pil, bind, emit, try_except, call.
    rewrite Hsave, Hos. reflexivity.
  - intros a Hext Hsave.
    unfold run, save_image, save_tiff, bind, emit, try_except, call.
    rewrite bool_decide_eq_true_2 by done. rewrite Hsave, Hos. reflexivity.
Qed.

(** X4. A [ValueError] of the encoder is handled on one path only: raised by
    Pillow it is printed and the process exits with status 1; raised by the
    TIFF writer it is not caught and reaches the caller unprinted.  On
    both paths the announcement, with the destination as [str(Path(path))]
    writes it, comes first. *)
Theorem save_image_ValueError E path msg :
  (forall im,
     Image_save E im path (save_pil_kwargs srgb_profile path)
     = Raise (Exn ValueError msg) ->
     run (save_image srgb_profile path (PilImage im)) E
     = (Raise (SystemExit 1),
        [EvTqdmWrite ("Writing image to " +:+ path_str path +:+ ".");
         EvImageSave im path (save_pil_kwargs srgb_profile path);
         EvStderr (error_line (Exn ValueError msg))])) /\
  (forall a,
     lower (path_suffix path) ∈ tiff_suffixes ->
     TiffWriter_save E path a "rgb" (72, 72) [icc_tag srgb_profile]
     = Raise (Exn ValueError msg) ->
     run (save_image srgb_profile path (NdArray a)) E
     = (Raise (Exn ValueError msg),
        [EvTqdmWrite ("Writing image to " +:+ path_str path +:+ ".");
         EvTiffSave path a "rgb" (72, 72) [icc_tag srgb_profile]])).
Proof.
  split.
  - intros im Hsave.
    unfold run, save_image, save_pil, bind, emit, try_except, call.
    rewrite Hsave. reflexivity.
  - intros a Hext Hsave.
    unfold run, save_image, save_tiff, bind, emit, try_except, call.
    rewrite bool_decide_eq_true_2 by done. rewrite Hsave. reflexivity.
Qed.

End Saving_outcomes.

(** A full disk, for a JPEG and for a TIFF; the destinations are given
    with a leading [./] and a doubled slash, which the announcement
    drops. *)
Lemma save_image_OSError_exits_witness :
  let E := Worlds.full_disk Worlds.disk_full in
  run (save_image Example.srgb "./out.jpg" (PilImage Example.out)) E
  = (Raise (SystemExit 1),
     [EvTqdmWrite "Writing image to out.jpg.";
      EvImageSave Example.out "./out.jpg"
        (save_pil_kwargs Example.srgb "./out.jpg");
      EvStderr (error_line Worlds.disk_full)]) /\
  run (save_image Example.srgb "res//out.tif" (NdArray Worlds.array)) E
  = (Raise (SystemExit 1),
     [EvTqdmWrite "Writing image to res/out.tif.";
      EvTiffSave "res//out.tif" Worlds.array "rgb" (72, 72)
        [icc_tag Example.srgb];
      EvStderr (error_line Worlds.disk_full)]).
Proof.
  destruct (save_image_OSError_exits Example.srgb
              (Worlds.full_disk Worlds.disk_full) "./out.jpg" Worlds.disk_full
              eq_refl) as [Hpil _].
  destruct (save_image_OSError_exits Example.srgb
              (Worlds.full_disk Worlds.disk_full) "res//out.tif"
              Worlds.disk_full eq_refl) as [_ Htiff].
  split.
  - by rewrite (Hpil Example.out eq_refl).
  - rewrite (Htiff Worlds.array); [done| |done]. by vm_compute.
Defined.

(** An encoder that rejects its arguments, for a JPEG and for a TIFF. *)
Lemma save_image_ValueError_witness :
  let E := Worlds.full_disk (Exn ValueError "bad image") in
  fst (run (save_image Example.srgb "out.jpg" (PilImage Example.out)) E)
  = Raise (SystemExit 1) /\
  fst (run (save_image Example.srgb "out.tif" (NdArray Worlds.array)) E)
  = Raise (Exn ValueError "bad image").
Proof.
  destruct (save_image_ValueError Example.srgb
              (Worlds.full_disk (Exn ValueError "bad image")) "out.jpg"
              "bad image") as [Hpil _].
  destruct (save_image_ValueError Example.srgb
              (Worlds.full_disk (Exn ValueError "bad image")) "out.tif"
              "bad image") as [_ Htiff].
  split.
  - by rewrite (Hpil Example.out eq_refl).
  - rewrite (Htiff Worlds.array); [done| |done]. by vm_compute.
Defined.

(** ** What a log can hold *)

Section Logs.

Context {A : Type} (P : event -> Prop).

Lemma logs_ret (a : A) : logs_only P (ret a).
Proof. intros E. constructor. Qed.

Lemma logs_raise (e : exn) : logs_only P (raise e : M A).
Proof. intros E. constructor. Qed.

Lemma logs_call ev (oracle : env -> result A) :
  P ev -> logs_only P (call ev oracle).
Proof. intros Hev E. by repeat constructor. Qed.

Lemma logs_ask (oracle : env -> A) :
  logs_only P (fun E => (Ok (oracle E), [])).
Proof. intros E. constructor. Qed.

Lemma logs_try (body : M A) catches handler :
  logs_only P body -> (forall e, logs_only P (handler e)) ->
  logs_only P (try_except body catches handler).
Proof.
  intros Hbody Hhandler E. specialize (Hbody E).
  unfold run, try_except in *.
  destruct (body E) as [[a|e] t1]; [done|].
  destruct (catches e); [|done].
  specialize (Hhandler e E). unfold run in Hhandler.
  destruct (handler e E) as [r t2]. simpl in *. by apply Forall_app.
Qed.

End Logs.

Lemma logs_emit (P : event -> Prop) ev : P ev -> logs_only P (emit ev).
Proof. intros Hev E. by repeat constructor. Qed.

Lemma logs_bind {A B} (P : event -> Prop) (m : M A) (f : A -> M B) :
  logs_only P m -> (forall a, logs_only P (f a)) -> logs_only P (bind m f).
Proof.
  intros Hm Hf E. specialize (Hm E). unfold run, bind in *.
  destruct (m E) as [[a|e] t1]; [|done].
  specialize (Hf a E). unfold run in Hf.
  destruct (f a E) as [r t2]. simpl in *. by apply Forall_app.
Qed.

(** A log whose entries are all mapped to nothing is read as empty. *)
Lemma omap_Forall_None {B} (f : event -> option B) (P : event -> Prop) t :
  (forall ev, P ev -> f ev = None) -> Forall P t -> omap f t = [].
Proof.
  intros Hf Ht. induction Ht as [|ev t Hev _ IH]; [done|].
  change (omap f (ev :: t))
    with (match f ev with Some y => y :: omap f t | None => omap f t end).
  by rewrite (Hf ev Hev).
Qed.

(** Take a computation apart along its binds, handlers and branches. *)
Ltac logs_step :=
  first
    [ apply logs_ret | apply logs_raise | apply logs_ask
    | apply logs_emit | apply logs_call
    | apply logs_bind; [|intros ?]
    | apply logs_try; [|intros ?]
    | match goal with
      | |- logs_only _ (match ?x with _ => _ end) => destruct x
      | |- logs_only _ (if ?b then _ else _) => destruct b
      | |- logs_only _ (let '(_, _) := ?p in _) => destruct p
      end ].

Section Logs_of_the_module.

Variable srgb_profile : bytes.
Variable P : event -> Prop.

Hypothesis P_open : forall p, P (EvOpen p).
Hypothesis P_convert : forall im m, P (EvConvert im m).
Hypothesis P_cms : forall im s d m, P (EvProfileToProfile im s d m).
Hypothesis P_read : forall p, P (EvReadBytes p).
Hypothesis P_stderr : forall l, P (EvStderr l).

Lemma logs_load_image path proof_prof :
  logs_only P (load_image srgb_profile path proof_prof).
Proof.
  unfold load_image, load_image_body, convert, prof_to_prof, print_error,
    sys_exit.
  repeat logs_step; auto.
Qed.

Hypothesis P_save : forall im p kw, P (EvImageSave im p kw).
Hypothesis P_tiff : forall p a ph res tags, P (EvTiffSave p a ph res tags).
Hypothesis P_tqdm : forall l, P (EvTqdmWrite l).

Lemma logs_save_image path image :
  logs_only P (save_image srgb_profile path image).
Proof.
  unfold save_image, save_pil, save_tiff, print_error, sys_exit.
  repeat logs_step; auto.
Qed.

Hypothesis P_report : forall r, P (EvReport r).
Hypothesis P_props : forall d, P (EvGetDeviceProperties d).
Hypothesis P_tensor : forall d, P (EvTensorTo d).
Hypothesis P_seed : forall n, P (EvManualSeed n).
Hypothesis P_init : forall ds p, P (EvStyleTransferInit ds p).
Hypothesis P_stylize : forall c s n, P (EvStylize c s n).
Hypothesis P_fetch : forall k, P (EvGetImage k).
Hypothesis P_loading : P (EvStdout "Loading model...").

Lemma logs_validate_single d : logs_only P (validate_devices [d]).
Proof.
  intros E. rewrite validate_devices_single. by repeat constructor.
Qed.

Lemma logs_stylize_loaded content_img style_img save_dir :
  logs_only P (stylize_loaded srgb_profile content_img style_img save_dir).
Proof.
  unfold stylize_loaded.
  apply logs_bind; [apply logs_ask|intros available].
  apply logs_bind; [apply logs_validate_single|intros _].
  apply logs_bind.
  { unfold report_devices, report_gpus. repeat logs_step; auto. }
  intros _. unfold touch_devices.
  repeat first [apply logs_save_image | logs_step]; auto.
Qed.

Lemma logs_stylize content_path styles_path save_dir :
  logs_only P (stylize srgb_profile content_path styles_path save_dir).
Proof.
  change (stylize srgb_profile content_path styles_path save_dir)
    with (bind (load_image srgb_profile content_path None) (fun content_img =>
          bind (load_image srgb_profile styles_path None) (fun style_img =>
          stylize_loaded srgb_profile content_img style_img save_dir))).
  apply logs_bind; [apply logs_load_image|intros content_img].
  apply logs_bind; [apply logs_load_image|intros style_img].
  apply logs_stylize_loaded.
Qed.

End Logs_of_the_module.

(** ** The job, continued *)

Section Job_outcomes.

Variable srgb_profile : bytes.

(** [stylize] is its two loads followed by the rest. *)
Lemma stylize_unfold content_path styles_path save_dir :
  stylize srgb_profile content_path styles_path save_dir =
  bind (load_image srgb_profile content_path None) (fun content_img =>
  bind (load_image srgb_profile styles_path None) (fun style_img =>
  stylize_loaded srgb_profile content_img style_img save_dir)).
Proof. reflexivity. Qed.

(** The rest of the job, when torch and the model initialise. *)
Lemma stylize_loaded_run E content_img style_img save_dir :
  fst (run (report_devices [selected_device E]) E) = Ok tt ->
  tensor_to E (selected_device E) = Ok tt ->
  StyleTransfer_init E [selected_device E] "max" = Ok tt ->
  let asked := EvStylize content_img [style_img] (end_scale_of content_img) in
  let rest := run (retrieve_and_save srgb_profile save_dir) E in
  run (stylize_loaded srgb_profile content_img style_img save_dir) E =
  match st_stylize E content_img [style_img] (end_scale_of content_img) with
  | Ok _ => (fst rest, setup_log E ++ asked :: snd rest)
  | Raise e =>
      if is_KeyboardInterrupt e
      then (fst rest, setup_log E ++ asked :: snd rest)
      else (Raise e, setup_log E ++ [asked])
  end.
Proof.
  intros Hr Ht Hi.
  pose proof (validate_devices_single E (selected_device E)) as Hv.
  unfold setup_log, run, stylize_loaded, retrieve_and_save, bind in *.
  fold (selected_device E). rewrite Hv.
  destruct (report_devices [selected_device E] E) as [r3 t3].
  simpl in Hr. subst r3.
  simpl. unfold touch_devices, bind, call, emit, ret, try_except.
  rewrite Ht, Hi. simpl.
  destruct (st_stylize E content_img [style_img] (end_scale_of content_img))
    as [[]|e]; [|destruct (is_KeyboardInterrupt e)];
    try (destruct (st_get_image E "pil") as [[out|]|e']; simpl;
         [destruct (save_image srgb_profile save_dir out E) as [r t]; simpl| |]);
    f_equal; repeat (rewrite <- app_assoc; simpl); reflexivity.
Qed.

(** What a computation never logs is missing from every log of it. *)
Lemma log_misses {A B} (f : event -> option B) (m : M A) E :
  logs_only (fun ev => f ev = None) m -> omap f (snd (run m E)) = [].
Proof.
  intros Hm. by apply (omap_Forall_None f (fun ev => f ev = None)).
Qed.

(** A load opens its file and nothing else. *)
Lemma load_image_opens E path proof_prof :
  opened (snd (run (load_image srgb_profile path proof_prof) E)) = [path].
Proof.
  unfold load_image.
  pose proof (load_image_body_run srgb_profile E path proof_prof) as Hbody.
  unfold run, try_except in *. rewrite Hbody. clear Hbody.
  unfold opening, bind, print_error, emit, sys_exit, raise.
  destruct (Image_open E path) as [img|e]; [|by destruct (is_OSError e)].
  destruct (source_of srgb_profile E img) as [[src im]|e];
    [|destruct (is_OSError e); by destruct (info img !! "icc_profile")].
  destruct proof_prof as [p|].
  - destruct (read_bytes E p) as [proof|e];
      [|destruct (is_OSError e); by destruct (info img !! "icc_profile")].
    destruct (profileToProfile E im src proof "CMYK") as [cmyk|e];
      [|destruct (is_OSError e); by destruct (info img !! "icc_profile")].
    destruct (profileToProfile E cmyk proof srgb_profile "RGB") as [r|e];
      [|destruct (is_OSError e)]; by destruct (info img !! "icc_profile").
  - destruct (decide (src = srgb_profile)) as [Hsame|Hdiff].
    + destruct (Image_convert E im "RGB") as [r|e];
        [|destruct (is_OSError e)]; by destruct (info img !! "icc_profile").
    + destruct (profileToProfile E im src srgb_profile "RGB") as [r|e];
        [|destruct (is_OSError e)]; by destruct (info img !! "icc_profile").
Qed.

(** A load that returns has written nothing to the error stream. *)
Lemma load_image_returns_silent E path proof_prof img :
  fst (run (load_image srgb_profile path proof_prof) E) = Ok img ->
  stderr_lines (snd (run (load_image srgb_profile path proof_prof) E)) = [].
Proof.
  intros Hok.
  destruct (run (load_image srgb_profile path proof_prof) E) as [r t] eqn:Hrun.
  simpl in Hok. subst r. apply load_image_ok in Hrun.
  pose proof (load_image_body_silent srgb_profile E path proof_prof) as Hs.
  by rewrite Hrun in Hs.
Qed.

(** The job, the setup done, as its log up to the stylizer and the rest. *)
Lemma stylize_reached E content_path styles_path save_dir content_img style_img :
  reaches_stylize srgb_profile E content_path styles_path content_img style_img ->
  let loads := snd (run (load_image srgb_profile content_path None) E)
               ++ snd (run (load_image srgb_profile styles_path None) E) in
  let asked := EvStylize content_img [style_img] (end_scale_of content_img) in
  let rest := run (retrieve_and_save srgb_profile save_dir) E in
  run (stylize srgb_profile content_path styles_path save_dir) E =
  match st_stylize E content_img [style_img] (end_scale_of content_img) with
  | Ok _ => (fst rest, loads ++ setup_log E ++ asked :: snd rest)
  | Raise e =>
      if is_KeyboardInterrupt e
      then (fst rest, loads ++ setup_log E ++ asked :: snd rest)
      else (Raise e, loads ++ setup_log E ++ [asked])
  end.
Proof.
  intros (Hc & Hs & Hr & Ht & Hi) loads asked rest. subst loads.
  pose proof (stylize_loaded_run E content_img style_img save_dir Hr Ht Hi)
    as Hrest.
  rewrite stylize_unfold. unfold run, bind in *.
  destruct (load_image srgb_profile content_path None E) as [r1 t1].
  destruct (load_image srgb_profile styles_path None E) as [r2 t2].
  simpl in Hc, Hs. subst r1 r2. rewrite Hrest. cbn [snd].
  destruct (st_stylize E content_img [style_img] (end_scale_of content_img))
    as [[]|e]; [|destruct (is_KeyboardInterrupt e)];
    by rewrite <- app_assoc.
Qed.

(** The entries of the setup. *)
Lemma logs_setup (P : event -> Prop) E :
  (forall r, P (EvReport r)) -> (forall d, P (EvGetDeviceProperties d)) ->
  (forall d, P (EvTensorTo d)) -> (forall n, P (EvManualSeed n)) ->
  (forall ds p, P (EvStyleTransferInit ds p)) ->
  P (EvStdout "Loading model...") ->
  Forall P (setup_log E).
Proof.
  intros P1 P2 P3 P4 P5 P6. unfold setup_log.
  constructor; [done|]. apply Forall_app. split; [|by repeat constructor].
  assert (logs_only P (report_devices [selected_device E])) as Hlogs.
  { unfold report_devices, report_gpus. repeat logs_step; auto. }
  apply Hlogs.
Qed.

(** X14. A run without interruption and with a result: the job ends normally,
    having fetched the result once and handed it once to Pillow with the
    canonical profile to embed, and nothing is on the error stream. *)
Theorem stylize_completed E content_path styles_path save_dir
    content_img style_img im :
  reaches_stylize srgb_profile E content_path styles_path content_img style_img ->
  st_stylize E content_img [style_img] (end_scale_of content_img) = Ok tt ->
  st_get_image E "pil" = Ok (Some (PilImage im)) ->
  Image_save E im save_dir (save_pil_kwargs srgb_profile save_dir) = Ok tt ->
  let result := run (stylize srgb_profile content_path styles_path save_dir) E in
  fst result = Ok tt /\
  fetches (snd result) = ["pil"] /\
  writes (snd result)
  = [ByPillow im save_dir (save_pil_kwargs srgb_profile save_dir)] /\
  save_pil_kwargs srgb_profile save_dir !! "icc_profile"
  = Some (KwBytes srgb_profile) /\
  stderr_lines (snd result) = [].
Proof.
  intros Hready Hdone Hget Hsave result. subst result.
  rewrite (stylize_reached _ _ _ _ _ _ Hready). cbv zeta.
  rewrite Hdone, retrieve_and_save_run, Hget.
  assert (run (save_image srgb_profile save_dir (PilImage im)) E
          = (Ok tt,
             [EvTqdmWrite ("Writing image to " +:+ path_str save_dir +:+ ".");
              EvImageSave im save_dir
                (save_pil_kwargs srgb_profile save_dir)])) as ->.
  { unfold run, save_image, save_pil, bind, emit, try_except, call.
    by rewrite Hsave. }
  cbn [fst snd].
  destruct Hready as (Hc & Hs & _).
  pose proof (load_image_returns_silent E content_path None _ Hc) as Hec.
  pose proof (load_image_returns_silent E styles_path None _ Hs) as Hes.
  split; [done|].
  split; [|split; [|split]].
  - unfold fetches. rewrite !omap_app.
    rewrite !(log_misses _ (load_image _ _ _)) by (by apply logs_load_image).
    rewrite (omap_Forall_None _ _ (setup_log E) (fun ev H => H))
      by (by apply logs_setup).
    reflexivity.
  - unfold writes. rewrite !omap_app.
    rewrite !(log_misses _ (load_image _ _ _)) by (by apply logs_load_image).
    rewrite (omap_Forall_None _ _ (setup_log E) (fun ev H => H))
      by (by apply logs_setup).
    reflexivity.
  - apply save_pil_kwargs_lookup.
  - unfold stderr_lines in *. rewrite !omap_app, Hec, Hes.
    rewrite (omap_Forall_None _ _ (setup_log E) (fun ev H => H))
      by (by apply logs_setup).
    reflexivity.
Qed.

(** X13. An exception of the stylizer other than [KeyboardInterrupt] ends the
    job as raised: the result is not fetched and nothing is saved. *)
Theorem stylize_stylizer_error E content_path styles_path save_dir
    content_img style_img e :
  reaches_stylize srgb_profile E content_path styles_path content_img style_img ->
  st_stylize E content_img [style_img] (end_scale_of content_img) = Raise e ->
  is_KeyboardInterrupt e = false ->
  let result := run (stylize srgb_profile content_path styles_path save_dir) E in
  fst result = Raise e /\
  fetches (snd result) = [] /\
  save_calls (snd result) = [] /\
  writes (snd result) = [].
Proof.
  intros Hready Hfail Hnot result. subst result.
  rewrite (stylize_reached _ _ _ _ _ _ Hready). cbv zeta.
  rewrite Hfail, Hnot. cbn [fst snd]. split; [done|].
  unfold fetches, save_calls, writes. rewrite !omap_app.
  rewrite !(log_misses _ (load_image _ _ _)) by (by apply logs_load_image).
  rewrite !(omap_Forall_None _ _ (setup_log E) (fun ev H => H))
    by (by apply logs_setup).
  done.
Qed.

(** X12. An input that cannot be opened ends the job at once with exit status 1:
    for the content image nothing else has happened, the style image is
    not even opened; for the style image the content image has been loaded
    and no device has been looked at. *)
Theorem stylize_unreadable_input E content_path styles_path save_dir e :
  is_OSError e = true ->
  (Image_open E content_path = Raise e ->
   run (stylize srgb_profile content_path styles_path save_dir) E
   = (Raise (SystemExit 1), [EvOpen content_path; EvStderr (error_line e)])) /\
  (forall content_img,
     fst (run (load_image srgb_profile content_path None) E) = Ok content_img ->
     Image_open E styles_path = Raise e ->
     run (stylize srgb_profile content_path styles_path save_dir) E
     = (Raise (SystemExit 1),
        snd (run (load_image srgb_profile content_path None) E)
        ++ [EvOpen styles_path; EvStderr (error_line e)])).
Proof.
  intros Hos.
  assert (forall path, Image_open E path = Raise e ->
            run (load_image srgb_profile path None) E
            = (Raise (SystemExit 1), [EvOpen path; EvStderr (error_line e)]))
    as Hload.
  { intros path Hopen.
    pose proof (load_image_body_run srgb_profile E path None) as Hbody.
    rewrite Hopen in Hbody.
    by rewrite (load_image_raise _ _ _ _ _ _ Hbody), Hos. }
  split.
  - intros Hopen. rewrite stylize_unfold. unfold run, bind.
    specialize (Hload content_path Hopen). unfold run in Hload.
    by rewrite Hload.
  - intros content_img Hc Hopen. rewrite stylize_unfold. unfold run, bind in *.
    specialize (Hload styles_path Hopen). unfold run in Hload.
    destruct (load_image srgb_profile content_path None E) as [r1 t1].
    simpl in Hc. subst r1. by rewrite Hload.
Qed.

(** X11. The device checks of [stylize] never fire. Whatever the world, neither
    complaint about the devices is printed: of the fixed lines of the
    standard output, the job prints only the one announcing the model (the
    reports on the devices are [EvReport] entries, not fixed lines). *)
Theorem stylize_device_checks_never_fire E content_path styles_path save_dir :
  let t := snd (run (stylize srgb_profile content_path styles_path save_dir) E) in
  Forall (fun l => l = "Loading model...") (stdout_lines t) /\
  ("Devices must all be the same type." ∉ stdout_lines t) /\
  ("Only 1 or 2 devices are supported." ∉ stdout_lines t).
Proof.
  intros t.
  assert (Forall (fun l => l = "Loading model...") (stdout_lines t)) as Hall.
  { apply Forall_forall. intros l Hl.
    assert (logs_only (prints_only ["Loading model..."])
              (stylize srgb_profile content_path styles_path save_dir)) as Hlogs.
    { apply logs_stylize; unfold prints_only; intros; try discriminate.
      simplify_eq. by apply list_elem_of_singleton. }
    specialize (Hlogs E). rewrite Forall_forall in Hlogs.
    unfold stdout_lines in Hl.
    apply list_elem_of_omap in Hl as (ev & Hev & Hout).
    destruct ev; try done. injection Hout as ->.
    specialize (Hlogs _ Hev _ eq_refl).
    by apply list_elem_of_singleton in Hlogs. }
  rewrite Forall_forall in Hall.
  split; [by apply Forall_forall|].
  split; intros Hin; by specialize (Hall _ Hin).
Qed.

End Job_outcomes.

(** A finished run on the CPU, saved as a JPEG. *)
Lemma stylize_completed_witness :
  let E := Example.world false (Some (PilImage Example.out)) in
  let result := run (stylize Example.srgb "tagged.jpg" "style.jpg" "out/res.jpg") E in
  fst result = Ok tt /\
  writes (snd result)
  = [ByPillow Example.out "out/res.jpg"
       (save_pil_kwargs Example.srgb "out/res.jpg")].
Proof.
  intros E result.
  assert (reaches_stylize Example.srgb E "tagged.jpg" "style.jpg"
            (Example.with_mode "RGB" (Example.image "RGB" 2000 1000 (Some Example.srgb)))
            (Example.with_mode "RGB" (Example.image "RGB" 512 512 (Some Example.srgb))))
    as Hready.
  { repeat split; reflexivity. }
  destruct (stylize_completed Example.srgb E "tagged.jpg" "style.jpg"
              "out/res.jpg" _ _ Example.out Hready eq_refl eq_refl eq_refl)
    as (Hres & _ & Hw & _).
  by split.
Defined.

(** A stylizer that runs out of memory. *)
Lemma stylize_stylizer_error_witness :
  let E := Worlds.failing_stylizer (Exn RuntimeError "out of memory") in
  let result := run (stylize Example.srgb "tagged.jpg" "style.jpg" "out/res.jpg") E in
  fst result = Raise (Exn RuntimeError "out of memory") /\
  writes (snd result) = [].
Proof.
  intros E result.
  assert (reaches_stylize Example.srgb E "tagged.jpg" "style.jpg"
            (Example.with_mode "RGB" (Example.image "RGB" 2000 1000 (Some Example.srgb)))
            (Example.with_mode "RGB" (Example.image "RGB" 512 512 (Some Example.srgb))))
    as Hready.
  { repeat split; reflexivity. }
  destruct (stylize_stylizer_error Example.srgb E "tagged.jpg" "style.jpg"
              "out/res.jpg" _ _ (Exn RuntimeError "out of memory")
              Hready eq_refl eq_refl)
    as (Hres & _ & _ & Hw).
  by split.
Defined.

(** A missing content file, and a missing style file. *)
Lemma stylize_unreadable_input_witness :
  let E := Example.world false None in
  fst (run (stylize Example.srgb "missing.jpg" "style.jpg" "out/res.jpg") E)
  = Raise (SystemExit 1) /\
  fst (run (stylize Example.srgb "tagged.jpg" "missing.jpg" "out/res.jpg") E)
  = Raise (SystemExit 1).
Proof.
  intros E. split.
  - destruct (stylize_unreadable_input Example.srgb E "missing.jpg" "style.jpg"
                "out/res.jpg"
                (Exn FileNotFoundError "No such file: missing.jpg") eq_refl)
      as [Hcontent _].
    by rewrite (Hcontent eq_refl).
  - destruct (stylize_unreadable_input Example.srgb E "tagged.jpg" "missing.jpg"
                "out/res.jpg"
                (Exn FileNotFoundError "No such file: missing.jpg") eq_refl)
      as [_ Hstyle].
    by rewrite (Hstyle _ eq_refl eq_refl).
Defined.

(** ** The batch *)

Section Loops.

Context {A : Type} (body : A -> M unit) (E : env).

(** A loop whose turns all return, returns, with the logs of the turns in
    order. *)
Lemma for_each_returns xs :
  Forall (fun x => fst (run (body x) E) = Ok tt) xs ->
  run (for_each xs body) E = (Ok tt, turns body E xs).
Proof.
  induction 1 as [|x xs Hx _ IH]; [done|].
  unfold run, turns in *. simpl. unfold run, bind.
  destruct (body x E) as [r t]. simpl in Hx. subst r.
  by rewrite IH.
Qed.

(** A loop ends with the first turn that raises; the later turns are not
    run. *)
Lemma for_each_stops before x after e :
  Forall (fun x => fst (run (body x) E) = Ok tt) before ->
  fst (run (body x) E) = Raise e ->
  run (for_each (before ++ x :: after) body) E
  = (Raise e, turns body E (before ++ [x])).
Proof.
  intros Hbefore Hx. induction Hbefore as [|y ys Hy _ IH].
  - unfold run, turns in *. simpl. unfold run, bind.
    destruct (body x E) as [r t]. simpl in Hx. subst r.
    by rewrite app_nil_r.
  - unfold run, turns in *. simpl. unfold run, bind.
    destruct (body y E) as [r t]. simpl in Hy. subst r.
    by rewrite IH.
Qed.

(** A loop that returns had only turns that return. *)
Lemma for_each_returned xs :
  fst (run (for_each xs body) E) = Ok tt ->
  Forall (fun x => fst (run (body x) E) = Ok tt) xs.
Proof.
  induction xs as [|x xs IH]; [done|].
  unfold run in *. simpl. unfold run, bind.
  destruct (body x E) as [[[]|e] t] eqn:Hx; [|done].
  destruct (for_each xs body E) as [r t']. simpl. intros ->.
  constructor; [by rewrite Hx|by apply IH].
Qed.

End Loops.

Section Batch_properties.

Variable srgb_profile : bytes.

(** The job opens the content file, and then the style file if the
    content image loaded; it opens nothing else. *)
Lemma stylize_opens E content_path styles_path save_dir :
  opened (snd (run (stylize srgb_profile content_path styles_path save_dir) E))
  = content_path ::
    match fst (run (load_image srgb_profile content_path None) E) with
    | Ok _ => [styles_path]
    | Raise _ => []
    end.
Proof.
  pose proof (load_image_opens srgb_profile E content_path None) as Hc.
  pose proof (load_image_opens srgb_profile E styles_path None) as Hs.
  assert (forall c s, opened (snd (run (stylize_loaded srgb_profile c s save_dir) E))
                      = []) as Hrest.
  { intros c s. apply log_misses. by apply logs_stylize_loaded. }
  rewrite stylize_unfold. unfold run, bind in *.
  destruct (load_image srgb_profile content_path None E) as [[c|e] t1];
    [|simpl in *; by rewrite Hc].
  destruct (load_image srgb_profile styles_path None E) as [[s|e] t2].
  - specialize (Hrest c s).
    destruct (stylize_loaded srgb_profile c s save_dir E) as [r t3].
    simpl in *. unfold opened in *. by rewrite !omap_app, Hc, Hs, Hrest.
  - simpl in *. unfold opened in *. by rewrite omap_app, Hc, Hs.
Qed.

(** A job that returns has loaded its content image. *)
Lemma stylize_returned_loaded E content_path styles_path save_dir :
  fst (run (stylize srgb_profile content_path styles_path save_dir) E) = Ok tt ->
  exists img, fst (run (load_image srgb_profile content_path None) E) = Ok img.
Proof.
  rewrite stylize_unfold. unfold run, bind.
  destruct (load_image srgb_profile content_path None E) as [[c|e] t1];
    [eauto|done].
Qed.

(** X15. The batch returns exactly when the job of every directory entry
    returns; and then the files opened are, entry by entry and in the order
    of the listing, the content file of the entry and the style file, which
    is loaded anew for each entry. *)
Theorem batch_completes E names :
  let result := run (main srgb_profile (Ok names)) E in
  (fst result = Ok tt <->
   forall i, i ∈ names -> fst (run (batch_item srgb_profile i) E) = Ok tt) /\
  (fst result = Ok tt ->
   opened (snd result)
   = flat_map (fun i => [path_join content_path i; style_path]) names).
Proof.
  intros result. subst result. unfold main, batch.
  rewrite <- Forall_forall. split; [split|].
  - apply for_each_returned.
  - intros Hall. by rewrite (for_each_returns _ _ _ Hall).
  - intros Hok. apply for_each_returned in Hok.
    rewrite (for_each_returns _ _ _ Hok). cbn [snd].
    induction Hok as [|i names Hi _ IH]; [done|].
    unfold turns, opened in *. simpl. rewrite omap_app, IH.
    fold (opened (snd (run (batch_item srgb_profile i) E))).
    unfold batch_item in *. rewrite stylize_opens.
    destruct (stylize_returned_loaded _ _ _ _ Hi) as [img ->]. done.
Qed.

(** X16. The batch stops at the first entry whose job raises, with that
    exception: the log holds the turns of the entries up to that one, and
    no later entry is touched. *)
Theorem batch_stops_at_first_failure E before i after e :
  (forall j, j ∈ before -> fst (run (batch_item srgb_profile j) E) = Ok tt) ->
  fst (run (batch_item srgb_profile i) E) = Raise e ->
  run (main srgb_profile (Ok (before ++ i :: after))) E
  = (Raise e, turns (batch_item srgb_profile) E (before ++ [i])).
Proof.
  intros Hbefore Hi. rewrite <- Forall_forall in Hbefore.
  unfold main, batch. by apply for_each_stops.
Qed.

End Batch_properties.

(** Two entries in a directory where everything works. *)
Lemma batch_completes_witness :
  opened (snd (run (main Example.srgb (Ok ["a.jpg"; "b.png"])) Worlds.studio))
  = ["/home/zjlab/xzz/datasets/Camera1/a.jpg";
     "/home/zjlab/xzz/datasets/style/vangoh.jpeg";
     "/home/zjlab/xzz/datasets/Camera1/b.png";
     "/home/zjlab/xzz/datasets/style/vangoh.jpeg"].
Proof.
  destruct (batch_completes Example.srgb Worlds.studio ["a.jpg"; "b.png"])
    as [Hiff Hopened].
  rewrite Hopened; [reflexivity|].
  apply Hiff. intros i Hi.
  apply elem_of_cons in Hi as [->|Hi]; [by vm_compute|].
  apply list_elem_of_singleton in Hi as ->. by vm_compute.
Defined.

(** A directory whose second entry cannot be opened. *)
Lemma batch_stops_at_first_failure_witness :
  fst (run (main Example.srgb (Ok ["a.jpg"; "b.png"; "c.jpg"]))
           (Worlds.unreadable "/home/zjlab/xzz/datasets/Camera1/b.png"))
  = Raise (SystemExit 1).
Proof.
  change ["a.jpg"; "b.png"; "c.jpg"] with (["a.jpg"] ++ "b.png" :: ["c.jpg"]).
  rewrite (batch_stops_at_first_failure Example.srgb
             (Worlds.unreadable "/home/zjlab/xzz/datasets/Camera1/b.png")
             ["a.jpg"] "b.png" ["c.jpg"] (SystemExit 1)); [reflexivity| |].
  - intros j Hj. apply list_elem_of_singleton in Hj as ->. by vm_compute.
  - by vm_compute.
Defined.

(** ** The safe scale, continued *)

Section Safe_scale_more.

Import Float64.
Local Open Scope Q_scope.

Lemma inject_Z_nonzero z : z <> 0%Z -> ~ inject_Z z == 0.
Proof.
  intros Hz Heq. apply Hz. by apply (proj1 (inject_Z_injective z 0)).
Qed.

(** The quotient of two integers is that of their multiples by a positive
    integer. *)
Lemma truediv_scaled k a b :
  (0 < k)%Z -> truediv (k * a) (k * b) = truediv a b.
Proof.
  intros Hk. unfold truediv.
  assert ((k * b =? 0)%Z = (b =? 0)%Z) as ->.
  { destruct (Z.eqb_spec b 0) as [->|Hb].
    - by rewrite Z.mul_0_r.
    - apply Z.eqb_neq. nia. }
  destruct (Z.eqb_spec b 0) as [Hb|Hb]; [done|].
  assert (Qabs (inject_Z (k * a) / inject_Z (k * b))
          == Qabs (inject_Z a / inject_Z b)) as Hq.
  { assert (inject_Z (k * a) / inject_Z (k * b) == inject_Z a / inject_Z b)
      as ->; [|reflexivity].
    rewrite !inject_Z_mult. field.
    split; apply inject_Z_nonzero; lia. }
  rewrite (round_mag_comp _ _ Hq).
  assert (is_neg (k * a) = is_neg a) as ->.
  { unfold is_neg. destruct (Z.ltb_spec a 0); [apply Z.ltb_lt|apply Z.ltb_ge]; nia. }
  assert (is_neg (k * b) = is_neg b) as ->; [|done].
  unfold is_neg. destruct (Z.ltb_spec b 0); [apply Z.ltb_lt|apply Z.ltb_ge]; nia.
Qed.

(** A [dim] of zero gives zero, when it gives anything. *)
Lemma scale_by_zero c v : scale_by c 0 = Ok v -> v = 0%Z.
Proof.
  unfold scale_by, mul_int.
  assert (of_int 0 = Ok (Fin false 0 emin)) as -> by (by vm_compute).
  destruct c as [[neg m e|neg]|]; [|done..].
  unfold mul.
  assert (mag m e * mag 0 emin == 0) as Hz.
  { unfold mag. change (inject_Z 0) with 0. ring. }
  rewrite (round_mag_comp _ _ Hz).
  assert (round_mag 0 = (0, emin)%Z) as -> by (by vm_compute).
  assert (overflows (0, emin)%Z = false) as -> by (by vm_compute).
  cbn [to_int fst snd].
  assert (Qfloor (mag 0 emin) = 0%Z) as -> by (by vm_compute).
  destruct (xorb neg false); by intros [= <-].
Qed.

(** Changing the sign of [dim] changes the sign of the result. *)
Lemma scale_by_opp c dim :
  scale_by c (- dim) =
  match scale_by c dim with
  | Ok v => Ok (- v)%Z
  | Raise e => Raise e
  end.
Proof.
  destruct (decide (dim = 0%Z)) as [->|Hnz].
  { change (- 0)%Z with 0%Z.
    destruct (scale_by c 0) as [v|e] eqn:Hv; [|done].
    by rewrite (scale_by_zero c v Hv). }
  unfold scale_by, mul_int, of_int. rewrite Z.abs_opp.
  destruct (overflows (round_mag (inject_Z (Z.abs dim)))); [done|].
  destruct c as [[neg m e|neg]|]; [| |done].
  - unfold mul. destruct (overflows _); [done|].
    assert (is_neg (- dim) = negb (is_neg dim)) as ->.
    { unfold is_neg. destruct (Z.ltb_spec dim 0).
      - apply Z.ltb_ge. lia.
      - apply Z.ltb_lt. lia. }
    cbn [to_int]. f_equal.
    destruct neg, (is_neg dim); simpl; lia.
  - done.
Qed.

(** The quotient of a positive by a negative integer, both within [2^53],
    is a negative float other than zero. *)
Lemma truediv_mixed p n :
  (0 < p <= 2 ^ 53)%Z -> (- 2 ^ 53 <= n < 0)%Z ->
  exists m e, truediv p n = Ok (Fin true m e) /\ m <> 0%Z.
Proof.
  intros Hp Hn. unfold truediv.
  destruct (n =? 0)%Z eqn:Hz; [apply Z.eqb_eq in Hz; lia|].
  set (x := Qabs (inject_Z p / inject_Z n)).
  assert (x == inject_Z p / inject_Z (- n)) as Hxq.
  { unfold x. rewrite Qabs_neg.
    - rewrite inject_Z_opp. field. apply inject_Z_nonzero. lia.
    - assert (inject_Z p / inject_Z n == - (inject_Z p / inject_Z (- n))) as ->.
      { rewrite inject_Z_opp. field. apply inject_Z_nonzero. lia. }
      assert (0 <= inject_Z p / inject_Z (- n)); [|lra].
      apply Qle_shift_div_l.
      + change 0 with (inject_Z 0). rewrite <- Zlt_Qlt. lia.
      + rewrite Qmult_0_l. change 0 with (inject_Z 0). rewrite <- Zle_Qle. lia. }
  assert (0 < inject_Z (- n)) as Hb.
  { change 0 with (inject_Z 0). rewrite <- Zlt_Qlt. lia. }
  assert (x <= mag 1 53) as Hx.
  { rewrite Hxq. apply Qle_shift_div_r; [exact Hb|].
    rewrite mag_pow2, <- pow2_Z, <- inject_Z_mult, <- Zle_Qle by lia. nia. }
  assert (mag 1 (-53) <= x) as Hx1.
  { rewrite Hxq. apply Qle_shift_div_l; [exact Hb|].
    apply Qle_trans with (mag 1 (-53) * pow2 53).
    - apply Qmult_le_l; [rewrite mag_pow2; apply pow2_pos|].
      rewrite <- pow2_Z, <- Zle_Qle by lia. lia.
    - rewrite mag_pow2, <- pow2_add. change (pow2 (-53 + 53)) with (inject_Z 1).
      rewrite <- Zle_Qle. lia. }
  rewrite (no_overflow x 1 53); [|lia|done|exact Hx|].
  2:{ rewrite mag_pow2. by apply pow2_lt. }
  assert (is_neg p = false) as ->.
  { unfold is_neg. apply Z.ltb_ge. lia. }
  assert (is_neg n = true) as ->.
  { unfold is_neg. apply Z.ltb_lt. lia. }
  simpl xorb. eexists _, _. split; [reflexivity|].
  intros Hm0.
  assert (mag 1 (-53) <= rounded x) as Hr.
  { rewrite <- (rounded_exact 1 (-53)) at 1; [|lia|done]. by apply rounded_mono. }
  unfold rounded in Hr. rewrite Hm0 in Hr. unfold mag at 2 in Hr.
  change (inject_Z 0) with 0 in Hr. rewrite Qmult_0_l, mag_pow2 in Hr.
  pose proof (pow2_pos (-53)). lra.
Qed.

End Safe_scale_more.

(** X6. The result depends on the sides through their ratio only: a common
    positive factor of [w] and [h] changes nothing, errors included, and
    whatever the C library's [pow] returns. *)
Theorem get_safe_scale_aspect_only libm_pow k w h dim :
  0 < k ->
  get_safe_scale libm_pow (k * w) (k * h) dim = get_safe_scale libm_pow w h dim.
Proof.
  intros Hk. unfold get_safe_scale.
  assert ((k * w >? k * h) = (w >? h)) as ->.
  { rewrite !Z.gtb_ltb.
    destruct (Z.ltb_spec h w); [apply Z.ltb_lt|apply Z.ltb_ge]; nia. }
  by rewrite !truediv_scaled.
Qed.

(** X7. The result is odd in [dim]: the opposite [dim] gives the opposite
    result, and the same error when there is one, whatever the C library's
    [pow] returns. *)
Theorem get_safe_scale_odd libm_pow w h dim :
  get_safe_scale libm_pow w h (- dim) =
  match get_safe_scale libm_pow w h dim with
  | Ok v => Ok (- v)
  | Raise e => Raise e
  end.
Proof.
  rewrite !get_safe_scale_factor.
  destruct (aspect_factor libm_pow w h) as [c|e]; [|done]. apply scale_by_opp.
Qed.

(** X8. With a [pow] that is accurate to one unit in the last place, for
    sides and [dim] between 1 and [2^53] the result is at least [dim]: the
    quotient of the sides is at least 1, so the float next to its square
    root is at least 1, and rounding keeps the order. *)
Theorem get_safe_scale_at_least_dim libm_pow w h dim :
  Float64.within_one_ulp libm_pow ->
  0 < w <= 2 ^ 53 -> 0 < h <= 2 ^ 53 -> 0 < dim <= 2 ^ 53 ->
  exists v, get_safe_scale libm_pow w h dim = Ok v /\ dim <= v.
Proof.
  intros Hacc Hw Hh Hdim.
  destruct (aspect_factor_range libm_pow w h Hacc Hw Hh)
    as (m & e & Hc & Hm & Hlo & Hhi).
  rewrite get_safe_scale_factor, Hc, scale_by_returns by done.
  eexists. split; [reflexivity|].
  rewrite <- (Qfloor_Z dim) at 1. apply Qfloor_resp_le.
  pose proof (rounded_int dim ltac:(lia)) as Hd.
  rewrite <- Hd at 1. apply rounded_mono. rewrite Hd.
  rewrite <- (Qmult_1_l (inject_Z dim)) at 1.
  apply Qmult_le_compat_r; [done|].
  change 0%Q with (inject_Z 0). rewrite <- Zle_Qle. lia.
Qed.

(** X9. Sides of opposite signs make the ratio negative and its power a complex
    number, which [int] refuses: the call ends with [TypeError], whatever
    the C library's [pow] returns. *)
Theorem get_safe_scale_opposite_signs libm_pow w h dim :
  (0 < w <= 2 ^ 53 /\ - 2 ^ 53 <= h < 0) \/
  (- 2 ^ 53 <= w < 0 /\ 0 < h <= 2 ^ 53) ->
  - 2 ^ 53 <= dim <= 2 ^ 53 ->
  get_safe_scale libm_pow w h dim
  = Raise (Exn TypeError
      "int() argument must be a string, a bytes-like object or a real number, not 'complex'").
Proof.
  intros Hsigns Hdim.
  assert (exists m e, aspect_factor libm_pow w h
                      = Float64.pow_half libm_pow (Float64.Fin true m e)
                      /\ m <> 0) as (m & e & Hc & Hm).
  { unfold aspect_factor. destruct Hsigns as [[Hw Hh]|[Hw Hh]].
    - assert ((w >? h) = true) as -> by (apply Z.gtb_lt; lia).
      destruct (truediv_mixed w h Hw Hh) as (m & e & -> & Hm). eauto.
    - assert ((w >? h) = false) as ->.
      { rewrite Z.gtb_ltb. apply Z.ltb_ge. lia. }
      destruct (truediv_mixed h w Hh Hw) as (m & e & -> & Hm). eauto. }
  rewrite get_safe_scale_factor, Hc. unfold Float64.pow_half.
  apply Z.eqb_neq in Hm. rewrite Hm.
  unfold scale_by, Float64.mul_int, Float64.of_int.
  rewrite (no_overflow _ 1 53); [done|lia|done| |].
  - rewrite mag_pow2, <- pow2_Z, <- Zle_Qle by lia. lia.
  - rewrite mag_pow2. by apply pow2_lt.
Qed.

(** A 4000 x 2000 image gets the scale of a 2 x 1 image. *)
Lemma get_safe_scale_aspect_only_witness :
  get_safe_scale Float64.pow_rounded 4000 2000 512
  = get_safe_scale Float64.pow_rounded 2 1 512.
Proof.
  apply (get_safe_scale_aspect_only Float64.pow_rounded 2000 2 1 512). lia.
Defined.

(** A 1920 x 1080 image with [dim = 512], with a [pow] that rounds
    correctly. *)
Lemma get_safe_scale_at_least_dim_witness :
  exists v, get_safe_scale Float64.pow_rounded 1920 1080 512 = Ok v /\ 512 <= v.
Proof.
  apply (get_safe_scale_at_least_dim Float64.pow_rounded 1920 1080 512);
    [apply pow_rounded_within_one_ulp|lia..].
Defined.

(** A width of 5 and a height of -3. *)
Lemma get_safe_scale_opposite_signs_witness :
  get_safe_scale Float64.pow_rounded 5 (-3) 7
  = Raise (Exn TypeError
      "int() argument must be a string, a bytes-like object or a real number, not 'complex'").
Proof.
  apply (get_safe_scale_opposite_signs Float64.pow_rounded 5 (-3) 7); lia.
Defined.

(** ** Devices and encoders, continued *)

(** X10. Which complaint the validation prints: the one about types for an
    empty list and for a list of mixed types, whatever its length; the one
    about the number for a list of three or more devices of one type; and
    none, but the list of devices, otherwise. *)
Theorem validate_devices_message E (devices : list device) :
  let t := snd (run (validate_devices devices) E) in
  let mixed := exists d1 d2, d1 ∈ devices /\ d2 ∈ devices
                             /\ dev_type d1 <> dev_type d2 in
  (t = [EvStdout "Devices must all be the same type."]
   <-> devices = [] \/ mixed) /\
  (t = [EvStdout "Only 1 or 2 devices are supported."]
   <-> ~ mixed /\ (2 < length devices)%nat) /\
  (t = [EvReport (UsingDevices devices)]
   <-> ~ mixed /\ (1 <= length devices <= 2)%nat).
Proof.
  intros t mixed. subst t. rewrite validate_devices_run.
  pose proof (one_type_iff devices) as Hone.
  assert (mixed -> ~ (forall d1 d2, d1 ∈ devices -> d2 ∈ devices ->
                                    dev_type d1 = dev_type d2)) as Hmixed.
  { intros (d1 & d2 & H1 & H2 & Hne) Hsame. by apply Hne, Hsame. }
  destruct (bool_decide (base.size (device_types devices) ≠ 1%nat)) eqn:Hsize.
  - apply bool_decide_eq_true_1 in Hsize. cbn [snd].
    assert (devices = [] \/ mixed) as Hwhy.
    { destruct devices as [|d ds]; [by left|right].
      apply mixed_types_pair. intros Hsame. apply Hsize, Hone. by split. }
    split; [done|]. split; (split; [done|]); intros [Hnot Hlen].
    + destruct Hwhy as [->|Hm]; [simpl in Hlen; lia|done].
    + destruct Hwhy as [->|Hm]; [simpl in Hlen; lia|done].
  - apply bool_decide_eq_false_1 in Hsize.
    assert (base.size (device_types devices) = 1%nat) as Hsize'.
    { destruct (decide (base.size (device_types devices) = 1%nat)); tauto. }
    apply Hone in Hsize' as [Hne Hsame].
    assert (~ mixed) as Hnot.
    { intros Hm. by apply (Hmixed Hm). }
    assert (length devices <> 0%nat) as Hlen0 by (by destruct devices).
    destruct ((1 <=? length devices)%nat && (length devices <=? 2)%nat) eqn:Hlen;
      cbn [negb snd].
    + apply andb_true_iff in Hlen as [H1 H2]. apply Nat.leb_le in H1, H2.
      split; [|split].
      * split; [done|]. intros [->|Hm]; done.
      * split; [done|]. intros [_ ?]. lia.
      * split; [|done]. intros _. split; [done|lia].
    + apply andb_false_iff in Hlen.
      assert ((2 < length devices)%nat) as Hbig.
      { destruct Hlen as [H|H]; apply Nat.leb_gt in H; lia. }
      split; [|split].
      * split; [done|]. intros [->|Hm]; done.
      * split; [|done]. intros _. by split.
      * split; [done|]. intros [_ ?]. lia.
Qed.

(** X5. The representation alone chooses the encoder: a decoded image goes to
    Pillow and never to the TIFF writer, also when the destination is a
    TIFF file, which then gets no argument but the profile; an array never
    goes to Pillow. *)
Theorem save_image_encoder_by_kind (srgb_profile : bytes) E path :
  (forall im,
     writes (snd (run (save_image srgb_profile path (PilImage im)) E))
     = [ByPillow im path (save_pil_kwargs srgb_profile path)]) /\
  (forall im,
     lower (path_suffix path) ∈ tiff_suffixes ->
     writes (snd (run (save_image srgb_profile path (PilImage im)) E))
     = [ByPillow im path {[ "icc_profile" := KwBytes srgb_profile ]}]) /\
  (forall a w,
     w ∈ writes (snd (run (save_image srgb_profile path (NdArray a)) E)) ->
     w = ByTiffWriter path a "rgb" (72, 72) [icc_tag srgb_profile]).
Proof.
  assert (forall im,
            writes (snd (run (save_image srgb_profile path (PilImage im)) E))
            = [ByPillow im path (save_pil_kwargs srgb_profile path)]) as Hpil.
  { intros im. by destruct (save_image_pil_run srgb_profile E path im)
      as (r & t & -> & _ & Hw & _). }
  split; [exact Hpil|]. split.
  - intros im Hext. rewrite Hpil. do 2 f_equal.
    unfold save_pil_kwargs.
    apply elem_of_tiff_suffixes in Hext.
    rewrite bool_decide_eq_false_2.
    + by destruct Hext as [-> | ->].
    + rewrite elem_of_jpeg_suffixes. by destruct Hext as [-> | ->]; intros [|].
  - intros a w.
    unfold run, save_image, save_tiff, bind, emit, try_except, call, raise,
      print_error, sys_exit.
    destruct (bool_decide _); [|by intros ?%elem_of_nil].
    destruct (TiffWriter_save E path a _ _ _) as [[]|e];
      [|destruct (is_OSError e)]; cbn [snd app writes omap];
      by intros ->%list_elem_of_singleton.
Qed.

(** A decoded image bound for a TIFF file. *)
Lemma save_image_encoder_by_kind_witness :
  writes (snd (run (save_image Example.srgb "scan.TIF" (PilImage Example.out))
                   (Example.world false None)))
  = [ByPillow Example.out "scan.TIF" {[ "icc_profile" := KwBytes Example.srgb ]}].
Proof.
  destruct (save_image_encoder_by_kind Example.srgb (Example.world false None)
              "scan.TIF") as (_ & Htiff & _).
  apply Htiff. by vm_compute.
Defined.

(** ** Destinations of the batch *)

Lemma append_assoc (a b c : string) : (a +:+ b) +:+ c = a +:+ (b +:+ c).
Proof.
  induction a as [|x a IH]; [done|].
  change (String x ((a +:+ b) +:+ c) = String x (a +:+ (b +:+ c))).
  by f_equal.
Qed.

Lemma append_nil_r (a : string) : a +:+ "" = a.
Proof.
  induction a as [|x a IH]; [done|].
  change (String x (a +:+ "") = String x a). by f_equal.
Qed.

(** Reading a name without slash adds it to the component being read. *)
Lemma path_name_from_slash_free i cur last :
  slash_free i = true ->
  path_name_from i cur last = if keeps (cur +:+ i) then cur +:+ i else last.
Proof.
  revert cur. induction i as [|c i IH]; intros cur Hfree.
  - simpl. by rewrite append_nil_r.
  - simpl in Hfree. apply andb_true_iff in Hfree as [Hc Hfree].
    apply negb_true_iff in Hc. simpl. rewrite Hc, IH by done.
    rewrite append_assoc. reflexivity.
Qed.

(** After a slash, only what follows it counts, if it counts. *)
Lemma path_name_from_dir dir i cur last :
  slash_free i = true -> keeps i = true ->
  path_name_from (dir +:+ String "/" i) cur last = i.
Proof.
  intros Hfree Hkeeps. revert cur last.
  induction dir as [|c dir IH]; intros cur last.
  - change (path_name_from i "" (if keeps cur then cur else last) = i).
    rewrite path_name_from_slash_free by done.
    change ("" +:+ i) with i. by rewrite Hkeeps.
  - change (String c dir +:+ String "/" i)
      with (String c (dir +:+ String "/" i)).
    simpl. destruct (Ascii.eqb c "/"); apply IH.
Qed.

(** The name of an entry is the name of its path in a directory. *)
Lemma path_name_join dir i :
  slash_free i = true -> keeps i = true ->
  path_name (path_join dir i) = i /\ path_name i = i.
Proof.
  intros Hfree Hkeeps.
  assert (path_name i = i) as Hi.
  { unfold path_name. rewrite path_name_from_slash_free by done.
    change ("" +:+ i) with i. by rewrite Hkeeps. }
  split; [|done]. unfold path_join.
  assert (starts_with "/" i = false) as ->.
  { destruct i as [|c i]; [done|]. cbn [starts_with slash_free] in *.
    apply andb_true_iff in Hfree as [Hc _]. apply negb_true_iff in Hc.
    rewrite Ascii.eqb_sym. by rewrite Hc. }
  destruct (String.eqb dir "" || ends_with_slash dir) eqn:Hdir.
  - apply orb_true_iff in Hdir as [Hempty|Hslash].
    + apply String.eqb_eq in Hempty as ->. exact Hi.
    + assert (exists d, dir = d +:+ "/") as [d ->].
      { clear -Hslash. induction dir as [|c dir IH]; [done|].
        destruct dir as [|c' dir].
        - simpl in Hslash. apply Ascii.eqb_eq in Hslash as ->. by exists "".
        - destruct IH as [d Hd]; [done|]. exists (String c d).
          change (String c (String c' dir) = String c (d +:+ "/")).
          by rewrite Hd. }
      rewrite append_assoc. simpl. unfold path_name.
      by apply path_name_from_dir.
  - unfold path_name. by apply path_name_from_dir.
Qed.

(** X17. Each result of the batch is encoded as the name of its content file
    says: for a directory entry (a plain name), the destination has the
    suffix of the entry, so Pillow gets the arguments that the entry's own
    suffix calls for. *)
Theorem batch_destination_keeps_suffix (srgb_profile : bytes) (i : string) :
  slash_free i = true -> i <> "" -> i <> "." ->
  path_suffix (path_join save_dir i) = path_suffix i /\
  save_pil_kwargs srgb_profile (path_join save_dir i)
  = save_pil_kwargs srgb_profile i.
Proof.
  intros Hfree Hne Hdot.
  assert (keeps i = true) as Hkeeps.
  { unfold keeps. apply andb_true_iff.
    split; apply negb_true_iff, String.eqb_neq; done. }
  destruct (path_name_join save_dir i Hfree Hkeeps) as [Hjoin Hi].
  assert (path_suffix (path_join save_dir i) = path_suffix i) as Hsuffix.
  { unfold path_suffix. by rewrite Hjoin, Hi. }
  split; [exact Hsuffix|]. unfold save_pil_kwargs. by rewrite Hsuffix.
Qed.

(** The entry [IMG_0001.JPG]. *)
Lemma batch_destination_keeps_suffix_witness :
  path_suffix (path_join save_dir "IMG_0001.JPG") = ".JPG" /\
  save_pil_kwargs Example.srgb (path_join save_dir "IMG_0001.JPG")
  = save_pil_kwargs Example.srgb "IMG_0001.JPG".
Proof.
  destruct (batch_destination_keeps_suffix Example.srgb "IMG_0001.JPG")
    as [Hsuffix Hkw]; [reflexivity|done|done|].
  split; [by rewrite Hsuffix|exact Hkw].
Defined.
